(** * gogstools: the gs argument grammar, in Rocq

    A shallow embedding of package [gs] of rosscartlidge/gogstools
    (types.go, parser.go, command.go): the descriptor (struct tag) parser,
    the clause parser [Parse], the completion analyzer and the suffix
    pattern matcher, followed by the properties the specification states
    about them. The stand-alone completer of package [completion] and the
    input functions of the chart command are embedded as well; further
    properties of the code stand at the end.

    Conventions of the embedding
    - a Go [string] is a Rocq [string] (a byte sequence); the Unicode-aware
      functions of package [strings] ([ToLower], [TrimSpace]) act on the
      ASCII range, a [range] loop over a string visits bytes, and
      [filepath.Match] reads bytes: on ASCII text this is what the library
      does, and the statements that depend on letter case, on blanks or on
      such a loop are stated for ASCII text ([isASCII]);
    - a Go [int] is a [Z]; slice lengths are [Z.of_nat (length _)];
    - [map[string]interface{}] is [gmap string Value];
    - a Go [error] is its message; [(T, error)] results are [result T];
    - the Go standard library functions that the package calls and that are
      not modelled here are the fields of the class [GoLib]; the file system
      is a [World]. *)

From Stdlib Require Import ZArith String Ascii List Lia Bool.
From Stdlib Require Import Sorting.Permutation Sorting.Sorted.
From Stdlib Require Import Floats.SpecFloat.
From stdpp Require Import gmap strings list pretty.

Set Warnings "-register-all".
Set Default Proof Using "Type".

(** ** Results and errors *)

Inductive result (A : Type) : Type :=
| Ok (a : A)
| Err (msg : string).
Arguments Ok {A} a.
Arguments Err {A} msg.

Definition is_Err {A} (r : result A) : bool :=
  match r with Err _ => true | Ok _ => false end.

Definition is_Ok {A} (r : result A) : bool :=
  match r with Ok _ => true | Err _ => false end.

(** ** Package [strings] *)

Module Strings.

Definition len (s : string) : Z := Z.of_nat (String.length s).

(** [s[n:]] for [0 <= n <= len s]. *)
Fixpoint from (n : nat) (s : string) : string :=
  match n, s with
  | O, _ => s
  | S n', String _ s' => from n' s'
  | S _, EmptyString => EmptyString
  end.

(** [s[:n]] for [0 <= n <= len s]. *)
Fixpoint upto (n : nat) (s : string) : string :=
  match n, s with
  | O, _ => EmptyString
  | S n', String c s' => String c (upto n' s')
  | S _, EmptyString => EmptyString
  end.

Fixpoint HasPrefix (s prefix : string) : bool :=
  match prefix, s with
  | EmptyString, _ => true
  | String p ps, String c cs => Ascii.eqb c p && HasPrefix cs ps
  | String _ _, EmptyString => false
  end.

Definition HasSuffix (s suffix : string) : bool :=
  (String.length suffix <=? String.length s)%nat
  && String.eqb (from (String.length s - String.length suffix) s) suffix.

Fixpoint Index_from (i : Z) (s substr : string) : Z :=
  if HasPrefix s substr then i
  else match s with
       | EmptyString => (-1)%Z
       | String _ s' => Index_from (i + 1)%Z s' substr
       end.

Definition Index (s substr : string) : Z := Index_from 0%Z s substr.

Definition Contains (s substr : string) : bool := (0 <=? Index s substr)%Z.

Fixpoint mem_byte (c : ascii) (chars : string) : bool :=
  match chars with
  | EmptyString => false
  | String d ds => Ascii.eqb c d || mem_byte c ds
  end.

Fixpoint ContainsAny (s chars : string) : bool :=
  match s with
  | EmptyString => false
  | String c s' => mem_byte c chars || ContainsAny s' chars
  end.

Fixpoint explode (s : string) : list string :=
  match s with
  | EmptyString => []
  | String c s' => String c EmptyString :: explode s'
  end.

(** [genSplit] with [n] the number of cuts still allowed. *)
Fixpoint genSplit (n : nat) (s sep : string) : list string :=
  match n with
  | O => [s]
  | S n' =>
      let m := Index s sep in
      if (m <? 0)%Z then [s]
      else upto (Z.to_nat m) s
           :: genSplit n' (from (Z.to_nat m + String.length sep) s) sep
  end.

Definition Split (s sep : string) : list string :=
  if String.eqb sep EmptyString then explode s
  else genSplit (String.length s) s sep.

(** [SplitN(s, sep, n)] for [n > 0] and a non-empty separator. *)
Definition SplitN (s sep : string) (n : nat) : list string :=
  match n with
  | O => []
  | S k => genSplit k s sep
  end.

Fixpoint Join (elems : list string) (sep : string) : string :=
  match elems with
  | [] => EmptyString
  | [e] => e
  | e :: rest => e +:+ sep +:+ Join rest sep
  end.

Definition isUpper (c : ascii) : bool :=
  (Ascii.leb "A" c && Ascii.leb c "Z")%char.

Definition toLowerByte (c : ascii) : ascii :=
  if isUpper c then ascii_of_nat (nat_of_ascii c + 32) else c.

Fixpoint ToLower (s : string) : string :=
  match s with
  | EmptyString => EmptyString
  | String c s' => String (toLowerByte c) (ToLower s')
  end.

Fixpoint TrimLeftFunc (s : string) (f : ascii -> bool) : string :=
  match s with
  | EmptyString => EmptyString
  | String c s' => if f c then TrimLeftFunc s' f else s
  end.

Fixpoint TrimRightFunc (s : string) (f : ascii -> bool) : string :=
  match s with
  | EmptyString => EmptyString
  | String c s' =>
      let t := TrimRightFunc s' f in
      if String.eqb t EmptyString && f c then EmptyString else String c t
  end.

(** ASCII white space: tab, line feed, vertical tab, form feed, carriage
    return, space. *)
Definition isSpace (c : ascii) : bool :=
  let n := nat_of_ascii c in
  ((9 <=? n) && (n <=? 13) || (n =? 32))%nat.

Definition TrimSpace (s : string) : string :=
  TrimRightFunc (TrimLeftFunc s isSpace) isSpace.

End Strings.

Definition TAB : string := String (ascii_of_nat 9) EmptyString.

(** ** Package [strconv] *)

Definition float64 : Type := spec_float.

Definition ParseBool (str : string) : result bool :=
  if existsb (String.eqb str) ["1"; "t"; "T"; "TRUE"; "true"; "True"]
  then Ok true
  else if existsb (String.eqb str) ["0"; "f"; "F"; "FALSE"; "false"; "False"]
  then Ok false
  else Err ("strconv.ParseBool: parsing " +:+ str +:+ ": invalid syntax").

(** A directory entry, as [os.ReadDir] returns it. *)
Record DirEntry := { entry_Name : string; entry_IsDir : bool }.

(** The standard library functions the package relies on and that stay
    abstract: [strconv.ParseFloat(_, 64)], and [filepath.Dir], [Base] and
    [Join] (two arguments). [rangeOrder] is the order in which a [range]
    loop visits the keys of a [map[string]bool]: any order at all. *)
Class GoLib := {
  ParseFloat : string -> result float64;
  filepath_Dir : string -> string;
  filepath_Base : string -> string;
  filepath_Join : string -> string -> string;
  rangeOrder : gset string -> list string;
  rangeOrder_perm : forall s, Permutation (rangeOrder s) (elements s)
}.

(** The file system at the time of a call: [os_Open] gives the lines that a
    [bufio.Scanner] reads from the file, or the error of [os.Open];
    [os_ReadDir] the entries of a directory, or the error. *)
Record World := {
  os_Open : string -> result (list string);
  os_ReadDir : string -> result (list DirEntry)
}.

(** ** types.go *)

Inductive FieldType :=
| FieldTypeString | FieldTypeField | FieldTypeFile
| FieldTypeNumber | FieldTypeFlag | FieldTypeMulti.

Inductive ArgumentType :=
| ArgumentTypeString | ArgumentTypeField | ArgumentTypeContent
| ArgumentTypeFile | ArgumentTypeNumber.

Inductive FieldScope := ScopeGlobal | ScopeLocal.

Inductive FieldMode := ModeLast | ModeList.

Record ArgumentSpec := {
  arg_Name : string;
  arg_Type : ArgumentType
}.

(** The dynamic values an [interface{}] holds in this package. *)
Inductive Value : Type :=
| VString (s : string)
| VFloat (f : float64)
| VBool (b : bool)
| VStrings (l : list string)             (* []string *)
| VList (l : list Value)                 (* []interface{} *)
| VMap (m : gmap string Value).          (* map[string]interface{} *)

(** [DefaultValue] is [None] for the nil interface. *)
Record FieldMeta := {
  fm_Name : string;
  fm_Type : FieldType;
  fm_Scope : FieldScope;
  fm_Mode : FieldMode;
  fm_Args : list ArgumentSpec;
  fm_DefaultValue : option Value;
  fm_Help : string;
  fm_Required : bool;
  fm_Complete : string;
  fm_Suffix : string;
  fm_Enum : list string
}.

Record ClauseSet := {
  Fields : gmap string Value;
  IsNegated : bool
}.

Definition set_Type (m : FieldMeta) (t : FieldType) : FieldMeta :=
  {| fm_Name := fm_Name m; fm_Type := t; fm_Scope := fm_Scope m;
     fm_Mode := fm_Mode m; fm_Args := fm_Args m;
     fm_DefaultValue := fm_DefaultValue m; fm_Help := fm_Help m;
     fm_Required := fm_Required m; fm_Complete := fm_Complete m;
     fm_Suffix := fm_Suffix m; fm_Enum := fm_Enum m |}.

Definition set_Scope (m : FieldMeta) (s : FieldScope) : FieldMeta :=
  {| fm_Name := fm_Name m; fm_Type := fm_Type m; fm_Scope := s;
     fm_Mode := fm_Mode m; fm_Args := fm_Args m;
     fm_DefaultValue := fm_DefaultValue m; fm_Help := fm_Help m;
     fm_Required := fm_Required m; fm_Complete := fm_Complete m;
     fm_Suffix := fm_Suffix m; fm_Enum := fm_Enum m |}.

Definition set_Mode (m : FieldMeta) (d : FieldMode) : FieldMeta :=
  {| fm_Name := fm_Name m; fm_Type := fm_Type m; fm_Scope := fm_Scope m;
     fm_Mode := d; fm_Args := fm_Args m;
     fm_DefaultValue := fm_DefaultValue m; fm_Help := fm_Help m;
     fm_Required := fm_Required m; fm_Complete := fm_Complete m;
     fm_Suffix := fm_Suffix m; fm_Enum := fm_Enum m |}.

Definition set_Args (m : FieldMeta) (a : list ArgumentSpec) : FieldMeta :=
  {| fm_Name := fm_Name m; fm_Type := fm_Type m; fm_Scope := fm_Scope m;
     fm_Mode := fm_Mode m; fm_Args := a;
     fm_DefaultValue := fm_DefaultValue m; fm_Help := fm_Help m;
     fm_Required := fm_Required m; fm_Complete := fm_Complete m;
     fm_Suffix := fm_Suffix m; fm_Enum := fm_Enum m |}.

Definition set_DefaultValue (m : FieldMeta) (v : option Value) : FieldMeta :=
  {| fm_Name := fm_Name m; fm_Type := fm_Type m; fm_Scope := fm_Scope m;
     fm_Mode := fm_Mode m; fm_Args := fm_Args m;
     fm_DefaultValue := v; fm_Help := fm_Help m;
     fm_Required := fm_Required m; fm_Complete := fm_Complete m;
     fm_Suffix := fm_Suffix m; fm_Enum := fm_Enum m |}.

Definition set_Help (m : FieldMeta) (h : string) : FieldMeta :=
  {| fm_Name := fm_Name m; fm_Type := fm_Type m; fm_Scope := fm_Scope m;
     fm_Mode := fm_Mode m; fm_Args := fm_Args m;
     fm_DefaultValue := fm_DefaultValue m; fm_Help := h;
     fm_Required := fm_Required m; fm_Complete := fm_Complete m;
     fm_Suffix := fm_Suffix m; fm_Enum := fm_Enum m |}.

Definition set_Required (m : FieldMeta) (r : bool) : FieldMeta :=
  {| fm_Name := fm_Name m; fm_Type := fm_Type m; fm_Scope := fm_Scope m;
     fm_Mode := fm_Mode m; fm_Args := fm_Args m;
     fm_DefaultValue := fm_DefaultValue m; fm_Help := fm_Help m;
     fm_Required := r; fm_Complete := fm_Complete m;
     fm_Suffix := fm_Suffix m; fm_Enum := fm_Enum m |}.

Definition set_Complete (m : FieldMeta) (c : string) : FieldMeta :=
  {| fm_Name := fm_Name m; fm_Type := fm_Type m; fm_Scope := fm_Scope m;
     fm_Mode := fm_Mode m; fm_Args := fm_Args m;
     fm_DefaultValue := fm_DefaultValue m; fm_Help := fm_Help m;
     fm_Required := fm_Required m; fm_Complete := c;
     fm_Suffix := fm_Suffix m; fm_Enum := fm_Enum m |}.

Definition set_Suffix (m : FieldMeta) (s : string) : FieldMeta :=
  {| fm_Name := fm_Name m; fm_Type := fm_Type m; fm_Scope := fm_Scope m;
     fm_Mode := fm_Mode m; fm_Args := fm_Args m;
     fm_DefaultValue := fm_DefaultValue m; fm_Help := fm_Help m;
     fm_Required := fm_Required m; fm_Complete := fm_Complete m;
     fm_Suffix := s; fm_Enum := fm_Enum m |}.

Definition set_Enum (m : FieldMeta) (e : list string) : FieldMeta :=
  {| fm_Name := fm_Name m; fm_Type := fm_Type m; fm_Scope := fm_Scope m;
     fm_Mode := fm_Mode m; fm_Args := fm_Args m;
     fm_DefaultValue := fm_DefaultValue m; fm_Help := fm_Help m;
     fm_Required := fm_Required m; fm_Complete := fm_Complete m;
     fm_Suffix := fm_Suffix m; fm_Enum := e |}.

Definition FieldType_eqb (a b : FieldType) : bool :=
  match a, b with
  | FieldTypeString, FieldTypeString | FieldTypeField, FieldTypeField
  | FieldTypeFile, FieldTypeFile | FieldTypeNumber, FieldTypeNumber
  | FieldTypeFlag, FieldTypeFlag | FieldTypeMulti, FieldTypeMulti => true
  | _, _ => false
  end.

Definition ArgumentType_eqb (a b : ArgumentType) : bool :=
  match a, b with
  | ArgumentTypeString, ArgumentTypeString
  | ArgumentTypeField, ArgumentTypeField
  | ArgumentTypeContent, ArgumentTypeContent
  | ArgumentTypeFile, ArgumentTypeFile
  | ArgumentTypeNumber, ArgumentTypeNumber => true
  | _, _ => false
  end.

(** ** parser.go *)

Section Parser.
Context {lib : GoLib}.

(** The state of the loop of [parseTagParts]: the parts so far (in order),
    the builder [current] and [braceDepth]. *)
Fixpoint parseTagParts_loop (tag : string) (parts : list string)
    (current : string) (braceDepth : Z) : list string :=
  match tag with
  | EmptyString =>
      if (0 <? Strings.len current)%Z then parts ++ [current] else parts
  | String char tag' =>
      if Ascii.eqb char "{" then
        parseTagParts_loop tag' parts (current +:+ String char EmptyString)
          (braceDepth + 1)%Z
      else if Ascii.eqb char "}" then
        parseTagParts_loop tag' parts (current +:+ String char EmptyString)
          (braceDepth - 1)%Z
      else if Ascii.eqb char "," then
        if (braceDepth =? 0)%Z
        then parseTagParts_loop tag' (parts ++ [current]) EmptyString braceDepth
        else parseTagParts_loop tag' parts
               (current +:+ String char EmptyString) braceDepth
      else
        parseTagParts_loop tag' parts (current +:+ String char EmptyString)
          braceDepth
  end.

Definition parseTagParts (tag : string) : list string :=
  parseTagParts_loop tag [] EmptyString 0%Z.

Definition parseFieldType (s : string) (meta : FieldMeta)
    : FieldMeta * option string :=
  if String.eqb s "string" then (set_Type meta FieldTypeString, None)
  else if String.eqb s "field" then (set_Type meta FieldTypeField, None)
  else if String.eqb s "file" then (set_Type meta FieldTypeFile, None)
  else if String.eqb s "number" then (set_Type meta FieldTypeNumber, None)
  else if String.eqb s "flag" then (set_Type meta FieldTypeFlag, None)
  else if String.eqb s "multi" then (set_Type meta FieldTypeMulti, None)
  else (meta, Some ("unknown field type: " +:+ s)).

Definition parseFieldScope (s : string) (meta : FieldMeta)
    : FieldMeta * option string :=
  if String.eqb s "global" then (set_Scope meta ScopeGlobal, None)
  else if String.eqb s "local" then (set_Scope meta ScopeLocal, None)
  else (meta, Some ("unknown field scope: " +:+ s)).

Definition parseFieldMode (s : string) (meta : FieldMeta)
    : FieldMeta * option string :=
  if String.eqb s "last" then (set_Mode meta ModeLast, None)
  else if String.eqb s "list" then (set_Mode meta ModeList, None)
  else (meta, Some ("unknown field mode: " +:+ s)).

Definition parseDefaultValue (value : string) (fieldType : FieldType) : Value :=
  match fieldType with
  | FieldTypeNumber =>
      match ParseFloat value with
      | Ok num => VFloat num
      | Err _ => VFloat (S754_zero false)
      end
  | FieldTypeFlag =>
      match ParseBool value with
      | Ok b => VBool b
      | Err _ => VBool false
      end
  | _ => VString value
  end.

Definition parseArgumentType (s : string) : result ArgumentType :=
  if String.eqb s "string" then Ok ArgumentTypeString
  else if String.eqb s "field" then Ok ArgumentTypeField
  else if String.eqb s "content" then Ok ArgumentTypeContent
  else if String.eqb s "file" then Ok ArgumentTypeFile
  else if String.eqb s "number" then Ok ArgumentTypeNumber
  else Ok ArgumentTypeString.

(** The loop shared by the two branches of [parseArgumentSpecs]. *)
Fixpoint parseArgumentSpecs_loop (parts : list string)
    : result (list ArgumentSpec) :=
  match parts with
  | [] => Ok []
  | part :: rest =>
      let part := Strings.TrimSpace part in
      match parseArgumentType part with
      | Err e => Err e
      | Ok argType =>
          match parseArgumentSpecs_loop rest with
          | Err e => Err e
          | Ok specs => Ok ({| arg_Name := part; arg_Type := argType |} :: specs)
          end
      end
  end.

Definition parseArgumentSpecs (value : string) : result (list ArgumentSpec) :=
  if Strings.Contains value ":"
  then parseArgumentSpecs_loop (Strings.Split value ":")
  else parseArgumentSpecs_loop (Strings.Split value ",").

Definition parseEnumValues (value : string) : list string :=
  if Strings.Contains value ","
  then map Strings.TrimSpace (Strings.Split value ",")
  else if Strings.Contains value ":"
  then map Strings.TrimSpace (Strings.Split value ":")
  else [Strings.TrimSpace value].

Definition parseKeyValue (kv : string) (meta : FieldMeta)
    : FieldMeta * option string :=
  match Strings.SplitN kv "=" 2 with
  | [k; v] =>
      let key := Strings.TrimSpace k in
      let value := Strings.TrimSpace v in
      if String.eqb key "help" then (set_Help meta value, None)
      else if String.eqb key "default" then
        (set_DefaultValue meta (Some (parseDefaultValue value (fm_Type meta))),
         None)
      else if String.eqb key "required" then
        match ParseBool value with
        | Ok b => (set_Required meta b, None)
        | Err _ => (set_Required meta false,
                    Some ("invalid boolean for required: " +:+ value))
        end
      else if String.eqb key "complete" then (set_Complete meta value, None)
      else if String.eqb key "args" then
        match parseArgumentSpecs value with
        | Err e => (meta, Some ("invalid args specification: " +:+ e))
        | Ok args => (set_Args meta args, None)
        end
      else if String.eqb key "suffix" then (set_Suffix meta value, None)
      else if String.eqb key "enum" then
        (set_Enum meta (parseEnumValues value), None)
      else (meta, Some ("unknown key in tag: " +:+ key))
  | _ => (meta, Some ("invalid key=value pair: " +:+ kv))
  end.

(** The body of the loop of [parseFieldTag] for the part at index [i]. *)
Definition parseFieldTag_part (i : nat) (part : string) (meta : FieldMeta)
    : FieldMeta * option string :=
  let part := Strings.TrimSpace part in
  if String.eqb part EmptyString then (meta, None)
  else if Strings.Contains part "=" then parseKeyValue part meta
  else match i with
       | 0%nat => parseFieldType part meta
       | 1%nat => parseFieldScope part meta
       | 2%nat => parseFieldMode part meta
       | _ => if Strings.Contains part "=" then parseKeyValue part meta
              else (meta, None)
       end.

Fixpoint parseFieldTag_loop (i : nat) (parts : list string) (meta : FieldMeta)
    : FieldMeta * option string :=
  match parts with
  | [] => (meta, None)
  | part :: rest =>
      match parseFieldTag_part i part meta with
      | (meta', Some err) => (meta', Some err)
      | (meta', None) => parseFieldTag_loop (S i) rest meta'
      end
  end.

Definition parseFieldTag (fieldName tag : string) : FieldMeta * option string :=
  let meta := {| fm_Name := fieldName; fm_Type := FieldTypeString;
                 fm_Scope := ScopeGlobal; fm_Mode := ModeLast;
                 fm_Args := []; fm_DefaultValue := None;
                 fm_Help := EmptyString; fm_Required := false;
                 fm_Complete := EmptyString; fm_Suffix := EmptyString;
                 fm_Enum := [] |} in
  let parts := parseTagParts tag in
  if (Z.of_nat (length parts) =? 0)%Z then (meta, Some "empty tag")
  else parseFieldTag_loop 0 parts meta.

(** [parseFlagName]: the loop over the bytes of [fieldName] at index [i]. *)
Fixpoint parseFlagName_loop (i : nat) (fieldName : string) : string :=
  match fieldName with
  | EmptyString => EmptyString
  | String r rest =>
      (if (0 <? i)%nat && Strings.isUpper r then "-" else EmptyString)
      +:+ String (Strings.toLowerByte r) (parseFlagName_loop (S i) rest)
  end.

Definition parseFlagName (fieldName : string) : string :=
  if (Strings.len fieldName =? 1)%Z then "-" +:+ Strings.ToLower fieldName
  else "-" +:+ parseFlagName_loop 0 fieldName.

(** [reflectFields] over the struct of a configuration, given as the list
    of its fields: name and [gs] tag (the empty string when it has none). *)
Fixpoint reflectFields (config : list (string * string))
    : result (list FieldMeta) :=
  match config with
  | [] => Ok []
  | (name, tag) :: rest =>
      if String.eqb tag EmptyString then reflectFields rest
      else match parseFieldTag name tag with
           | (_, Some err) => Err ("parsing field " +:+ name +:+ ": " +:+ err)
           | (meta, None) =>
               match reflectFields rest with
               | Err e => Err e
               | Ok fields => Ok (meta :: fields)
               end
           end
  end.

End Parser.

(** ** command.go: the command and the clause parser *)

(** The fields of [GSCommand] that the modelled methods read or write; the
    configuration struct, the completer and the document generator are left
    out. Both caches only grow through [getFields] and [getFieldValues]. *)
Record GSCommand := {
  fields : list FieldMeta;
  fieldCache : gmap string (list string);
  contentCache : gmap string (gmap string (list string));
  scanDepth : Z
}.

Section Command.
Context {lib : GoLib}.

Definition NewCommand (config : list (string * string)) : result GSCommand :=
  match reflectFields config with
  | Err e => Err ("reflecting fields: " +:+ e)
  | Ok fs => Ok {| fields := fs; fieldCache := ∅; contentCache := ∅;
                   scanDepth := 100 |}
  end.

(** The search loop that [parseFlagWithNegation] and [findLastFlag] run
    over [cmd.fields]: the first field whose flag name is [flagName]. *)
Fixpoint lookupFlag (flds : list FieldMeta) (flagName : string)
    : option FieldMeta :=
  match flds with
  | [] => None
  | f :: rest =>
      if String.eqb flagName (parseFlagName (fm_Name f)) then Some f
      else lookupFlag rest flagName
  end.

Definition parseValue (value : string) (fieldType : FieldType) : result Value :=
  match fieldType with
  | FieldTypeString | FieldTypeField | FieldTypeFile => Ok (VString value)
  | FieldTypeNumber =>
      match ParseFloat value with
      | Ok f => Ok (VFloat f)
      | Err e => Err e
      end
  | FieldTypeFlag =>
      match ParseBool value with
      | Ok b => Ok (VBool b)
      | Err e => Err e
      end
  | FieldTypeMulti => Ok (VString value)
  end.

Definition parseValueWithValidation (value : string) (fieldMeta : FieldMeta)
    : result Value :=
  match parseValue value (fm_Type fieldMeta) with
  | Err e => Err e
  | Ok parsedValue =>
      if FieldType_eqb (fm_Type fieldMeta) FieldTypeString
         && (0 <? Z.of_nat (length (fm_Enum fieldMeta)))%Z
      then
        if existsb (String.eqb value) (fm_Enum fieldMeta)
        then Ok parsedValue
        else Err ("invalid value '" +:+ value +:+ "', must be one of: "
                  +:+ Strings.Join (fm_Enum fieldMeta) ", ")
      else Ok parsedValue
  end.

Definition parseValueByArgumentType (value : string) (argType : ArgumentType)
    : result Value :=
  match argType with
  | ArgumentTypeNumber =>
      match ParseFloat value with
      | Ok f => Ok (VFloat f)
      | Err e => Err e
      end
  | _ => Ok (VString value)
  end.

(** The list-or-last store, written twice in [parseFlagWithNegation] (for
    multi-argument and for single-argument switches). *)
Definition storeValue (fieldMeta : FieldMeta) (target : gmap string Value)
    (v : Value) : gmap string Value :=
  match fm_Mode fieldMeta with
  | ModeList =>
      match target !! fm_Name fieldMeta with
      | None => <[fm_Name fieldMeta := VList [v]]> target
      | Some (VList list) => <[fm_Name fieldMeta := VList (list ++ [v])]> target
      | Some existing => <[fm_Name fieldMeta := VList [existing; v]]> target
      end
  | ModeLast => <[fm_Name fieldMeta := v]> target
  end.

(** The loop over [fieldMeta.Args]; [args] is [args[i+1:]]. The length check
    before the loop makes the empty case unreachable. *)
Fixpoint parseMultiArgs (flagName : string) (specs : list ArgumentSpec)
    (args : list string) (argValues : gmap string Value)
    : result (gmap string Value) :=
  match specs with
  | [] => Ok argValues
  | argSpec :: specs' =>
      match args with
      | [] => Err "runtime error: index out of range"
      | argValue :: args' =>
          match parseValueByArgumentType argValue (arg_Type argSpec) with
          | Err e => Err ("parsing argument " +:+ arg_Name argSpec +:+ " for "
                          +:+ flagName +:+ ": " +:+ e)
          | Ok parsedValue =>
              parseMultiArgs flagName specs' args'
                (<[arg_Name argSpec := parsedValue]> argValues)
          end
      end
  end.

(** [parseFlagWithNegation]: the result carries the number of consumed
    arguments, the fields of the clause and the global fields after the
    call. *)
Definition parseFlagWithNegation (cmd : GSCommand) (args : list string)
    (clause : ClauseSet) (global : gmap string Value) (negated : bool)
    : result (Z * ClauseSet * gmap string Value) :=
  match args with
  | [] => Err "no arguments to parse"
  | flagName :: values =>
      match lookupFlag (fields cmd) flagName with
      | None => Err ("unknown flag: " +:+ flagName)
      | Some fieldMeta =>
          let store (v : Value) :=
            match fm_Scope fieldMeta with
            | ScopeGlobal => (clause, storeValue fieldMeta global v)
            | ScopeLocal =>
                ({| Fields := storeValue fieldMeta (Fields clause) v;
                    IsNegated := IsNegated clause |}, global)
            end in
          let put (v : Value) :=
            match fm_Scope fieldMeta with
            | ScopeGlobal => (clause, <[fm_Name fieldMeta := v]> global)
            | ScopeLocal =>
                ({| Fields := <[fm_Name fieldMeta := v]> (Fields clause);
                    IsNegated := IsNegated clause |}, global)
            end in
          match fm_Type fieldMeta with
          | FieldTypeFlag =>
              let '(c, g) := put (VBool true) in Ok (1%Z, c, g)
          | FieldTypeMulti =>
              if (Z.of_nat (length (fm_Args fieldMeta)) =? 0)%Z then
                Err ("multi-argument flag " +:+ flagName
                     +:+ " has no argument specification")
              else
                let requiredArgs := Z.of_nat (length (fm_Args fieldMeta)) in
                if (Z.of_nat (length args) <? requiredArgs + 1)%Z then
                  Err ("flag " +:+ flagName +:+ " requires "
                       +:+ pretty (length (fm_Args fieldMeta)) +:+ " arguments")
                else
                  match parseMultiArgs flagName (fm_Args fieldMeta) values ∅ with
                  | Err e => Err e
                  | Ok argValues =>
                      let argValues :=
                        if negated then <["_negated" := VBool true]> argValues
                        else argValues in
                      let '(c, g) := store (VMap argValues) in
                      Ok ((requiredArgs + 1)%Z, c, g)
                  end
          | _ =>
              match values with
              | [] => Err ("flag " +:+ flagName +:+ " requires a value")
              | value :: _ =>
                  match parseValueWithValidation value fieldMeta with
                  | Err e => Err ("parsing value for " +:+ flagName +:+ ": " +:+ e)
                  | Ok parsedValue =>
                      let valueToStore :=
                        if negated
                        then VMap (<["_negated" := VBool true]>
                                     (<["value" := parsedValue]> ∅))
                        else parsedValue in
                      let '(c, g) := store valueToStore in
                      Ok (2%Z, c, g)
                  end
              end
          end
      end
  end.

Definition getStringSlice (v : option Value) : list string :=
  match v with
  | Some (VStrings slice) => slice
  | _ => []
  end.

(** The local variables of [Parse] that its loop updates. *)
Record ParseState := {
  ps_clauses : list ClauseSet;
  ps_current : ClauseSet;
  ps_global : gmap string Value
}.

Definition newClause (negated : bool) : ClauseSet :=
  {| Fields := ∅; IsNegated := negated |}.

Definition startClause (st : ParseState) (negated : bool) : ParseState :=
  {| ps_clauses := ps_clauses st ++ [ps_current st];
     ps_current := newClause negated;
     ps_global := ps_global st |}.

(** One iteration of the loop of [Parse] at [arg = args[i]], with
    [rest = args[i+1:]]: the increment of [i] and the new state. *)
Definition Parse_step (cmd : GSCommand) (arg : string) (rest : list string)
    (st : ParseState) : result (Z * ParseState) :=
  if String.eqb arg "+" then Ok (1%Z, startClause st true)
  else if String.eqb arg "-" then Ok (1%Z, startClause st false)
  else if Strings.HasPrefix arg "+" then
    if (1 <? Strings.len arg)%Z then
      let flagArg := "-" +:+ Strings.from 1 arg in
      match parseFlagWithNegation cmd (flagArg :: rest) (ps_current st)
              (ps_global st) true with
      | Err e => Err e
      | Ok (consumed, c, g) =>
          Ok (consumed, {| ps_clauses := ps_clauses st; ps_current := c;
                           ps_global := g |})
      end
    else Ok (1%Z, startClause st true)
  else if Strings.HasPrefix arg "-" then
    if (1 <? Strings.len arg)%Z then
      match parseFlagWithNegation cmd (arg :: rest) (ps_current st)
              (ps_global st) false with
      | Err e => Err e
      | Ok (consumed, c, g) =>
          Ok (consumed, {| ps_clauses := ps_clauses st; ps_current := c;
                           ps_global := g |})
      end
    else Ok (1%Z, startClause st false)
  else
    let current := ps_current st in
    let fields1 :=
      <["_args" := VStrings (getStringSlice (Fields current !! "_args") ++ [arg])]>
        (Fields current) in
    let fields2 :=
      if Strings.HasSuffix (Strings.ToLower arg) ".tsv"
         || Strings.HasSuffix (Strings.ToLower arg) ".csv"
      then
        match fields1 !! "Argv" with
        | Some _ => fields1
        | None =>
            match ps_global st !! "Argv" with
            | Some _ => fields1
            | None => <["Argv" := VString arg]> fields1
            end
        end
      else fields1 in
    Ok (1%Z, {| ps_clauses := ps_clauses st;
                ps_current := {| Fields := fields2;
                                 IsNegated := IsNegated current |};
                ps_global := ps_global st |}).

(** The loop [for i < len(args)]: [args] is [args[i:]]; [fuel] bounds the
    number of iterations, and [None] is returned when it runs out. *)
Fixpoint Parse_loop (cmd : GSCommand) (fuel : nat) (args : list string)
    (st : ParseState) : option (result ParseState) :=
  match args with
  | [] => Some (Ok st)
  | arg :: rest =>
      match fuel with
      | O => None
      | S fuel' =>
          match Parse_step cmd arg rest st with
          | Err e => Some (Err e)
          | Ok (consumed, st') =>
              Parse_loop cmd fuel' (drop (Z.to_nat consumed) args) st'
          end
      end
  end.

(** [applyDefaults] on one clause: the inner loop over [cmd.fields]. *)
Definition applyDefaults_clause (cmd : GSCommand) (c : ClauseSet) : ClauseSet :=
  {| Fields :=
       foldl (fun (m : gmap string Value) fieldMeta =>
                match m !! fm_Name fieldMeta with
                | Some _ => m
                | None =>
                    match fm_DefaultValue fieldMeta with
                    | Some d => <[fm_Name fieldMeta := d]> m
                    | None => m
                    end
                end) (Fields c) (fields cmd);
     IsNegated := IsNegated c |}.

Definition applyDefaults (cmd : GSCommand) (clauses : list ClauseSet)
    : result (list ClauseSet) :=
  Ok (map (applyDefaults_clause cmd) clauses).

(** Every key of [global] that the clause lacks is copied into it. *)
Definition applyGlobal (global : gmap string Value) (c : ClauseSet) : ClauseSet :=
  {| Fields := Fields c ∪ global; IsNegated := IsNegated c |}.

(** [Parse]. The copy of the global values into the configuration struct
    ([applyGlobalToConfig], which returns no error) is not part of the
    result and is left out. *)
Definition Parse (cmd : GSCommand) (args : list string)
    : result (list ClauseSet) :=
  let st := {| ps_clauses := []; ps_current := newClause false;
               ps_global := ∅ |} in
  match Parse_loop cmd (length args) args st with
  | None => Err "unreachable"
  | Some (Err e) => Err e
  | Some (Ok st) =>
      let clauses := ps_clauses st ++ [ps_current st] in
      let clauses := map (applyGlobal (ps_global st)) clauses in
      applyDefaults cmd clauses
  end.

End Command.

(** ** [filepath.Match]

    A transcription of path/filepath/match.go for the Unix separator, on
    byte strings ([utf8.DecodeRuneInString] reads one byte). [None] stands
    for [ErrBadPattern]. The loops over the pattern carry a fuel that
    [Match] and [matchChunk] set from its length. *)

Module Filepath.

Definition Separator : ascii := "/"%char.

(** [scanChunk] after the leading stars: the chunk and the rest. *)
Fixpoint scanChunk_scan (pattern : string) (inrange : bool) : string * string :=
  match pattern with
  | EmptyString => (EmptyString, EmptyString)
  | String c p' =>
      if Ascii.eqb c "\" then
        match p' with
        | EmptyString => (String c EmptyString, EmptyString)
        | String d p'' =>
            let '(chunk, rest) := scanChunk_scan p'' inrange in
            (String c (String d chunk), rest)
        end
      else if Ascii.eqb c "[" then
        let '(chunk, rest) := scanChunk_scan p' true in (String c chunk, rest)
      else if Ascii.eqb c "]" then
        let '(chunk, rest) := scanChunk_scan p' false in (String c chunk, rest)
      else if Ascii.eqb c "*" && negb inrange then (EmptyString, pattern)
      else
        let '(chunk, rest) := scanChunk_scan p' inrange in (String c chunk, rest)
  end.

Fixpoint dropStars (pattern : string) (star : bool) : bool * string :=
  match pattern with
  | String c p' => if Ascii.eqb c "*" then dropStars p' true else (star, pattern)
  | EmptyString => (star, pattern)
  end.

Definition scanChunk (pattern : string) : bool * string * string :=
  let '(star, pattern) := dropStars pattern false in
  let '(chunk, rest) := scanChunk_scan pattern false in
  (star, chunk, rest).

Definition getEsc (chunk : string) : option (ascii * string) :=
  match chunk with
  | EmptyString => None
  | String c rest =>
      if Ascii.eqb c "-" || Ascii.eqb c "]" then None
      else
        let chunk := if Ascii.eqb c "\" then rest else chunk in
        match chunk with
        | EmptyString => None
        | String r nchunk =>
            if String.eqb nchunk EmptyString then None else Some (r, nchunk)
        end
  end.

(** The loop that parses the ranges of a character class for the byte [r]. *)
Fixpoint matchChunk_ranges (fuel : nat) (chunk : string) (r : ascii)
    (matched : bool) (nrange : nat) : option (bool * string) :=
  match fuel with
  | O => None
  | S fuel' =>
      match chunk with
      | String c rest =>
          if Ascii.eqb c "]" && (0 <? nrange)%nat then Some (matched, rest)
          else
            match getEsc chunk with
            | None => None
            | Some (lo, chunk1) =>
                let next (hi : ascii) (chunk2 : string) :=
                  matchChunk_ranges fuel' chunk2 r
                    (matched || (Ascii.leb lo r && Ascii.leb r hi))
                    (S nrange) in
                match chunk1 with
                | String d rest1 =>
                    if Ascii.eqb d "-" then
                      match getEsc rest1 with
                      | None => None
                      | Some (hi, chunk2) => next hi chunk2
                      end
                    else next lo chunk1
                | EmptyString => None
                end
            end
      | EmptyString => None
      end
  end.

(** [matchChunk]: [Some (Some rest)] when the chunk matches a prefix of [s],
    [Some None] when it does not. *)
Fixpoint matchChunk_loop (fuel : nat) (chunk s : string) (failed : bool)
    : option (option string) :=
  match fuel with
  | O => None
  | S fuel' =>
      match chunk with
      | EmptyString => if failed then Some None else Some (Some s)
      | String c chunk' =>
          let failed := failed || String.eqb s EmptyString in
          let literal (chunk0 : string) :=
            match chunk0 with
            | EmptyString => None
            | String p rest =>
                match s with
                | String x s' =>
                    if failed then matchChunk_loop fuel' rest s failed
                    else matchChunk_loop fuel' rest s' (negb (Ascii.eqb p x))
                | EmptyString => matchChunk_loop fuel' rest s failed
                end
            end in
          if Ascii.eqb c "[" then
            let '(r, s1) :=
              match s with
              | String x s' => if failed then (zero, s) else (x, s')
              | EmptyString => (zero, s)
              end in
            let '(negated, chunk1) :=
              match chunk' with
              | String n rest =>
                  if Ascii.eqb n "^" then (true, rest) else (false, chunk')
              | EmptyString => (false, chunk')
              end in
            match matchChunk_ranges fuel' chunk1 r false 0 with
            | None => None
            | Some (matched, chunk2) =>
                matchChunk_loop fuel' chunk2 s1
                  (failed || Bool.eqb matched negated)
            end
          else if Ascii.eqb c "?" then
            match s with
            | String x s' =>
                if failed then matchChunk_loop fuel' chunk' s failed
                else matchChunk_loop fuel' chunk' s' (Ascii.eqb x Separator)
            | EmptyString => matchChunk_loop fuel' chunk' s failed
            end
          else if Ascii.eqb c "\" then
            match chunk' with
            | EmptyString => None
            | _ => literal chunk'
            end
          else literal chunk
      end
  end.

Definition matchChunk (chunk s : string) : option (option string) :=
  matchChunk_loop (S (String.length chunk)) chunk s false.

(** The final check of the rest of the pattern, before [Match] reports a
    mismatch. *)
Fixpoint checkRest (fuel : nat) (pattern : string) : option bool :=
  match fuel with
  | O => Some false
  | S fuel' =>
      if String.eqb pattern EmptyString then Some false
      else
        let '(_, chunk, rest) := scanChunk pattern in
        match matchChunk chunk EmptyString with
        | None => None
        | Some _ => checkRest fuel' rest
        end
  end.

(** The inner loop of [Match] that skips [i+1] bytes of [name] after a
    star; the result is the new [name] when a position matches. *)
Fixpoint Match_skip (chunk rest : string) (name : string)
    : option (option string) :=
  match name with
  | EmptyString => Some None
  | String x name' =>
      if Ascii.eqb x Separator then Some None
      else
        match matchChunk chunk name' with
        | None => None
        | Some (Some t) =>
            if String.eqb rest EmptyString && negb (String.eqb t EmptyString)
            then Match_skip chunk rest name'
            else Some (Some t)
        | Some None => Match_skip chunk rest name'
        end
  end.

Fixpoint Match_loop (fuel : nat) (pattern name : string) : option bool :=
  match fuel with
  | O => None
  | S fuel' =>
      if String.eqb pattern EmptyString then Some (String.eqb name EmptyString)
      else
        let '(star, chunk, rest) := scanChunk pattern in
        if star && String.eqb chunk EmptyString then
          Some (negb (Strings.Contains name (String Separator EmptyString)))
        else
          match matchChunk chunk name with
          | None => None
          | Some r =>
              let retry :=
                if star then
                  match Match_skip chunk rest name with
                  | None => None
                  | Some (Some t) => Match_loop fuel' rest t
                  | Some None => checkRest (String.length rest) rest
                  end
                else checkRest (String.length rest) rest in
              match r with
              | Some t =>
                  if String.eqb t EmptyString
                     || negb (String.eqb rest EmptyString)
                  then Match_loop fuel' rest t
                  else retry
              | None => retry
              end
          end
  end.

Definition Match (pattern name : string) : option bool :=
  Match_loop (S (String.length pattern)) pattern name.

End Filepath.

(** ** command.go: the suffix pattern matcher *)

Definition matchesBracePattern (filename pattern : string) : bool :=
  let start := Strings.Index pattern "{" in
  let end_ := Strings.Index pattern "}" in
  if (start =? -1)%Z || (end_ =? -1)%Z || (end_ <=? start)%Z then false
  else
    let prefix := Strings.upto (Z.to_nat start) pattern in
    let suffix := Strings.from (Z.to_nat (end_ + 1)) pattern in
    let options :=
      Strings.Split
        (Strings.upto (Z.to_nat (end_ - (start + 1)))
           (Strings.from (Z.to_nat (start + 1)) pattern)) "," in
    existsb (fun option =>
               Strings.HasSuffix filename
                 (prefix +:+ Strings.TrimSpace option +:+ suffix)) options.

Definition matchesSuffixPattern (filename pattern : string) : bool :=
  let filename := Strings.ToLower filename in
  let pattern := Strings.ToLower pattern in
  if Strings.Contains pattern "{" && Strings.Contains pattern "}" then
    matchesBracePattern filename pattern
  else if Strings.ContainsAny pattern "*?[]" then
    let fullPattern := "*" +:+ pattern in
    match Filepath.Match fullPattern filename with
    | None => Strings.HasSuffix filename pattern
    | Some matched => matched
    end
  else Strings.HasSuffix filename pattern.

(** ** command.go: completion *)

Inductive CompletionType :=
| CompletionFlag | CompletionField | CompletionContent
| CompletionFile | CompletionMultiArg | CompletionEnum.

(** The two pointer fields are [None] when nil. *)
Record CompletionContext := {
  ctx_Type : CompletionType;
  ctx_Current : string;
  ctx_TSVFile : string;
  ctx_FieldName : string;
  ctx_ArgumentIndex : Z;
  ctx_ArgumentSpec : option ArgumentSpec;
  ctx_FieldMeta : option FieldMeta
}.

(** A slice index expression [a[i]]: [None] is the run-time panic
    "index out of range". *)
Definition index {A} (a : list A) (i : Z) : option A :=
  if (0 <=? i)%Z && (i <? Z.of_nat (length a))%Z
  then a !! Z.to_nat i else None.

(** What a call leaves behind: the command with its caches, and the names
    passed to [os.Open] so far (kept to observe reads; not a program
    variable). *)
Record Sys := {
  sys_cmd : GSCommand;
  sys_opened : list string
}.

(** Computations that read the file system and update the caches. *)
Definition IO (A : Type) : Type := World -> Sys -> A * Sys.

Definition io_ret {A} (a : A) : IO A := fun _ s => (a, s).

Definition io_bind {A B} (m : IO A) (k : A -> IO B) : IO B :=
  fun w s => let '(a, s') := m w s in k a w s'.

Notation "'do' x <- m ; k" := (io_bind m (fun x => k))
  (at level 10, x name, m at level 100, k at level 200).

Definition getCmd : IO GSCommand := fun _ s => (sys_cmd s, s).

Definition os_open (filename : string) : IO (result (list string)) :=
  fun w s => (os_Open w filename,
              {| sys_cmd := sys_cmd s;
                 sys_opened := sys_opened s ++ [filename] |}).

Definition os_readDir (dir : string) : IO (result (list DirEntry)) :=
  fun w s => (os_ReadDir w dir, s).

Definition setFieldCache (filename : string) (flds : list string) : IO unit :=
  fun _ s =>
    let cmd := sys_cmd s in
    (tt, {| sys_cmd := {| fields := fields cmd;
                          fieldCache := <[filename := flds]> (fieldCache cmd);
                          contentCache := contentCache cmd;
                          scanDepth := scanDepth cmd |};
            sys_opened := sys_opened s |}).

Definition setContentCache (cache : gmap string (gmap string (list string)))
    : IO unit :=
  fun _ s =>
    let cmd := sys_cmd s in
    (tt, {| sys_cmd := {| fields := fields cmd;
                          fieldCache := fieldCache cmd;
                          contentCache := cache;
                          scanDepth := scanDepth cmd |};
            sys_opened := sys_opened s |}).

Definition isAlnum (r : ascii) : bool :=
  (Ascii.leb "a" r && Ascii.leb r "z") || (Ascii.leb "A" r && Ascii.leb r "Z")
  || (Ascii.leb "0" r && Ascii.leb r "9").

Definition parseTSVHeader (header : string) : list string :=
  let header := Strings.TrimLeftFunc header (fun r => negb (isAlnum r)) in
  let flds :=
    if Strings.Contains header TAB then Strings.Split header TAB
    else Strings.Split header "," in
  filter (fun field => field ≠ EmptyString) (map Strings.TrimSpace flds).

Definition getFields (filename : string) : IO (result (list string)) :=
  do cmd <- getCmd;
  match fieldCache cmd !! filename with
  | Some flds => io_ret (Ok flds)
  | None =>
      do file <- os_open filename;
      match file with
      | Err e => io_ret (Err ("opening file " +:+ filename +:+ ": " +:+ e))
      | Ok [] => io_ret (Err ("file " +:+ filename +:+ " is empty"))
      | Ok (headerLine :: _) =>
          let flds := parseTSVHeader headerLine in
          do _ <- setFieldCache filename flds;
          io_ret (Ok flds)
      end
  end.

Definition prefixMatches (partial : string) (candidates : list string)
    : list string :=
  let partial := Strings.ToLower partial in
  filter (fun c => Strings.HasPrefix (Strings.ToLower c) partial = true)
    candidates.

Definition completeField (filename partial : string)
    : IO (result (list string)) :=
  do r <- getFields filename;
  match r with
  | Err e => io_ret (Err e)
  | Ok flds => io_ret (Ok (prefixMatches partial flds))
  end.

(** The index of the first element equal to [fieldName], or -1. *)
Fixpoint fieldIndexOf (flds : list string) (fieldName : string) (i : Z) : Z :=
  match flds with
  | [] => (-1)%Z
  | field :: rest =>
      if String.eqb field fieldName then i
      else fieldIndexOf rest fieldName (i + 1)%Z
  end.

(** The body of the scan loop of [getFieldValues] on one line. *)
Definition scanLine (fieldIndex : Z) (line : string) (values : gset string)
    : gset string :=
  let parts := Strings.Split line TAB in
  let parts :=
    if (Z.of_nat (length parts) <=? fieldIndex)%Z
    then Strings.Split line "," else parts in
  if (fieldIndex <? Z.of_nat (length parts))%Z then
    match index parts fieldIndex with
    | Some part =>
        let value := Strings.TrimSpace part in
        if String.eqb value EmptyString then values else {[value]} ∪ values
    | None => values
    end
  else values.

(** [for scanner.Scan() && linesScanned < cmd.scanDepth]. *)
Fixpoint scanLines (depth : Z) (fieldIndex : Z) (lines : list string)
    (linesScanned : Z) (values : gset string) : gset string :=
  match lines with
  | [] => values
  | line :: rest =>
      if (linesScanned <? depth)%Z
      then scanLines depth fieldIndex rest (linesScanned + 1)%Z
             (scanLine fieldIndex line values)
      else values
  end.

(** The inner loop [for j := ...; j < len(result); j++], [n] iterations
    from [j]. *)
Fixpoint sortInner (result : list string) (i j : nat) (n : nat) : list string :=
  match n with
  | O => result
  | S n' =>
      let result' :=
        match result !! i, result !! j with
        | Some a, Some b =>
            if String.ltb b a then <[j := a]> (<[i := b]> result) else result
        | _, _ => result
        end in
      sortInner result' i (S j) n'
  end.

(** The outer loop [for i := ...; i < len(result)-1; i++], [n] iterations
    from [i]. *)
Fixpoint sortOuter (result : list string) (i : nat) (n : nat) : list string :=
  match n with
  | O => result
  | S n' =>
      sortOuter (sortInner result i (S i) (length result - S i)) (S i) n'
  end.

Definition sortStrings (result : list string) : list string :=
  sortOuter result 0 (length result - 1).

Section Completion.
Context {lib : GoLib}.

Definition getFieldValues (filename fieldName : string)
    : IO (result (list string)) :=
  do cmd <- getCmd;
  match contentCache cmd !! filename ≫= (fun fileCache => fileCache !! fieldName) with
  | Some values => io_ret (Ok values)
  | None =>
      do _ <- match contentCache cmd !! filename with
              | Some _ => io_ret tt
              | None => setContentCache (<[filename := ∅]> (contentCache cmd))
              end;
      do file <- os_open filename;
      match file with
      | Err e => io_ret (Err ("opening file " +:+ filename +:+ ": " +:+ e))
      | Ok [] => io_ret (Err ("file " +:+ filename +:+ " is empty"))
      | Ok (headerLine :: dataLines) =>
          let flds := parseTSVHeader headerLine in
          let fieldIndex := fieldIndexOf flds fieldName 0 in
          if (fieldIndex =? -1)%Z then io_ret (Ok [])
          else
            let values := scanLines (scanDepth cmd) fieldIndex dataLines 0 ∅ in
            let result := sortStrings (rangeOrder values) in
            do cmd' <- getCmd;
            do _ <- setContentCache
                      (<[filename :=
                           <[fieldName := result]>
                             (default ∅ (contentCache cmd' !! filename))]>
                         (contentCache cmd'));
            io_ret (Ok result)
      end
  end.

Definition completeContent (filename fieldName partial : string)
    : IO (result (list string)) :=
  do r <- getFieldValues filename fieldName;
  match r with
  | Err _ => io_ret (Ok [])
  | Ok values => io_ret (Ok (prefixMatches partial values))
  end.

Definition commonFlags : list string :=
  ["-help"; "-man"; "-complete"; "-bash-completion"].

Definition completeFlags (cmd : GSCommand) (partial : string) : list string :=
  let partial := Strings.ToLower partial in
  flat_map (fun field =>
              let flag := parseFlagName (fm_Name field) in
              let plusFlag := "+" +:+ Strings.from 1 flag in
              (if Strings.HasPrefix (Strings.ToLower flag) partial
               then [flag] else [])
              ++ (if Strings.HasPrefix (Strings.ToLower plusFlag) partial
                  then [plusFlag] else []))
    (fields cmd)
  ++ List.filter (fun flag => Strings.HasPrefix (Strings.ToLower flag) partial)
       commonFlags.

(** The three lists that the loop of [completeFilesWithSuffix] fills. *)
Fixpoint completeFiles_loop (dir pattern : string) (fieldMeta : option FieldMeta)
    (entries : list DirEntry) (tsvFiles otherFiles directories : list string)
    : list string * list string * list string :=
  match entries with
  | [] => (tsvFiles, otherFiles, directories)
  | entry :: rest =>
      let name := entry_Name entry in
      let next := completeFiles_loop dir pattern fieldMeta rest in
      if Strings.HasPrefix name "." && negb (Strings.HasPrefix pattern ".")
      then next tsvFiles otherFiles directories
      else if negb (Strings.HasPrefix (Strings.ToLower name)
                      (Strings.ToLower pattern))
      then next tsvFiles otherFiles directories
      else
        let fullPath :=
          if String.eqb dir "." then name else filepath_Join dir name in
        if entry_IsDir entry
        then next tsvFiles otherFiles (directories ++ [fullPath +:+ "/"])
        else if match fieldMeta with
                | Some fm =>
                    negb (String.eqb (fm_Suffix fm) EmptyString)
                    && negb (matchesSuffixPattern name (fm_Suffix fm))
                | None => false
                end
        then next tsvFiles otherFiles directories
        else if Strings.HasSuffix (Strings.ToLower name) ".tsv"
        then next (tsvFiles ++ [fullPath]) otherFiles directories
        else next tsvFiles (otherFiles ++ [fullPath]) directories
  end.

Definition completeFilesWithSuffix (partial : string)
    (fieldMeta : option FieldMeta) : IO (result (list string)) :=
  let '(dir, pattern) :=
    if Strings.HasSuffix partial "/" then (partial, EmptyString)
    else if Strings.Contains partial "/"
    then (filepath_Dir partial, filepath_Base partial)
    else (".", partial) in
  do entries <- os_readDir dir;
  match entries with
  | Err _ => io_ret (Ok [])
  | Ok entries =>
      let '(tsvFiles, otherFiles, directories) :=
        completeFiles_loop dir pattern fieldMeta entries [] [] [] in
      io_ret (Ok ((tsvFiles ++ otherFiles) ++ directories))
  end.

Definition completeFiles (partial : string) : IO (result (list string)) :=
  completeFilesWithSuffix partial None.

Definition completeEnum (fieldMeta : option FieldMeta) (partial : string)
    : list string :=
  match fieldMeta with
  | None => []
  | Some fm =>
      if (Z.of_nat (length (fm_Enum fm)) =? 0)%Z then []
      else prefixMatches partial (fm_Enum fm)
  end.

Definition isTable (arg : string) : bool :=
  Strings.HasSuffix arg ".tsv" || Strings.HasSuffix arg ".csv".

(** The loop of [findTSVFile]; [prev] is [args[i-1]], and [None] at
    [i = 0]. *)
Fixpoint findTSVFile_loop (prev : option string) (args : list string) : string :=
  match args with
  | [] => EmptyString
  | arg :: rest =>
      if match prev with
         | Some p =>
             (String.eqb p "-argv" || Strings.HasSuffix p "-file") && isTable arg
         | None => false
         end
      then arg
      else if isTable arg && negb (Strings.HasPrefix arg "-")
              && match prev with
                 | None => true
                 | Some p =>
                     negb (Strings.HasPrefix p "-") || String.eqb p "-"
                     || String.eqb p "+"
                 end
      then arg
      else findTSVFile_loop (Some arg) rest
  end.

Definition findTSVFile (args : list string) : string :=
  findTSVFile_loop None args.

(** The loop [for i := pos - 1; i >= 0; i--] of [findLastFlag], with
    [k = i + 1]. *)
Fixpoint findLastFlag_loop (cmd : GSCommand) (args : list string) (k : nat)
    : option (Z * option FieldMeta) :=
  match k with
  | O => Some ((-1)%Z, None)
  | S k' =>
      let i := Z.of_nat k' in
      if (Z.of_nat (length args) <=? i)%Z then findLastFlag_loop cmd args k'
      else
        flagArg ← index args i;
        if Strings.HasPrefix flagArg "-" || Strings.HasPrefix flagArg "+" then
          let normalizedFlag :=
            if Strings.HasPrefix flagArg "+" && (1 <? Strings.len flagArg)%Z
            then Some ("-" +:+ Strings.from 1 flagArg)
            else if Strings.HasPrefix flagArg "-" && (1 <? Strings.len flagArg)%Z
            then Some flagArg
            else None in
          match normalizedFlag with
          | None => Some ((-1)%Z, None)
          | Some flag =>
              match lookupFlag (fields cmd) flag with
              | Some fm => Some (i, Some fm)
              | None => Some ((-1)%Z, None)
              end
          end
        else findLastFlag_loop cmd args k'
  end.

Definition findLastFlag (cmd : GSCommand) (args : list string) (pos : Z)
    : option (Z * option FieldMeta) :=
  let maxIndex := (Z.of_nat (length args) - 1)%Z in
  let pos := if (maxIndex <? pos)%Z then (maxIndex + 1)%Z else pos in
  findLastFlag_loop cmd args (Z.to_nat pos).

Definition shouldUseBareFileCompletion (args : list string) (pos : Z)
    : option bool :=
  if (pos =? 0)%Z then Some true
  else if (0 <? pos)%Z && (pos - 1 <? Z.of_nat (length args))%Z then
    prev ← index args (pos - 1)%Z;
    Some (String.eqb prev "+" || String.eqb prev "-"
          || (negb (Strings.HasPrefix prev "-")
              && negb (Strings.HasPrefix prev "+")))
  else Some false.

Definition mkContext (type : CompletionType) (current tsvFile fieldName : string)
    (argumentIndex : Z) (argumentSpec : option ArgumentSpec)
    (fieldMeta : option FieldMeta) : CompletionContext :=
  {| ctx_Type := type; ctx_Current := current; ctx_TSVFile := tsvFile;
     ctx_FieldName := fieldName; ctx_ArgumentIndex := argumentIndex;
     ctx_ArgumentSpec := argumentSpec; ctx_FieldMeta := fieldMeta |}.

(** [analyzeCompletionContext]; [None] is a run-time panic. *)
Definition analyzeCompletionContext (cmd : GSCommand) (args : list string)
    (pos : Z) : option CompletionContext :=
  current ← (if (pos <? Z.of_nat (length args))%Z then index args pos
             else Some EmptyString);
  if Strings.HasPrefix current "-" || Strings.HasPrefix current "+" then
    Some (mkContext CompletionFlag current EmptyString EmptyString 0 None None)
  else
    let tsvFile := findTSVFile args in
    '(flagPos, found) ← findLastFlag cmd args pos;
    match found with
    | None =>
        match shouldUseBareFileCompletion args pos with
        | None => None
        | Some bare =>
            Some (mkContext CompletionFile current tsvFile EmptyString 0 None
                    (if bare
                     then List.find (fun f => String.eqb (fm_Name f) "Argv")
                            (fields cmd)
                     else None))
        end
    | Some fieldMeta =>
        let argIndex := (pos - flagPos - 1)%Z in
        match fm_Type fieldMeta with
        | FieldTypeField =>
            Some (mkContext
                    (if (argIndex =? 0)%Z then CompletionField
                     else CompletionFile)
                    current tsvFile EmptyString 0 None (Some fieldMeta))
        | FieldTypeString =>
            Some (mkContext
                    (if (argIndex =? 0)%Z
                        && (0 <? Z.of_nat (length (fm_Enum fieldMeta)))%Z
                     then CompletionEnum else CompletionFile)
                    current tsvFile EmptyString 0 None (Some fieldMeta))
        | FieldTypeMulti =>
            if (0 <=? argIndex)%Z
               && (argIndex <? Z.of_nat (length (fm_Args fieldMeta)))%Z
            then
              spec ← index (fm_Args fieldMeta) argIndex;
              fieldName ←
                (if (0 <? argIndex)%Z then
                   prevSpec ← index (fm_Args fieldMeta) (argIndex - 1)%Z;
                   if ArgumentType_eqb (arg_Type prevSpec) ArgumentTypeField
                      && (flagPos + argIndex <? Z.of_nat (length args))%Z
                   then index args (flagPos + argIndex)%Z
                   else Some EmptyString
                 else Some EmptyString);
              Some (mkContext CompletionMultiArg current tsvFile fieldName
                      argIndex (Some spec) (Some fieldMeta))
            else
              Some (mkContext CompletionFile current tsvFile EmptyString 0 None
                      (Some fieldMeta))
        | _ =>
            Some (mkContext CompletionFile current tsvFile EmptyString 0 None
                    (Some fieldMeta))
        end
    end.

Definition completeMultiArgument (context : CompletionContext)
    : IO (result (list string)) :=
  match ctx_ArgumentSpec context with
  | None => completeFiles (ctx_Current context)
  | Some spec =>
      match arg_Type spec with
      | ArgumentTypeField =>
          if negb (String.eqb (ctx_TSVFile context) EmptyString)
          then completeField (ctx_TSVFile context) (ctx_Current context)
          else io_ret (Ok [])
      | ArgumentTypeContent =>
          if negb (String.eqb (ctx_TSVFile context) EmptyString)
             && negb (String.eqb (ctx_FieldName context) EmptyString)
          then completeContent (ctx_TSVFile context) (ctx_FieldName context)
                 (ctx_Current context)
          else io_ret (Ok [])
      | ArgumentTypeFile => completeFiles (ctx_Current context)
      | _ => io_ret (Ok [])
      end
  end.

(** [complete]: [None] is a run-time panic, [Some (Err _)] a returned
    error. *)
Definition complete (args : list string) (pos : Z)
    : IO (option (result (list string))) :=
  do cmd <- getCmd;
  match analyzeCompletionContext cmd args pos with
  | None => io_ret None
  | Some context =>
      do r <- match ctx_Type context with
              | CompletionFlag =>
                  io_ret (Ok (completeFlags cmd (ctx_Current context)))
              | CompletionField =>
                  completeField (ctx_TSVFile context) (ctx_Current context)
              | CompletionContent =>
                  completeContent (ctx_TSVFile context) (ctx_FieldName context)
                    (ctx_Current context)
              | CompletionMultiArg => completeMultiArgument context
              | CompletionEnum =>
                  io_ret (Ok (completeEnum (ctx_FieldMeta context)
                                (ctx_Current context)))
              | CompletionFile =>
                  completeFilesWithSuffix (ctx_Current context)
                    (ctx_FieldMeta context)
              end;
      io_ret (Some r)
  end.

End Completion.

(** ** command.go: [Execute] *)

Fixpoint Atoi_digits (s : string) (n : Z) : option Z :=
  match s with
  | EmptyString => Some n
  | String c s' =>
      if Ascii.leb "0" c && Ascii.leb c "9"
      then Atoi_digits s' (10 * n + Z.of_nat (nat_of_ascii c - 48))%Z
      else None
  end.

(** [strconv.Atoi] for a 64-bit [int]; [None] when it returns an error (the
    caller drops the error value). *)
Definition Atoi (s : string) : option Z :=
  let '(neg, body) :=
    match s with
    | String c r =>
        if Ascii.eqb c "-" then (true, r)
        else if Ascii.eqb c "+" then (false, r) else (false, s)
    | EmptyString => (false, s)
    end in
  if String.eqb body EmptyString then None
  else
    n ← Atoi_digits body 0;
    let v := if neg : bool then (- n)%Z else n in
    if (- 2 ^ 63 <=? v)%Z && (v <? 2 ^ 63)%Z then Some v else None.

(** What a call of [Execute] did: printed one of the built-in texts, ran
    the completion sub-command (with the candidates printed or the error
    returned, or a panic), returned the error of [Parse], or, [Parse]
    having returned the clauses, went on with them to the configuration:
    the check that it is a [Commander], its [Validate] and its [Execute],
    which are code of the user of the package and are not followed
    further ([RanCommander] is this last case, whatever they return). *)
Inductive Executed :=
| PrintedHelp
| PrintedManPage
| PrintedBashCompletion
| RanCompletion (r : option (result (list string)))
| ParseFailed (err : string)
| RanCommander (clauses : list ClauseSet).

Section Execute.
Context {lib : GoLib}.

Definition handleCompletion (args : list string)
    : IO (option (result (list string))) :=
  if (Z.of_nat (length args) <? 3)%Z
  then io_ret (Some (Err "completion requires position and arguments"))
  else
    match index args 1 with
    | None => io_ret None
    | Some a1 =>
        match Atoi a1 with
        | None => io_ret (Some (Err ("invalid completion position: " +:+ a1)))
        | Some pos => complete (drop 2 args) pos
        end
    end.

Definition Execute_parse (cmd : GSCommand) (args : list string) : Executed :=
  match Parse cmd args with
  | Err e => ParseFailed ("parsing arguments: " +:+ e)
  | Ok clauses => RanCommander clauses
  end.

Definition Execute (args : list string) : IO Executed :=
  do cmd <- getCmd;
  match args with
  | a0 :: _ =>
      if String.eqb a0 "-help" || String.eqb a0 "--help" then io_ret PrintedHelp
      else if String.eqb a0 "-man" then io_ret PrintedManPage
      else if String.eqb a0 "-complete" then
        do r <- handleCompletion args; io_ret (RanCompletion r)
      else if String.eqb a0 "-bash-completion" then io_ret PrintedBashCompletion
      else io_ret (Execute_parse cmd args)
  | [] => io_ret (Execute_parse cmd args)
  end.

End Execute.

(** ** Configurations and environments of the repository's tests *)

(** An instance of [GoLib] for running the model: [ParseFloat] on unsigned
    decimal integers only, paths split at the last slash, and map keys
    visited in the order of [elements]. *)
Definition runParseFloat (s : string) : result float64 :=
  if String.eqb s EmptyString then Err "invalid syntax"
  else match Atoi_digits s 0 with
       | Some n => Ok (binary_normalize 53 1024 n 0 false)
       | None => Err "invalid syntax"
       end.

Fixpoint lastSlash (s : string) (i : nat) (last : option nat) : option nat :=
  match s with
  | EmptyString => last
  | String c s' =>
      lastSlash s' (S i) (if Ascii.eqb c "/" then Some i else last)
  end.

Definition runLib : GoLib := {|
  ParseFloat := runParseFloat;
  filepath_Dir := fun p =>
    match lastSlash p 0 None with
    | Some i => Strings.upto i p
    | None => "."
    end;
  filepath_Base := fun p =>
    match lastSlash p 0 None with
    | Some i => Strings.from (S i) p
    | None => p
    end;
  filepath_Join := fun d n => d +:+ "/" +:+ n;
  rangeOrder := elements;
  rangeOrder_perm := fun s => Permutation_refl (elements s)
|}.


Definition TestCompletionConfig : list (string * string) :=
  [("Name", "string,global,last,help=Name field");
   ("Type", "string,global,last,help=Type field,enum=bar:line:area,default=bar");
   ("Field", "field,global,last,help=Field name");
   ("File", "file,global,last,help=File path,suffix=.tsv");
   ("DataFile", "file,global,last,help=Data file,suffix=.[tc]sv");
   ("Config", "file,global,last,help=Config file,suffix=.{json,yaml}");
   ("Match", "multi,local,list,args=field:content,help=Match conditions")].

Definition ChartConfig : list (string * string) :=
  [("X", "field,global,last,help=Use field for X axis");
   ("Y", "field,local,list,help=Use field for Y axis");
   ("Match", "multi,local,list,args=field:content,help=Filter data by field matching content");
   ("Right", "flag,local,last,help=Use right-hand scale");
   ("Title", "string,global,last,help=Chart title,default=Chart");
   ("Type", "string,global,last,help=Chart type: bar/line/area,default=bar,enum=bar:line:area");
   ("Width", "number,global,last,help=Chart width in pixels,default=800");
   ("Height", "number,global,last,help=Chart height in pixels,default=400");
   ("Quiet", "flag,global,last,help=Suppress progress messages,default=true");
   ("Argv", "file,global,last,help=Input TSV file,suffix=.[tc]sv")].

Definition emptyCommand : GSCommand :=
  {| fields := []; fieldCache := ∅; contentCache := ∅; scanDepth := 100 |}.

Definition commandOf (config : list (string * string)) : GSCommand :=
  match NewCommand (lib := runLib) config with
  | Ok cmd => cmd
  | Err _ => emptyCommand
  end.

Definition sysOf (cmd : GSCommand) : Sys :=
  {| sys_cmd := cmd; sys_opened := [] |}.

(** A file system with no file and no directory. *)
Definition noFiles : World :=
  {| os_Open := fun name => Err ("open " +:+ name +:+ ": no such file or directory");
     os_ReadDir := fun name => Err ("open " +:+ name +:+ ": no such file or directory") |}.

(** A file system with the one table [data.tsv]. *)
Definition dataLines : list string :=
  ["host" +:+ TAB +:+ "cpu" +:+ TAB +:+ "-delta";
   "web2" +:+ TAB +:+ "10" +:+ TAB +:+ "-5";
   "Web1" +:+ TAB +:+ "20" +:+ TAB +:+ "-3";
   "db1" +:+ TAB +:+ "30" +:+ TAB +:+ "7";
   "web2" +:+ TAB +:+ "40" +:+ TAB +:+ "-5"].

Definition oneTable : World :=
  {| os_Open := fun name =>
       if String.eqb name "data.tsv" then Ok dataLines
       else Err ("open " +:+ name +:+ ": no such file or directory");
     os_ReadDir := fun name =>
       if String.eqb name "."
       then Ok [ {| entry_Name := "data.tsv"; entry_IsDir := false |} ]
       else Err ("open " +:+ name +:+ ": no such file or directory") |}.

(** A file system where [data.tsv] exists and is empty. *)
Definition emptyTable : World :=
  {| os_Open := fun name =>
       if String.eqb name "data.tsv" then Ok []
       else Err ("open " +:+ name +:+ ": no such file or directory");
     os_ReadDir := fun name =>
       Err ("open " +:+ name +:+ ": no such file or directory") |}.

(** ** Package [completion]: the stand-alone completer

    [TSVCompleter] keeps its own cache of field names. Its methods are
    written with the cache passed in and out; [parseTSVHeader] of this
    package is the function of the same name of package [gs], line for
    line. *)

Module TSVCompleter.

Record t := { cache : gmap string (list string) }.

Definition NewTSVCompleter : t := {| cache := ∅ |}.

Definition getFields (filename : string) (w : World) (tc : t)
    : result (list string) * t :=
  match cache tc !! filename with
  | Some flds => (Ok flds, tc)
  | None =>
      match os_Open w filename with
      | Err e => (Err ("opening file " +:+ filename +:+ ": " +:+ e), tc)
      | Ok [] => (Err ("file " +:+ filename +:+ " is empty"), tc)
      | Ok (headerLine :: _) =>
          let flds := parseTSVHeader headerLine in
          (Ok flds, {| cache := <[filename := flds]> (cache tc) |})
      end
  end.

Definition CompleteField (filename partial : string) (w : World) (tc : t)
    : result (list string) * t :=
  match getFields filename w tc with
  | (Err e, tc') => (Err e, tc')
  | (Ok flds, tc') => (Ok (prefixMatches partial flds), tc')
  end.

(** The loop of [findTSVFile]; [prev] is [args[i-1]], and [None] at
    [i = 0]. *)
Fixpoint findTSVFile_loop (prev : option string) (args : list string) : string :=
  match args with
  | [] => EmptyString
  | arg :: rest =>
      let afterFileFlag :=
        match prev with
        | Some p => String.eqb p "-argv" || Strings.HasSuffix p "-file"
        | None => false
        end in
      if Strings.HasSuffix arg ".tsv" && negb (Strings.HasPrefix arg "-")
         && (afterFileFlag
             || match prev with
                | None => true
                | Some p => negb (Strings.HasPrefix p "-")
                end)
      then arg
      else if afterFileFlag && Strings.HasSuffix arg ".tsv" then arg
      else findTSVFile_loop (Some arg) rest
  end.

Definition findTSVFile (args : list string) : string :=
  findTSVFile_loop None args.

(** [Complete]; the context argument is not used. [None] is a run-time
    panic. *)
Definition Complete (args : list string) (pos : Z) (w : World) (tc : t)
    : option (result (list string)) * t :=
  match (if (pos <? Z.of_nat (length args))%Z then index args pos
         else Some EmptyString) with
  | None => (None, tc)
  | Some current =>
      match (if (0 <? pos)%Z then
               if (pos - 1 <? Z.of_nat (length args))%Z
               then index args (pos - 1)
               else if (0 <? Z.of_nat (length args))%Z
                    then index args (Z.of_nat (length args) - 1)
                    else Some EmptyString
             else Some EmptyString) with
      | None => (None, tc)
      | Some prevArg =>
          let isFieldFlag :=
            String.eqb prevArg "-x" || String.eqb prevArg "-y"
            || Strings.Contains prevArg "field" in
          if isFieldFlag
             || (negb (Strings.HasPrefix current "-")
                 && negb (String.eqb current EmptyString))
          then
            let tsvFile := findTSVFile args in
            let '(found, tc1) :=
              if negb (String.eqb tsvFile EmptyString) then
                match CompleteField tsvFile current w tc with
                | (Ok flds, tc') =>
                    if (0 <? Z.of_nat (length flds))%Z then (Some flds, tc')
                    else (None, tc')
                | (Err _, tc') => (None, tc')
                end
              else (None, tc) in
            match found with
            | Some flds => (Some (Ok flds), tc1)
            | None =>
                if Strings.HasSuffix current ".tsv" then
                  match CompleteField current EmptyString w tc1 with
                  | (Ok flds, tc2) => (Some (Ok flds), tc2)
                  | (Err _, tc2) => (Some (Ok []), tc2)
                  end
                else (Some (Ok []), tc1)
            end
          else (Some (Ok []), tc)
      end
  end.

End TSVCompleter.

(** ** Package [main]: the chart command

    The configuration struct of the example command and the functions
    with which it reads its input: [getInputFile], [parseTSV],
    [findFieldIndex] and [filterData]. A [bufio.Scanner] reads the lines
    of the input without error; [regexp.MatchString] stays abstract. *)

Module Chart.

Record Config := {
  cfg_X : string;
  cfg_Y : list string;
  cfg_Match : list (gmap string Value);
  cfg_Right : bool;
  cfg_Title : string;
  cfg_Type : string;
  cfg_Width : float64;
  cfg_Height : float64;
  cfg_Quiet : bool;
  cfg_Argv : string
}.

Record TSVData := {
  Headers : list string;
  Rows : list (list string)
}.

(** The loop of [getInputFile] over the clauses. *)
Fixpoint getInputFile_clauses (clauses : list ClauseSet) : string :=
  match clauses with
  | [] => "-"
  | clause :: rest =>
      match Fields clause !! "_args" with
      | Some (VStrings argList) =>
          if (0 <? Z.of_nat (length argList))%Z then
            match List.find
                    (fun arg =>
                       Strings.HasSuffix (Strings.ToLower arg) ".tsv"
                       || Strings.HasSuffix (Strings.ToLower arg) ".csv")
                    argList with
            | Some arg => arg
            | None => getInputFile_clauses rest
            end
          else getInputFile_clauses rest
      | _ => getInputFile_clauses rest
      end
  end.

Definition getInputFile (cfg : Config) (clauses : list ClauseSet) : string :=
  if negb (String.eqb (cfg_Argv cfg) EmptyString) then cfg_Argv cfg
  else getInputFile_clauses clauses.

(** [unicode.IsLetter(r) || unicode.IsDigit(r) || r == '_'] on a byte. *)
Definition isVariableByte (r : ascii) : bool :=
  isAlnum r || Ascii.eqb r "_".

(** The separator of [parseTSV]: the first byte of the line that is no
    variable character, a tab when there is none. *)
Fixpoint findSeparator (firstLine : string) : ascii :=
  match firstLine with
  | EmptyString => ascii_of_nat 9
  | String r rest =>
      if negb (isVariableByte r) then r else findSeparator rest
  end.

(** [parseTSV]; [stdin] holds the lines of the standard input. *)
Definition parseTSV (filename : string) (stdin : list string) (w : World)
    : result TSVData :=
  let input :=
    if String.eqb filename EmptyString || String.eqb filename "-"
    then Ok stdin
    else match os_Open w filename with
         | Err e => Err ("opening file " +:+ filename +:+ ": " +:+ e)
         | Ok lines => Ok lines
         end in
  match input with
  | Err e => Err e
  | Ok [] => Err "no data in input"
  | Ok (firstLine :: lines) =>
      let separator := String (findSeparator firstLine) EmptyString in
      Ok {| Headers := map Strings.TrimSpace (Strings.Split firstLine separator);
            Rows := map (fun line =>
                           map Strings.TrimSpace (Strings.Split line separator))
                      (List.filter
                         (fun line => negb (String.eqb line EmptyString))
                         lines) |}
  end.

Definition findFieldIndex (data : TSVData) (fieldName : string) : Z :=
  fieldIndexOf (Headers data) fieldName 0.

Section Filter.
Variable regexp_MatchString : string -> string -> result bool.

(** The inner loop of [filterData] for one row: [include]. *)
Fixpoint includeRow (data : TSVData) (row : list string)
    (matches : list (gmap string Value)) : bool :=
  match matches with
  | [] => true
  | match_ :: rest =>
      match match_ !! "field", match_ !! "content" with
      | Some (VString fieldName), Some (VString content) =>
          let fieldIndex := findFieldIndex data fieldName in
          if (fieldIndex =? -1)%Z || (Z.of_nat (length row) <=? fieldIndex)%Z
          then false
          else
            match index row fieldIndex with
            | Some cell =>
                match regexp_MatchString content cell with
                | Ok true => includeRow data row rest
                | _ => false
                end
            | None => false
            end
      | _, _ => includeRow data row rest
      end
  end.

Definition filterData (data : TSVData) (matches : list (gmap string Value))
    : TSVData :=
  if (Z.of_nat (length matches) =? 0)%Z then data
  else {| Headers := Headers data;
          Rows := List.filter (fun row => includeRow data row matches)
                    (Rows data) |}.

End Filter.

End Chart.

(** * Notions of the statements

    The definitions of this part are not part of the program: they say what
    the statements are about (the separators of a vector, the error of a
    tag token, the cell of a row, the order of strings), or name an
    intermediate state of a call. *)


(** A text of ASCII bytes, all below 128. On such a text the functions
    [strings.ToLower] and [strings.TrimSpace] of the library, a [range]
    loop over the text and [filepath.Match] are what [Strings.ToLower],
    [Strings.TrimSpace], a loop over the bytes and [Filepath.Match] are
    here; the statements that depend on it have it as a hypothesis. *)
Fixpoint isASCII (s : string) : bool :=
  match s with
  | EmptyString => true
  | String c s' => (nat_of_ascii c <? 128)%nat && isASCII s'
  end.

(** ** Notions of the suffix patterns *)

(** A byte that stands for itself in a pattern, inside a character class
    and outside: none of the marks of a glob or of a brace list. *)
Definition plainByte (c : ascii) : bool :=
  negb (existsb (Ascii.eqb c)
          ["*"; "?"; "["; "]"; "\"; "{"; "}"; "-"; "^"]%char).

Fixpoint plainText (s : string) : bool :=
  match s with
  | EmptyString => true
  | String c s' => plainByte c && plainText s'
  end.

(** [matchChunk] with the fuel it gives itself, in any state. *)
Definition chunkRun (chunk s : string) (failed : bool)
    : option (option string) :=
  Filepath.matchChunk_loop (S (String.length chunk)) chunk s failed.




(** ** Notions of the parsers, the caches and completion *)









(** The number of following tokens a switch token takes, by the kind of
    the switch it names: none for a boolean flag, one for a text, field,
    file or numeric switch, one per argument specification for a
    multi-argument switch. *)
Definition switchArity (cmd : GSCommand) (token : string) : nat :=
  match lookupFlag (fields cmd) ("-" +:+ Strings.from 1 token) with
  | Some fm =>
      match fm_Type fm with
      | FieldTypeFlag => 0
      | FieldTypeMulti => length (fm_Args fm)
      | _ => 1
      end
  | None => 0
  end.

(** The separators of an argument vector read from left to right, each as
    the negation mark of the clause it begins: a token that a switch takes
    as a value is not a separator. [skip] counts the values still to be
    passed over. *)
Fixpoint clauseStarts (cmd : GSCommand) (skip : nat)
    (args : list string) : list bool :=
  match args with
  | [] => []
  | token :: rest =>
      match skip with
      | S k => clauseStarts cmd k rest
      | O =>
          if String.eqb token "+" then true :: clauseStarts cmd 0 rest
          else if String.eqb token "-" then false :: clauseStarts cmd 0 rest
          else if Strings.HasPrefix token "+" || Strings.HasPrefix token "-"
          then clauseStarts cmd (switchArity cmd token) rest
          else clauseStarts cmd 0 rest
      end
  end.

(** The value a negated switch stores for the value [v] of its positive
    form. *)
Definition markNegated (fm : FieldMeta) (v : Value) : Value :=
  match fm_Type fm with
  | FieldTypeFlag => v
  | FieldTypeMulti =>
      match v with
      | VMap m => VMap (<["_negated" := VBool true]> m)
      | _ => v
      end
  | _ => VMap (<["_negated" := VBool true]> (<["value" := v]> ∅))
  end.

(** The value of the positive form of a switch on the tokens that follow
    it, with the number of tokens used, the switch included. *)
Definition switchValue `{GoLib} (fm : FieldMeta) (flagName : string)
    (values : list string) : result (Z * Value) :=
  match fm_Type fm with
  | FieldTypeFlag => Ok (1%Z, VBool true)
  | FieldTypeMulti =>
      if (length (fm_Args fm) =? 0)%nat then
        Err ("multi-argument flag " +:+ flagName
             +:+ " has no argument specification")
      else if (length values <? length (fm_Args fm))%nat then
        Err ("flag " +:+ flagName +:+ " requires "
             +:+ pretty (length (fm_Args fm)) +:+ " arguments")
      else
        match parseMultiArgs flagName (fm_Args fm) values ∅ with
        | Err e => Err e
        | Ok m => Ok ((Z.of_nat (length (fm_Args fm)) + 1)%Z, VMap m)
        end
  | _ =>
      match values with
      | [] => Err ("flag " +:+ flagName +:+ " requires a value")
      | value :: _ =>
          match parseValueWithValidation value fm with
          | Err e => Err ("parsing value for " +:+ flagName +:+ ": " +:+ e)
          | Ok v => Ok (2%Z, v)
          end
      end
  end.

(** Where and how a switch records a value: in the global values or in the
    clause by its scope, appended or overwritten by its multiplicity (a
    boolean flag always overwrites). *)
Definition recordValue (fm : FieldMeta) (st : ParseState) (v : Value)
    : ParseState :=
  let update (target : gmap string Value) :=
    match fm_Type fm with
    | FieldTypeFlag => <[fm_Name fm := v]> target
    | _ => storeValue fm target v
    end in
  match fm_Scope fm with
  | ScopeGlobal =>
      {| ps_clauses := ps_clauses st; ps_current := ps_current st;
         ps_global := update (ps_global st) |}
  | ScopeLocal =>
      {| ps_clauses := ps_clauses st;
         ps_current := {| Fields := update (Fields (ps_current st));
                          IsNegated := IsNegated (ps_current st) |};
         ps_global := ps_global st |}
  end.

Definition liftFlag (st : ParseState)
    (r : result (Z * ClauseSet * gmap string Value)) : result (Z * ParseState) :=
  match r with
  | Err e => Err e
  | Ok (consumed, c, g) =>
      Ok (consumed, {| ps_clauses := ps_clauses st; ps_current := c;
                       ps_global := g |})
  end.

Definition initialState : ParseState :=
  {| ps_clauses := []; ps_current := newClause false; ps_global := ∅ |}.

(** The token of a separator, by the mark of the clause it begins. *)
Definition separator (negated : bool) : string :=
  if negated then "+" else "-".




Definition logOpen (filename : string) (s : Sys) : Sys :=
  {| sys_cmd := sys_cmd s; sys_opened := sys_opened s ++ [filename] |}.

Definition withFieldCache (filename : string) (flds : list string) (s : Sys)
    : Sys :=
  {| sys_cmd := {| fields := fields (sys_cmd s);
                   fieldCache := <[filename := flds]> (fieldCache (sys_cmd s));
                   contentCache := contentCache (sys_cmd s);
                   scanDepth := scanDepth (sys_cmd s) |};
     sys_opened := sys_opened s |}.














(** ** Notions of the further properties *)

(** The pieces of [s] between the occurrences of the byte [c]. *)
Fixpoint splitByte (c : ascii) (s : string) : list string :=
  match s with
  | EmptyString => [EmptyString]
  | String x s' =>
      if Ascii.eqb x c then EmptyString :: splitByte c s'
      else match splitByte c s' with
           | h :: t => String x h :: t
           | [] => [String x EmptyString]
           end
  end.

(** The parts of a tag written back, each followed by a comma. *)
Fixpoint commaTerminated (parts : list string) : string :=
  match parts with
  | [] => EmptyString
  | p :: rest => p +:+ "," +:+ commaTerminated rest
  end.

(** A name that starts with a letter from A to Z, as the exported fields of
    a Go struct do. *)
Definition exported (name : string) : bool :=
  match name with
  | String c _ => Strings.isUpper c
  | EmptyString => false
  end.

(** The descriptor of a text switch declared with an enum key that
    nothing follows. *)
Definition emptyEnumField : FieldMeta :=
  fst (parseFieldTag (lib := runLib) "Type" "string,global,last,enum=").

(** A token that is neither a separator nor a switch. *)
Definition bareToken (arg : string) : bool :=
  negb (Strings.HasPrefix arg "+") && negb (Strings.HasPrefix arg "-").

(** The test of [Parse] and of the chart command for a table file. *)
Definition tableName (arg : string) : bool :=
  Strings.HasSuffix (Strings.ToLower arg) ".tsv"
  || Strings.HasSuffix (Strings.ToLower arg) ".csv".

(** The state of [Parse] after the bare token [arg]. *)
Definition recordBare (st : ParseState) (arg : string) : ParseState :=
  let current := ps_current st in
  let fields1 :=
    <["_args" := VStrings (getStringSlice (Fields current !! "_args") ++ [arg])]>
      (Fields current) in
  let fields2 :=
    if tableName arg then
      match fields1 !! "Argv" with
      | Some _ => fields1
      | None =>
          match ps_global st !! "Argv" with
          | Some _ => fields1
          | None => <["Argv" := VString arg]> fields1
          end
      end
    else fields1 in
  {| ps_clauses := ps_clauses st;
     ps_current := {| Fields := fields2; IsNegated := IsNegated current |};
     ps_global := ps_global st |}.

(** The number of tokens a switch takes after its name. *)
Definition arity (fm : FieldMeta) : nat :=
  match fm_Type fm with
  | FieldTypeFlag => 0
  | FieldTypeMulti => length (fm_Args fm)
  | _ => 1
  end.

(** The step of [applyDefaults] for one field. *)
Definition defaultStep (m : gmap string Value) (fieldMeta : FieldMeta)
    : gmap string Value :=
  match m !! fm_Name fieldMeta with
  | Some _ => m
  | None =>
      match fm_DefaultValue fieldMeta with
      | Some d => <[fm_Name fieldMeta := d]> m
      | None => m
      end
  end.

(** The message of the run-time panic of a slice index. *)
Definition indexPanic : string := "runtime error: index out of range".

(** The map in which a switch records its values: the global values or
    the fields of the current clause, by its scope. *)
Definition targetOf (fm : FieldMeta) (st : ParseState) : gmap string Value :=
  match fm_Scope fm with
  | ScopeGlobal => ps_global st
  | ScopeLocal => Fields (ps_current st)
  end.

(** The [+] spelling of a flag name. *)
Definition plusSpelling (flag : string) : string := "+" +:+ Strings.from 1 flag.

(** The descriptor of the [Type] field of the chart command. *)
Definition typeField : FieldMeta :=
  fst (parseFieldTag (lib := runLib) "Type"
         "string,global,last,help=Chart type: bar/line/area,default=bar,enum=bar:line:area").

(** The test of [findTSVFile] on the token before a table: the token is
    a switch other than [-argv] and those whose name ends in [-file]. *)
Definition hidesTable (prev : string) : bool :=
  Strings.HasPrefix prev "-" && negb (String.eqb prev "-")
  && negb (String.eqb prev "-argv") && negb (Strings.HasSuffix prev "-file").

(** A text that starts with a letter or a digit. *)
Definition startsAlnum (s : string) : bool :=
  match s with
  | String c _ => isAlnum c
  | EmptyString => false
  end.

(** The descriptor of the [X] field of the chart command. *)
Definition xField : FieldMeta :=
  fst (parseFieldTag (lib := runLib) "X" "field,global,last,help=Use field for X axis").

(** The descriptor of the [Argv] field of the chart command. *)
Definition argvField : FieldMeta :=
  fst (parseFieldTag (lib := runLib) "Argv"
         "file,global,last,help=Input TSV file,suffix=.[tc]sv").

(** An entry whose name file completion shows for the name pattern
    [pattern]: it starts with the pattern, letter case apart, and is not
    hidden, unless the pattern starts with a dot. *)
Definition nameShown (pattern : string) (entry : DirEntry) : bool :=
  negb (Strings.HasPrefix (entry_Name entry) "."
        && negb (Strings.HasPrefix pattern "."))
  && Strings.HasPrefix (Strings.ToLower (entry_Name entry))
       (Strings.ToLower pattern).

(** The suffix filter of a field lets the name pass. *)
Definition suffixAllows (fieldMeta : option FieldMeta) (entry : DirEntry) : bool :=
  match fieldMeta with
  | Some fm =>
      String.eqb (fm_Suffix fm) EmptyString
      || matchesSuffixPattern (entry_Name entry) (fm_Suffix fm)
  | None => true
  end.

Definition namedTsv (entry : DirEntry) : bool :=
  Strings.HasSuffix (Strings.ToLower (entry_Name entry)) ".tsv".

Definition offeredTsv (pattern : string) (fieldMeta : option FieldMeta)
    (entry : DirEntry) : bool :=
  nameShown pattern entry && negb (entry_IsDir entry)
  && suffixAllows fieldMeta entry && namedTsv entry.

Definition offeredOther (pattern : string) (fieldMeta : option FieldMeta)
    (entry : DirEntry) : bool :=
  nameShown pattern entry && negb (entry_IsDir entry)
  && suffixAllows fieldMeta entry && negb (namedTsv entry).

Definition offeredDir (pattern : string) (entry : DirEntry) : bool :=
  nameShown pattern entry && entry_IsDir entry.

(** The path that file completion writes for an entry of [dir]. *)
Definition entryPath `{GoLib} (dir : string) (entry : DirEntry) : string :=
  if String.eqb dir "." then entry_Name entry
  else filepath_Join dir (entry_Name entry).

(** Every byte of [s] passes the test [f]. *)
Fixpoint allBytes (f : ascii -> bool) (s : string) : bool :=
  match s with
  | EmptyString => true
  | String c s' => f c && allBytes f s'
  end.

(** [name] stands at index [i] of [l] and at no index before. *)
Definition firstIndex (l : list string) (name : string) (i : nat) : Prop :=
  l !! i = Some name /\ forall j, (j < i)%nat -> l !! j <> Some name.

(** What a row has to satisfy for the condition [m], with the matcher
    [regexp_MatchString]. *)
Definition conditionHolds (regexp_MatchString : string -> string -> result bool)
    (data : Chart.TSVData) (row : list string) (m : gmap string Value)
    : Prop :=
  forall fieldName content,
    m !! "field" = Some (VString fieldName) ->
    m !! "content" = Some (VString content) ->
    exists i cell,
      firstIndex (Chart.Headers data) fieldName i
      /\ row !! i = Some cell
      /\ regexp_MatchString content cell = Ok true.

(** A cell as [parseTSV] gives it back: no blanks around it and no
    separator byte in it. *)
Definition cleanCell (c : ascii) (f : string) : Prop :=
  Strings.TrimSpace f = f /\ Strings.Contains f (String c EmptyString) = false.

(** The lines [parseTSV] reads for [filename]. *)
Definition inputLines (filename : string) (stdin : list string) (w : World)
    (lines : list string) : Prop :=
  if String.eqb filename EmptyString || String.eqb filename "-"
  then stdin = lines
  else os_Open w filename = Ok lines.

(** The zero value of the configuration struct. *)
Definition zeroConfig : Chart.Config :=
  {| Chart.cfg_X := EmptyString; Chart.cfg_Y := []; Chart.cfg_Match := [];
     Chart.cfg_Right := false; Chart.cfg_Title := EmptyString;
     Chart.cfg_Type := EmptyString; Chart.cfg_Width := S754_zero false;
     Chart.cfg_Height := S754_zero false; Chart.cfg_Quiet := false;
     Chart.cfg_Argv := EmptyString |}.

(** A matcher for patterns without metacharacters: the pattern occurs in
    the text. *)
Definition literalMatch (pattern s : string) : result bool :=
  Ok (Strings.Contains s pattern).

(** The table of [data.tsv]. *)
Definition loadTable : Chart.TSVData :=
  {| Chart.Headers := ["host"; "cpu"; "-delta"];
     Chart.Rows := [["web2"; "10"; "-5"]; ["Web1"; "20"; "-3"];
                    ["db1"; "30"; "7"]; ["web2"; "40"; "-5"]] |}.

(** The condition of [-match fieldName content]. *)
Definition condition (fieldName content : string) : gmap string Value :=
  <["content" := VString content]> (<["field" := VString fieldName]> ∅).

(** * Properties *)

(** ** Byte strings *)

Lemma append_cons (c : ascii) (s t : string) :
  String c s +:+ t = String c (s +:+ t).
Proof. reflexivity. Qed.

Lemma append_nil_l (t : string) : EmptyString +:+ t = t.
Proof. reflexivity. Qed.

Lemma append_nil_r (s : string) : s +:+ EmptyString = s.
Proof.
  induction s as [|c s IH]; [reflexivity | now rewrite append_cons, IH].
Qed.

Lemma append_assoc (a b c : string) : (a +:+ b) +:+ c = a +:+ (b +:+ c).
Proof.
  induction a as [|x a IH]; [reflexivity | now rewrite !append_cons, IH].
Qed.

Lemma length_append (a b : string) :
  String.length (a +:+ b) = (String.length a + String.length b)%nat.
Proof.
  induction a as [|x a IH]; [reflexivity |].
  rewrite append_cons. cbn [String.length]. now rewrite IH.
Qed.

Lemma from_append (a b : string) : Strings.from (String.length a) (a +:+ b) = b.
Proof.
  induction a as [|x a IH]; [now destruct b |].
  rewrite append_cons. exact IH.
Qed.

Lemma upto_append (a b : string) : Strings.upto (String.length a) (a +:+ b) = a.
Proof.
  induction a as [|x a IH]; [now destruct b |].
  rewrite append_cons. cbn [String.length Strings.upto]. now rewrite IH.
Qed.

Lemma upto_from (n : nat) (s : string) :
  Strings.upto n s +:+ Strings.from n s = s.
Proof.
  revert s; induction n as [|n IH]; intros [|c s]; try reflexivity.
  cbn [Strings.upto Strings.from]. now rewrite append_cons, IH.
Qed.

Lemma HasPrefix_spec (s p : string) :
  Strings.HasPrefix s p = true <-> exists t, s = p +:+ t.
Proof.
  revert s; induction p as [|c p IH]; intros s.
  - split; [intros _; now exists s | now destruct s].
  - destruct s as [|d s]; cbn [Strings.HasPrefix].
    + split; [discriminate | intros [t Ht]; discriminate].
    + rewrite andb_true_iff, Ascii.eqb_eq, IH. split.
      * intros [-> [t ->]]. now exists t.
      * intros [t Ht]. rewrite append_cons in Ht. injection Ht as -> ->.
        split; [reflexivity | now exists t].
Qed.

Lemma HasSuffix_spec (s p : string) :
  Strings.HasSuffix s p = true <-> exists t, s = t +:+ p.
Proof.
  unfold Strings.HasSuffix. rewrite andb_true_iff, Nat.leb_le, String.eqb_eq.
  split.
  - intros [_ Hp]. exists (Strings.upto (String.length s - String.length p) s).
    transitivity (Strings.upto (String.length s - String.length p) s
                  +:+ Strings.from (String.length s - String.length p) s).
    + symmetry; apply upto_from.
    + now rewrite Hp.
  - intros [t ->]. rewrite length_append. split; [lia |].
    replace (String.length t + String.length p - String.length p)%nat
      with (String.length t) by lia.
    apply from_append.
Qed.

Lemma toLowerByte_idem (c : ascii) :
  Strings.toLowerByte (Strings.toLowerByte c) = Strings.toLowerByte c.
Proof.
  destruct c as [[] [] [] [] [] [] [] []]; reflexivity.
Qed.


(** [Index] of a one-byte needle. *)

Lemma Index_from_shift (i : Z) (s t : string) :
  Strings.Index_from i s t =
    if (Strings.Index_from 0 s t <? 0)%Z then (-1)%Z
    else (i + Strings.Index_from 0 s t)%Z.
Proof.
  revert i; induction s as [|c s IH]; intros i; cbn [Strings.Index_from].
  - destruct (Strings.HasPrefix EmptyString t); cbn; [f_equal; lia | reflexivity].
  - destruct (Strings.HasPrefix (String c s) t); cbn; [f_equal; lia |].
    rewrite (IH (i + 1)%Z), (IH (0 + 1)%Z).
    destruct (Z.ltb_spec (Strings.Index_from 0 s t) 0); [reflexivity |].
    destruct (Z.ltb_spec (0 + 1 + Strings.Index_from 0 s t) 0). all: lia.
Qed.

Lemma Contains_cons_byte (c d : ascii) (s : string) :
  Strings.Contains (String d s) (String c EmptyString)
  = Ascii.eqb d c || Strings.Contains s (String c EmptyString).
Proof.
  unfold Strings.Contains, Strings.Index.
  cbn [Strings.Index_from Strings.HasPrefix].
  destruct (Ascii.eqb d c); cbn [andb orb].
  { now destruct s. }
  rewrite Index_from_shift.
  destruct (Z.ltb_spec (Strings.Index_from 0 s (String c EmptyString)) 0).
  - symmetry. apply Z.leb_gt. assumption.
  - transitivity true; [apply Z.leb_le; lia | symmetry; apply Z.leb_le; lia].
Qed.

Lemma Index_byte_append (c : ascii) (pre rest : string) :
  Strings.Contains pre (String c EmptyString) = false ->
  Strings.Index (pre +:+ String c rest) (String c EmptyString)
  = Z.of_nat (String.length pre).
Proof.
  unfold Strings.Index. induction pre as [|d pre IH]; intros Hpre.
  - rewrite append_nil_l. cbn [Strings.Index_from Strings.HasPrefix].
    rewrite Ascii.eqb_refl. now destruct rest.
  - rewrite Contains_cons_byte in Hpre. apply orb_false_iff in Hpre as [Hd Hpre].
    rewrite append_cons. cbn [Strings.Index_from Strings.HasPrefix].
    rewrite Hd. cbn [andb].
    rewrite Index_from_shift, (IH Hpre).
    destruct (Z.ltb_spec (Z.of_nat (String.length pre)) 0); [lia |].
    cbn [String.length]. lia.
Qed.

Lemma Contains_append_byte (c : ascii) (a b : string) :
  Strings.Contains (a +:+ b) (String c EmptyString)
  = Strings.Contains a (String c EmptyString)
    || Strings.Contains b (String c EmptyString).
Proof.
  induction a as [|d a IH].
  - reflexivity.
  - rewrite append_cons, !Contains_cons_byte, IH. now rewrite orb_assoc.
Qed.

(** ** The fuel of [filepath.Match]

    Every loop of the matcher shortens the pattern it works on, so the fuel
    given by [Match] and [matchChunk] is never used up: with any larger
    fuel the result is the same. *)

Lemma getEsc_shorter (chunk : string) (r : ascii) (rest : string) :
  Filepath.getEsc chunk = Some (r, rest) ->
  (String.length rest < String.length chunk)%nat.
Proof.
  unfold Filepath.getEsc. destruct chunk as [|c chunk']; [discriminate |].
  destruct (Ascii.eqb c "-" || Ascii.eqb c "]"); [discriminate |].
  destruct (Ascii.eqb c "\").
  - destruct chunk' as [|r' n]; [discriminate |].
    destruct (String.eqb n EmptyString); [discriminate |].
    intros [= <- <-]. cbn [String.length]. lia.
  - destruct (String.eqb chunk' EmptyString); [discriminate |].
    intros [= <- <-]. cbn [String.length]. lia.
Qed.

Lemma matchChunk_ranges_fuel (f1 : nat) :
  forall f2 chunk r matched nrange,
    (String.length chunk < f1)%nat -> (String.length chunk < f2)%nat ->
    Filepath.matchChunk_ranges f1 chunk r matched nrange
    = Filepath.matchChunk_ranges f2 chunk r matched nrange.
Proof.
  induction f1 as [|f1 IH]; intros f2 chunk r matched nrange H1 H2; [lia |].
  destruct f2 as [|f2]; [lia |].
  cbn [Filepath.matchChunk_ranges].
  destruct chunk as [|c rest]; [reflexivity |].
  destruct (Ascii.eqb c "]" && (0 <? nrange)%nat); [reflexivity |].
  destruct (Filepath.getEsc (String c rest)) as [[lo chunk1]|] eqn:He;
    [| reflexivity].
  apply getEsc_shorter in He.
  destruct chunk1 as [|d rest1]; [reflexivity |].
  destruct (Ascii.eqb d "-").
  - destruct (Filepath.getEsc rest1) as [[hi chunk2]|] eqn:He2; [| reflexivity].
    apply getEsc_shorter in He2. cbn [String.length] in *.
    apply IH; lia.
  - cbn [String.length] in *. apply IH; cbn [String.length]; lia.
Qed.

Lemma matchChunk_ranges_shorter (f : nat) :
  forall chunk r matched nrange res rest,
    Filepath.matchChunk_ranges f chunk r matched nrange = Some (res, rest) ->
    (String.length rest < String.length chunk)%nat.
Proof.
  induction f as [|f IH]; intros chunk r matched nrange res rest; [discriminate |].
  cbn [Filepath.matchChunk_ranges].
  destruct chunk as [|c rest0]; [discriminate |].
  destruct (Ascii.eqb c "]" && (0 <? nrange)%nat).
  { intros [= <- <-]. cbn [String.length]. lia. }
  destruct (Filepath.getEsc (String c rest0)) as [[lo chunk1]|] eqn:He;
    [| discriminate].
  apply getEsc_shorter in He.
  destruct chunk1 as [|d rest1]; [discriminate |].
  destruct (Ascii.eqb d "-").
  - destruct (Filepath.getEsc rest1) as [[hi chunk2]|] eqn:He2; [| discriminate].
    apply getEsc_shorter in He2. intros Hr. apply IH in Hr.
    cbn [String.length] in *. lia.
  - intros Hr. apply IH in Hr. cbn [String.length] in *. lia.
Qed.

Lemma matchChunk_loop_fuel (f1 : nat) :
  forall f2 chunk s failed,
    (String.length chunk < f1)%nat -> (String.length chunk < f2)%nat ->
    Filepath.matchChunk_loop f1 chunk s failed
    = Filepath.matchChunk_loop f2 chunk s failed.
Proof.
  induction f1 as [|f1 IH]; intros f2 chunk s failed H1 H2; [lia |].
  destruct f2 as [|f2]; [lia |].
  cbn [Filepath.matchChunk_loop].
  destruct chunk as [|c chunk']; [reflexivity |].
  cbn [String.length] in H1, H2.
  assert (Hlit : forall chunk0,
             (String.length chunk0 <= S (String.length chunk'))%nat ->
             match chunk0 with
             | EmptyString => None
             | String p rest =>
                 match s with
                 | String x s' =>
                     if failed || String.eqb s EmptyString
                     then Filepath.matchChunk_loop f1 rest s
                            (failed || String.eqb s EmptyString)
                     else Filepath.matchChunk_loop f1 rest s'
                            (negb (Ascii.eqb p x))
                 | EmptyString =>
                     Filepath.matchChunk_loop f1 rest s
                       (failed || String.eqb s EmptyString)
                 end
             end
             = match chunk0 with
               | EmptyString => None
               | String p rest =>
                   match s with
                   | String x s' =>
                       if failed || String.eqb s EmptyString
                       then Filepath.matchChunk_loop f2 rest s
                              (failed || String.eqb s EmptyString)
                       else Filepath.matchChunk_loop f2 rest s'
                              (negb (Ascii.eqb p x))
                   | EmptyString =>
                       Filepath.matchChunk_loop f2 rest s
                         (failed || String.eqb s EmptyString)
                   end
               end).
  { intros [|p rest] Hlen; [reflexivity |]. cbn [String.length] in Hlen.
    destruct s as [|x s'].
    - apply IH; lia.
    - destruct (failed || String.eqb (String x s') EmptyString);
        apply IH; lia. }
  destruct (Ascii.eqb c "[").
  - destruct (match s with
              | String x s' =>
                  if failed || String.eqb s EmptyString
                  then (zero, s) else (x, s')
              | EmptyString => (zero, s)
              end) as [r s1].
    destruct (match chunk' with
              | String n rest =>
                  if Ascii.eqb n "^" then (true, rest) else (false, chunk')
              | EmptyString => (false, chunk')
              end) as [negated chunk1] eqn:Hneg.
    assert (Hc1 : (String.length chunk1 <= String.length chunk')%nat).
    { destruct chunk' as [|n rest]; [injection Hneg as _ <-; lia |].
      destruct (Ascii.eqb n "^"); injection Hneg as _ <-;
        cbn [String.length]; lia. }
    rewrite (matchChunk_ranges_fuel f1 f2) by lia.
    destruct (Filepath.matchChunk_ranges f2 chunk1 r false 0)
      as [[matched chunk2]|] eqn:Hr; [| reflexivity].
    apply matchChunk_ranges_shorter in Hr. apply IH; lia.
  - destruct (Ascii.eqb c "?").
    + destruct s as [|x s'].
      * apply IH; lia.
      * destruct (failed || String.eqb (String x s') EmptyString);
          apply IH; lia.
    + destruct (Ascii.eqb c "\").
      * destruct chunk' as [|p rest]; [reflexivity |].
        apply (Hlit (String p rest)). lia.
      * apply (Hlit (String c chunk')). cbn [String.length]. lia.
Qed.

Lemma dropStars_shorter (pattern : string) :
  forall star star' rest,
    Filepath.dropStars pattern star = (star', rest) ->
    (String.length rest <= String.length pattern)%nat
    /\ (forall c p, pattern = String c p -> Ascii.eqb c "*" = true ->
                    (String.length rest < String.length pattern)%nat)
    /\ (forall c p, rest = String c p -> Ascii.eqb c "*" = false).
Proof.
  induction pattern as [|c p IH]; intros star star' rest;
    cbn [Filepath.dropStars].
  - intros [= <- <-]. repeat split; [lia | discriminate | discriminate].
  - destruct (Ascii.eqb c "*") eqn:Hc.
    + intros Hd. destruct (IH _ _ _ Hd) as (Hle & _ & Hhead).
      cbn [String.length]. repeat split; [lia | intros; lia | exact Hhead].
    + intros [= <- <-]. repeat split; [lia | |].
      * intros c' p' [= <- <-] Hstar. congruence.
      * intros c' p' [= <- <-]. exact Hc.
Qed.

Lemma scanChunk_scan_length_upto (n : nat) :
  forall pattern inrange chunk rest,
    (String.length pattern <= n)%nat ->
    Filepath.scanChunk_scan pattern inrange = (chunk, rest) ->
    (String.length chunk + String.length rest = String.length pattern)%nat
    /\ (forall c p, pattern = String c p -> Ascii.eqb c "*" = false ->
                    chunk <> EmptyString).
Proof.
  induction n as [|n IH]; intros pattern inrange chunk rest Hn.
  - destruct pattern; [| cbn in Hn; lia].
    cbn. intros [= <- <-]. split; [reflexivity | discriminate].
  - destruct pattern as [|c p].
    { cbn. intros [= <- <-]. split; [reflexivity | discriminate]. }
    cbn [String.length] in Hn. cbn [Filepath.scanChunk_scan].
    assert (Hstep : forall q b chunk' rest',
               (String.length q <= String.length p)%nat ->
               Filepath.scanChunk_scan q b = (chunk', rest') ->
               (String.length chunk' + String.length rest'
                = String.length q)%nat).
    { intros q b chunk' rest' Hq Hs.
      refine (proj1 (IH q b chunk' rest' _ Hs)). lia. }
    destruct (Ascii.eqb c "\") eqn:Hbs.
    { destruct p as [|d p'].
      - intros [= <- <-]. split; [reflexivity | discriminate].
      - destruct (Filepath.scanChunk_scan p' inrange) as [ch rs] eqn:Hs.
        intros [= <- <-]. apply Hstep in Hs; [| cbn [String.length]; lia].
        split; [cbn [String.length]; lia | discriminate]. }
    destruct (Ascii.eqb c "[").
    { destruct (Filepath.scanChunk_scan p true) as [ch rs] eqn:Hs.
      intros [= <- <-]. apply Hstep in Hs; [| lia].
      split; [cbn [String.length]; lia | discriminate]. }
    destruct (Ascii.eqb c "]").
    { destruct (Filepath.scanChunk_scan p false) as [ch rs] eqn:Hs.
      intros [= <- <-]. apply Hstep in Hs; [| lia].
      split; [cbn [String.length]; lia | discriminate]. }
    destruct (Ascii.eqb c "*" && negb inrange) eqn:Hstar.
    { intros [= <- <-]. split; [reflexivity |].
      intros c' p' [= <- <-] Hc. apply andb_true_iff in Hstar as [Hs _].
      congruence. }
    destruct (Filepath.scanChunk_scan p inrange) as [ch rs] eqn:Hs.
    intros [= <- <-]. apply Hstep in Hs; [| lia].
    split; [cbn [String.length]; lia | discriminate].
Qed.

Lemma scanChunk_scan_length (pattern : string) (inrange : bool)
    (chunk rest : string) :
  Filepath.scanChunk_scan pattern inrange = (chunk, rest) ->
  (String.length chunk + String.length rest = String.length pattern)%nat
  /\ (forall c p, pattern = String c p -> Ascii.eqb c "*" = false ->
                  chunk <> EmptyString).
Proof. now apply (scanChunk_scan_length_upto (String.length pattern)). Qed.

Lemma scanChunk_shorter (pattern : string) (star : bool) (chunk rest : string) :
  pattern <> EmptyString ->
  Filepath.scanChunk pattern = (star, chunk, rest) ->
  (String.length rest < String.length pattern)%nat
  /\ (String.length chunk <= String.length pattern)%nat.
Proof.
  intros Hne. unfold Filepath.scanChunk.
  destruct (Filepath.dropStars pattern false) as [star' p'] eqn:Hd.
  destruct (Filepath.scanChunk_scan p' false) as [ch rs] eqn:Hs.
  intros [= <- <- <-].
  destruct (dropStars_shorter _ _ _ _ Hd) as (Hle & Hstar & Hhead).
  destruct (scanChunk_scan_length _ _ _ _ Hs) as (Hlen & Hchunk).
  destruct pattern as [|c p]; [contradiction |].
  split; [| lia].
  destruct (Ascii.eqb c "*") eqn:Hc.
  - specialize (Hstar c p eq_refl Hc). lia.
  - destruct p' as [|c' q].
    + cbn in Hs. injection Hs as <- <-. cbn [String.length]. lia.
    + specialize (Hchunk c' q eq_refl (Hhead c' q eq_refl)).
      destruct ch; [contradiction |]. cbn [String.length] in *. lia.
Qed.

Lemma checkRest_fuel (f1 : nat) :
  forall f2 pattern,
    (String.length pattern <= f1)%nat -> (String.length pattern <= f2)%nat ->
    Filepath.checkRest f1 pattern = Filepath.checkRest f2 pattern.
Proof.
  induction f1 as [|f1 IH]; intros f2 pattern H1 H2.
  - destruct pattern; [| cbn in H1; lia]. now destruct f2.
  - destruct f2 as [|f2].
    { destruct pattern; [reflexivity | cbn in H2; lia]. }
    cbn [Filepath.checkRest].
    destruct (String.eqb_spec pattern EmptyString) as [->|Hne]; [reflexivity |].
    destruct (Filepath.scanChunk pattern) as [[star chunk] rest] eqn:Hs.
    destruct (scanChunk_shorter _ _ _ _ Hne Hs) as [Hr _].
    destruct (Filepath.matchChunk chunk EmptyString); [| reflexivity].
    apply IH; lia.
Qed.

Lemma Match_loop_fuel (f1 : nat) :
  forall f2 pattern name,
    (String.length pattern < f1)%nat -> (String.length pattern < f2)%nat ->
    Filepath.Match_loop f1 pattern name = Filepath.Match_loop f2 pattern name.
Proof.
  induction f1 as [|f1 IH]; intros f2 pattern name H1 H2; [lia |].
  destruct f2 as [|f2]; [lia |].
  cbn [Filepath.Match_loop].
  destruct (String.eqb_spec pattern EmptyString) as [->|Hne]; [reflexivity |].
  destruct (Filepath.scanChunk pattern) as [[star chunk] rest] eqn:Hs.
  destruct (scanChunk_shorter _ _ _ _ Hne Hs) as [Hr _].
  destruct (star && String.eqb chunk EmptyString); [reflexivity |].
  destruct (Filepath.matchChunk chunk name) as [r|]; [| reflexivity].
  assert (Hretry :
            (if star
             then match Filepath.Match_skip chunk rest name with
                  | None => None
                  | Some (Some t) => Filepath.Match_loop f1 rest t
                  | Some None => Filepath.checkRest (String.length rest) rest
                  end
             else Filepath.checkRest (String.length rest) rest)
            = (if star
               then match Filepath.Match_skip chunk rest name with
                    | None => None
                    | Some (Some t) => Filepath.Match_loop f2 rest t
                    | Some None => Filepath.checkRest (String.length rest) rest
                    end
               else Filepath.checkRest (String.length rest) rest)).
  { destruct star; [| reflexivity].
    destruct (Filepath.Match_skip chunk rest name) as [[t|]|]; try reflexivity.
    apply IH; lia. }
  destruct r as [t|]; [| exact Hretry].
  destruct (String.eqb t EmptyString || negb (String.eqb rest EmptyString));
    [apply IH; lia | exact Hretry].
Qed.

(** [Match] and [matchChunk] do not depend on the fuel they start with. *)
Lemma Match_fuel (fuel : nat) (pattern name : string) :
  (String.length pattern < fuel)%nat ->
  Filepath.Match_loop fuel pattern name = Filepath.Match pattern name.
Proof. intros Hf. apply Match_loop_fuel; [exact Hf | lia]. Qed.

Lemma matchChunk_fuel (fuel : nat) (chunk s : string) :
  (String.length chunk < fuel)%nat ->
  Filepath.matchChunk_loop fuel chunk s false = Filepath.matchChunk chunk s.
Proof. intros Hf. apply matchChunk_loop_fuel; [exact Hf | lia]. Qed.

(** ** The suffix pattern matcher *)






(** *** The chunk of a pattern without star and escape *)



(** *** [matchChunk] on literal bytes and on a class of plain bytes *)

Lemma matchChunk_loop_nil (fuel : nat) (s : string) (failed : bool) :
  Filepath.matchChunk_loop (S fuel) EmptyString s failed
  = if failed then Some None else Some (Some s).
Proof. reflexivity. Qed.






Lemma chunkRun_nil (s : string) (failed : bool) :
  chunkRun EmptyString s failed = if failed then Some None else Some (Some s).
Proof. reflexivity. Qed.







(** *** The star in front *)




Lemma plainText_append (a b : string) :
  plainText (a +:+ b) = plainText a && plainText b.
Proof.
  induction a as [|c a IH]; [reflexivity |].
  rewrite append_cons. cbn [plainText]. now rewrite IH, andb_assoc.
Qed.





(** *** A class that is not closed *)







(** ** The descriptor parser *)

Section ParserProperties.
Context {lib : GoLib}.




















End ParserProperties.



(** ** The clause parser *)

Section ParseProperties.
Context {lib : GoLib}.

Lemma parseFlagName_shape (name : string) :
  name <> EmptyString ->
  exists c rest, parseFlagName name = String "-" (String c rest).
Proof.
  intros Hne. destruct name as [|c [|d name]]; [contradiction | |].
  - exists (Strings.toLowerByte c), EmptyString. reflexivity.
  - unfold parseFlagName.
    replace (Strings.len (String c (String d name)) =? 1)%Z with false.
    2:{ symmetry. apply Z.eqb_neq. unfold Strings.len. cbn [String.length]. lia. }
    exists (Strings.toLowerByte c), (parseFlagName_loop 1 (String d name)).
    reflexivity.
Qed.

Lemma lookupFlag_Some (flds : list FieldMeta) (flag : string) (fm : FieldMeta) :
  lookupFlag flds flag = Some fm ->
  flag = parseFlagName (fm_Name fm) /\ In fm flds.
Proof.
  induction flds as [|f flds IH]; [discriminate |].
  cbn [lookupFlag].
  destruct (String.eqb_spec flag (parseFlagName (fm_Name f))) as [->|_].
  - intros [= <-]. split; [reflexivity | now left].
  - intros Hl. destruct (IH Hl) as [-> Hin]. split; [reflexivity | now right].
Qed.

(** The two spellings of a switch reach [parseFlagWithNegation] with the
    same arguments and opposite marks. *)
Lemma Parse_step_switch (cmd : GSCommand) (c : ascii) (name : string)
    (rest : list string) (st : ParseState) :
  Parse_step cmd (String "-" (String c name)) rest st
  = liftFlag st (parseFlagWithNegation cmd (String "-" (String c name) :: rest)
                   (ps_current st) (ps_global st) false)
  /\ Parse_step cmd (String "+" (String c name)) rest st
     = liftFlag st (parseFlagWithNegation cmd (String "-" (String c name) :: rest)
                      (ps_current st) (ps_global st) true).
Proof.
  assert (Hlen : (1 <? Strings.len (String "-" (String c name)))%Z = true
                 /\ (1 <? Strings.len (String "+" (String c name)))%Z = true).
  { split; apply Z.ltb_lt; unfold Strings.len; cbn [String.length]; lia. }
  destruct Hlen as [Hm Hp].
  split; unfold Parse_step.
  - rewrite Hm.
    replace (String.eqb (String "-" (String c name)) "+") with false by reflexivity.
    replace (String.eqb (String "-" (String c name)) "-") with false
      by (cbn; now destruct c as [[] [] [] [] [] [] [] []]).
    reflexivity.
  - rewrite Hp.
    replace (String.eqb (String "+" (String c name)) "+") with false
      by (cbn; now destruct c as [[] [] [] [] [] [] [] []]).
    replace (String.eqb (String "+" (String c name)) "-") with false by reflexivity.
    reflexivity.
Qed.

Lemma parseFlagWithNegation_switch (cmd : GSCommand) (flag : string)
    (fm : FieldMeta) (values : list string) (st : ParseState) (negated : bool) :
  lookupFlag (fields cmd) flag = Some fm ->
  liftFlag st (parseFlagWithNegation cmd (flag :: values) (ps_current st)
                 (ps_global st) negated)
  = match switchValue fm flag values with
    | Err e => Err e
    | Ok (consumed, v) =>
        Ok (consumed,
            recordValue fm st (if negated then markNegated fm v else v))
    end.
Proof.
  intros Hl. unfold parseFlagWithNegation, switchValue, recordValue, markNegated.
  rewrite Hl.
  destruct (fm_Type fm) eqn:Ht;
    try (destruct values as [|value values]; [reflexivity |];
         destruct (parseValueWithValidation value fm); [| reflexivity];
         destruct (fm_Scope fm), negated; reflexivity).
  - destruct (fm_Scope fm), negated; reflexivity.
  - destruct (Nat.eqb_spec (length (fm_Args fm)) 0) as [E|E].
    { rewrite E. reflexivity. }
    destruct (Z.eqb_spec (Z.of_nat (length (fm_Args fm))) 0); [lia |].
    cbn [length].
    destruct (Nat.ltb_spec (length values) (length (fm_Args fm))).
    { destruct (Z.ltb_spec (Z.of_nat (S (length values)))
                  (Z.of_nat (length (fm_Args fm)) + 1)); [reflexivity | lia]. }
    destruct (Z.ltb_spec (Z.of_nat (S (length values)))
                (Z.of_nat (length (fm_Args fm)) + 1)); [lia |].
    destruct (parseMultiArgs flag (fm_Args fm) values ∅); [| reflexivity].
    destruct (fm_Scope fm), negated; reflexivity.
Qed.

Lemma switchValue_consumed (fm : FieldMeta) (flag : string)
    (values : list string) (consumed : Z) (v : Value) :
  switchValue fm flag values = Ok (consumed, v) ->
  let arity := match fm_Type fm with
               | FieldTypeFlag => 0%nat
               | FieldTypeMulti => length (fm_Args fm)
               | _ => 1%nat
               end in
  consumed = (1 + Z.of_nat arity)%Z /\ (arity <= length values)%nat.
Proof.
  unfold switchValue.
  destruct (fm_Type fm);
    try (destruct values as [|value values]; [discriminate |];
         destruct (parseValueWithValidation value fm); [| discriminate];
         intros [= <- <-]; cbn [length]; split; [reflexivity | lia]).
  - intros [= <- <-]. cbn. split; [reflexivity | lia].
  - destruct (length (fm_Args fm) =? 0)%nat; [discriminate |].
    destruct (Nat.ltb_spec (length values) (length (fm_Args fm)));
      [discriminate |].
    destruct (parseMultiArgs flag (fm_Args fm) values ∅); [| discriminate].
    intros [= <- <-]. split; [lia | assumption].
Qed.

Lemma recordValue_negated (fm : FieldMeta) (st : ParseState) (v : Value) :
  ps_clauses (recordValue fm st v) = ps_clauses st
  /\ IsNegated (ps_current (recordValue fm st v)) = IsNegated (ps_current st).
Proof. unfold recordValue. destruct (fm_Scope fm); split; reflexivity. Qed.

Lemma clauseStarts_skip (cmd : GSCommand) (args : list string) :
  forall k, clauseStarts cmd k args = clauseStarts cmd 0 (drop k args).
Proof.
  induction args as [|a args IH]; intros [|k]; try reflexivity.
  cbn [clauseStarts drop]. apply IH.
Qed.

(** A token that starts with a prefix mark and is longer than the mark. *)
Lemma prefixed_shape (arg mark : string) (m : ascii) :
  mark = String m EmptyString ->
  Strings.HasPrefix arg mark = true ->
  (1 <? Strings.len arg)%Z = true ->
  exists c name, arg = String m (String c name).
Proof.
  intros -> Hp Hl. destruct arg as [|a [|c name]].
  - discriminate.
  - apply Z.ltb_lt in Hl. unfold Strings.len in Hl. cbn in Hl. lia.
  - cbn [Strings.HasPrefix] in Hp. apply andb_true_iff in Hp as [Ha _].
    apply Ascii.eqb_eq in Ha as ->. now exists c, name.
Qed.

Lemma prefixed_short (arg mark : string) (m : ascii) :
  mark = String m EmptyString ->
  Strings.HasPrefix arg mark = true ->
  (1 <? Strings.len arg)%Z = false ->
  arg = mark.
Proof.
  intros -> Hp Hl. destruct arg as [|a [|c name]].
  - discriminate.
  - cbn [Strings.HasPrefix] in Hp. apply andb_true_iff in Hp as [Ha _].
    now apply Ascii.eqb_eq in Ha as ->.
  - apply Z.ltb_ge in Hl. unfold Strings.len in Hl. cbn [String.length] in Hl. lia.
Qed.

(** One iteration moves forward, and starts a clause exactly at a
    separator. *)
Lemma Parse_step_starts (cmd : GSCommand) (arg : string) (rest : list string)
    (st st' : ParseState) (n : Z) :
  Parse_step cmd arg rest st = Ok (n, st') ->
  (1 <= n)%Z
  /\ map IsNegated (ps_clauses st' ++ [ps_current st'])
       ++ clauseStarts cmd 0 (drop (Z.to_nat n) (arg :: rest))
     = map IsNegated (ps_clauses st ++ [ps_current st])
       ++ clauseStarts cmd 0 (arg :: rest).
Proof.
  assert (Hsep : forall b,
             map IsNegated (ps_clauses (startClause st b)
                            ++ [ps_current (startClause st b)])
             = map IsNegated (ps_clauses st ++ [ps_current st]) ++ [b]).
  { intros b. cbn. now rewrite !map_app. }
  assert (Hswitch : forall c name negated,
             liftFlag st (parseFlagWithNegation cmd
                            (String "-" (String c name) :: rest)
                            (ps_current st) (ps_global st) negated)
             = Ok (n, st') ->
             (1 <= n)%Z
             /\ map IsNegated (ps_clauses st' ++ [ps_current st'])
                = map IsNegated (ps_clauses st ++ [ps_current st])
             /\ drop (Z.to_nat n) (arg :: rest)
                = drop (match lookupFlag (fields cmd) (String "-" (String c name)) with
                        | Some fm =>
                            match fm_Type fm with
                            | FieldTypeFlag => 0
                            | FieldTypeMulti => length (fm_Args fm)
                            | _ => 1
                            end
                        | None => 0
                        end) rest).
  { intros c name negated Hr.
    destruct (lookupFlag (fields cmd) (String "-" (String c name)))
      as [fm|] eqn:Hl.
    2:{ unfold parseFlagWithNegation in Hr. rewrite Hl in Hr. discriminate. }
    rewrite (parseFlagWithNegation_switch cmd _ fm rest st negated Hl) in Hr.
    destruct (switchValue fm (String "-" (String c name)) rest)
      as [[consumed v]|] eqn:Hv; [| discriminate].
    injection Hr as <- <-.
    destruct (switchValue_consumed _ _ _ _ _ Hv) as [-> Hlen].
    destruct (recordValue_negated fm st
                (if negated then markNegated fm v else v)) as [Hc Hn].
    split; [lia |]. split.
    - rewrite !map_app, Hc. cbn [map]. now rewrite Hn.
    - rewrite Z2Nat.inj_add, Nat2Z.id by lia. reflexivity. }
  unfold Parse_step. cbn [clauseStarts].
  destruct (String.eqb_spec arg "+") as [->|Hplus].
  { intros [= <- <-]. split; [lia |]. rewrite Hsep, <- app_assoc. reflexivity. }
  destruct (String.eqb_spec arg "-") as [->|Hminus].
  { intros [= <- <-]. split; [lia |]. rewrite Hsep, <- app_assoc. reflexivity. }
  destruct (Strings.HasPrefix arg "+") eqn:Hp.
  { destruct (1 <? Strings.len arg)%Z eqn:Hl.
    2:{ now rewrite (prefixed_short arg "+" "+"%char eq_refl Hp Hl) in Hplus. }
    destruct (prefixed_shape arg "+" "+"%char eq_refl Hp Hl) as (c & name & ->).
    intros Hr. cbn [orb]. unfold switchArity.
    change ("-" +:+ Strings.from 1 (String "+" (String c name)))
      with (String "-" (String c name)) in *.
    destruct (Hswitch c name true Hr) as (Hn & Hneg & Hdrop).
    split; [exact Hn |]. rewrite Hneg, Hdrop. f_equal.
    symmetry. apply clauseStarts_skip. }
  destruct (Strings.HasPrefix arg "-") eqn:Hm.
  { destruct (1 <? Strings.len arg)%Z eqn:Hl.
    2:{ now rewrite (prefixed_short arg "-" "-"%char eq_refl Hm Hl) in Hminus. }
    destruct (prefixed_shape arg "-" "-"%char eq_refl Hm Hl) as (c & name & ->).
    intros Hr. cbn [orb]. unfold switchArity.
    change ("-" +:+ Strings.from 1 (String "-" (String c name)))
      with (String "-" (String c name)) in *.
    destruct (Hswitch c name false Hr) as (Hn & Hneg & Hdrop).
    split; [exact Hn |]. rewrite Hneg, Hdrop. f_equal.
    symmetry. apply clauseStarts_skip. }
  intros [= <- <-]. split; [lia |]. cbn [orb]. rewrite !map_app. reflexivity.
Qed.


(** The loop of [Parse] ends within [length args] iterations. *)
Lemma Parse_loop_terminates (cmd : GSCommand) (fuel : nat) :
  forall args st,
    (length args <= fuel)%nat -> Parse_loop cmd fuel args st <> None.
Proof.
  induction fuel as [|fuel IH]; intros [|arg rest] st Hlen; cbn [Parse_loop];
    try discriminate.
  - cbn in Hlen. lia.
  - destruct (Parse_step cmd arg rest st) as [[n st1]|] eqn:Hs; [| discriminate].
    apply IH. destruct (Parse_step_starts cmd arg rest st st1 n Hs) as [Hn _].
    rewrite length_drop. cbn [length] in *. lia.
Qed.


Lemma applyDefaults_clause_lookup (cmd : GSCommand) (c : ClauseSet)
    (k : string) (v : Value) :
  Fields c !! k = Some v ->
  Fields (applyDefaults_clause cmd c) !! k = Some v.
Proof.
  unfold applyDefaults_clause. cbn [Fields].
  generalize (Fields c). induction (fields cmd) as [|f flds IH]; intros m Hm.
  - exact Hm.
  - cbn [foldl]. apply IH.
    destruct (m !! fm_Name f) eqn:Hf; [exact Hm |].
    destruct (fm_DefaultValue f); [| exact Hm].
    rewrite lookup_insert_ne; [exact Hm |]. intros Heq. rewrite Heq in Hf.
    congruence.
Qed.

Lemma Parse_clauses (cmd : GSCommand) (args : list string)
    (clauses : list ClauseSet) :
  Parse cmd args = Ok clauses ->
  exists st,
    Parse_loop cmd (length args) args initialState = Some (Ok st)
    /\ clauses = map (fun c => applyDefaults_clause cmd
                                 (applyGlobal (ps_global st) c))
                    (ps_clauses st ++ [ps_current st]).
Proof.
  unfold Parse. fold initialState.
  destruct (Parse_loop cmd (length args) args initialState) as [[st|e]|];
    try discriminate.
  unfold applyDefaults. intros [= <-]. exists st. split; [reflexivity |].
  now rewrite map_map.
Qed.

Lemma Parse_step_known (cmd : GSCommand) (flag : string) (fm : FieldMeta)
    (rest : list string) (st : ParseState) (negated : bool) :
  lookupFlag (fields cmd) flag = Some fm ->
  fm_Name fm <> EmptyString ->
  Parse_step cmd (if negated then "+" +:+ Strings.from 1 flag else flag) rest st
  = match switchValue fm flag rest with
    | Err e => Err e
    | Ok (consumed, v) =>
        Ok (consumed,
            recordValue fm st (if negated then markNegated fm v else v))
    end.
Proof.
  intros Hl Hname.
  destruct (lookupFlag_Some _ _ _ Hl) as [Hflag _].
  destruct (parseFlagName_shape _ Hname) as (c & name & Hshape).
  rewrite Hshape in Hflag. subst flag.
  change ("+" +:+ Strings.from 1 (String "-" (String c name)))
    with (String "+" (String c name)).
  destruct (Parse_step_switch cmd c name rest st) as [Hminus Hplus].
  destruct negated; [rewrite Hplus | rewrite Hminus];
    now apply parseFlagWithNegation_switch.
Qed.

Lemma Parse_loop_step (cmd : GSCommand) (fuel : nat) (arg : string)
    (rest : list string) (st st' : ParseState) (n : Z) :
  Parse_step cmd arg rest st = Ok (n, st') ->
  Parse_loop cmd (S fuel) (arg :: rest) st
  = Parse_loop cmd fuel (drop (Z.to_nat n) (arg :: rest)) st'.
Proof. intros Hs. cbn [Parse_loop]. now rewrite Hs. Qed.


Lemma Parse_loop_error (cmd : GSCommand) (fuel : nat) (arg : string)
    (rest : list string) (st : ParseState) (e : string) :
  Parse_step cmd arg rest st = Err e ->
  Parse_loop cmd (S fuel) (arg :: rest) st = Some (Err e).
Proof. intros Hs. cbn [Parse_loop]. now rewrite Hs. Qed.

Lemma applyDefaults_clause_inv (cmd : GSCommand) (c : ClauseSet)
    (k : string) (v : Value) :
  Fields (applyDefaults_clause cmd c) !! k = Some v ->
  Fields c !! k = Some v
  \/ exists f, In f (fields cmd) /\ fm_Name f = k
               /\ fm_DefaultValue f = Some v.
Proof.
  unfold applyDefaults_clause. cbn [Fields].
  generalize (Fields c). induction (fields cmd) as [|f flds IH]; intros m.
  - now left.
  - cbn [foldl]. intros Hk. apply IH in Hk as [Hk|(g & Hg & Hn & Hd)].
    + destruct (m !! fm_Name f) eqn:Hf; [now left |].
      destruct (fm_DefaultValue f) as [d|] eqn:Hd; [| now left].
      destruct (decide (fm_Name f = k)) as [Heq|Hne].
      * rewrite Heq, lookup_insert_eq in Hk. injection Hk as ->.
        right. exists f. repeat split; [now left | assumption..].
      * rewrite lookup_insert_ne in Hk by assumption. now left.
    + right. exists g. repeat split; [now right | assumption..].
Qed.












(** C5. For a switch the command knows, the [+] spelling parses like the
    [-] spelling: the same tokens are taken, the same errors are returned,
    the value goes to the same place in the same way, and it is the value
    of the positive form with the negation mark: a single value [v] becomes
    {value: v, _negated: true}, the map of a multi-argument switch gets the
    entry _negated: true, and a boolean flag stores true in both
    spellings. *)
Theorem negated_switch_like_positive (cmd : GSCommand) (flag : string)
    (fm : FieldMeta) (rest : list string) (st : ParseState) :
  lookupFlag (fields cmd) flag = Some fm ->
  fm_Name fm <> EmptyString ->
  let plus := "+" +:+ Strings.from 1 flag in
  (forall e, switchValue fm flag rest = Err e ->
             Parse_step cmd flag rest st = Err e
             /\ Parse_step cmd plus rest st = Err e)
  /\ (forall consumed v,
         switchValue fm flag rest = Ok (consumed, v) ->
         Parse_step cmd flag rest st = Ok (consumed, recordValue fm st v)
         /\ Parse_step cmd plus rest st
            = Ok (consumed, recordValue fm st (markNegated fm v)))
  /\ (forall v,
         markNegated fm v
         = match fm_Type fm with
           | FieldTypeFlag => v
           | FieldTypeMulti =>
               match v with
               | VMap m => VMap (<["_negated" := VBool true]> m)
               | _ => v
               end
           | _ => VMap (<["_negated" := VBool true]> (<["value" := v]> ∅))
           end)
  /\ (fm_Type fm = FieldTypeFlag ->
      Parse_step cmd plus rest st = Parse_step cmd flag rest st
      /\ Parse_step cmd flag rest st
         = Ok (1%Z, recordValue fm st (VBool true)))
  /\ (fm_Type fm = FieldTypeMulti ->
      forall consumed v, switchValue fm flag rest = Ok (consumed, v) ->
                         exists m, v = VMap m).
Proof.
  intros Hl Hname plus.
  pose proof (Parse_step_known cmd flag fm rest st false Hl Hname) as Hminus.
  pose proof (Parse_step_known cmd flag fm rest st true Hl Hname) as Hplus.
  cbv iota in Hminus, Hplus. fold plus in Hplus.
  split; [| split; [| split; [| split]]].
  - intros e He. rewrite Hminus, Hplus, He. now split.
  - intros consumed v Hv. rewrite Hminus, Hplus, Hv. now split.
  - reflexivity.
  - intros Ht. rewrite Hminus, Hplus. unfold switchValue, markNegated.
    rewrite Ht. now split.
  - intros Ht consumed v. unfold switchValue. rewrite Ht.
    destruct (length (fm_Args fm) =? 0)%nat; [discriminate |].
    destruct (length rest <? length (fm_Args fm))%nat; [discriminate |].
    destruct (parseMultiArgs flag (fm_Args fm) rest ∅) as [m|]; [| discriminate].
    intros [= _ <-]. now exists m.
Qed.

(** C3. A value of a text switch with declared values is checked when
    [Parse] reads it: outside the declared values, the iteration fails
    with the message that lists them, whatever follows in the vector and
    whatever was parsed before; inside, the value is accepted. *)
Theorem enum_checked_at_token (cmd : GSCommand) (flag : string)
    (fm : FieldMeta) (value : string) (rest : list string) (negated : bool) :
  lookupFlag (fields cmd) flag = Some fm ->
  fm_Name fm <> EmptyString ->
  fm_Type fm = FieldTypeString ->
  fm_Enum fm <> [] ->
  let token := if negated then "+" +:+ Strings.from 1 flag else flag in
  let msg := "parsing value for " +:+ flag +:+ ": invalid value '" +:+ value
             +:+ "', must be one of: " +:+ Strings.Join (fm_Enum fm) ", " in
  (~ In value (fm_Enum fm) ->
   (forall st, Parse_step cmd token (value :: rest) st = Err msg)
   /\ (forall fuel st,
         Parse_loop cmd (S fuel) (token :: value :: rest) st = Some (Err msg))
   /\ Parse cmd (token :: value :: rest) = Err msg)
  /\ (In value (fm_Enum fm) ->
      forall st,
        Parse_step cmd token (value :: rest) st
        = Ok (2%Z, recordValue fm st
                     (if negated then markNegated fm (VString value)
                      else VString value)))
  /\ Strings.Join (parseEnumValues "bar:line:area") ", " = "bar, line, area".
Proof.
  intros Hl Hname Ht Henum token msg.
  assert (Hstep : forall st,
             Parse_step cmd token (value :: rest) st
             = if existsb (String.eqb value) (fm_Enum fm)
               then Ok (2%Z, recordValue fm st
                               (if negated then markNegated fm (VString value)
                                else VString value))
               else Err msg).
  { intros st. unfold token.
    rewrite (Parse_step_known cmd flag fm (value :: rest) st negated Hl Hname).
    unfold switchValue, parseValueWithValidation, parseValue. rewrite Ht.
    cbn [FieldType_eqb andb].
    destruct (fm_Enum fm) as [|e0 enum] eqn:He; [contradiction |].
    replace (0 <? Z.of_nat (length (e0 :: enum)))%Z with true
      by (symmetry; apply Z.ltb_lt; cbn [length]; lia).
    destruct (existsb (String.eqb value) (e0 :: enum)); reflexivity. }
  split; [| split; [| reflexivity]].
  - intros Hnot.
    assert (Hex : existsb (String.eqb value) (fm_Enum fm) = false).
    { apply not_true_iff_false. intros Hex. apply existsb_exists in Hex.
      destruct Hex as (x & Hin & Heq). apply String.eqb_eq in Heq. now subst x. }
    assert (Herr : forall st, Parse_step cmd token (value :: rest) st = Err msg).
    { intros st. now rewrite Hstep, Hex. }
    split; [exact Herr |]. split.
    + intros fuel st. apply Parse_loop_error, Herr.
    + unfold Parse. cbn [length]. now rewrite (Parse_loop_error _ _ _ _ _ _ (Herr _)).
  - intros Hin st. rewrite Hstep.
    replace (existsb (String.eqb value) (fm_Enum fm)) with true; [reflexivity |].
    symmetry. apply existsb_exists. exists value. split; [exact Hin |].
    apply String.eqb_refl.
Qed.


End ParseProperties.



(** The theorem on the negated type switch of the completion test
    command. *)
Lemma negated_switch_like_positive_witness :
  Parse_step (lib := runLib) (commandOf TestCompletionConfig) "+type"
    ["line"] initialState
  = Ok (2%Z,
        {| ps_clauses := []; ps_current := newClause false;
           ps_global :=
             {[ "Type" := VMap (<["_negated" := VBool true]>
                                  (<["value" := VString "line"]> ∅)) ]} |}).
Proof.
  refine (proj2 (proj1 (proj2
            (negated_switch_like_positive (lib := runLib)
               (commandOf TestCompletionConfig) "-type"
               {| fm_Name := "Type"; fm_Type := FieldTypeString;
                  fm_Scope := ScopeGlobal; fm_Mode := ModeLast; fm_Args := [];
                  fm_DefaultValue := Some (VString "bar");
                  fm_Help := "Type field"; fm_Required := false;
                  fm_Complete := ""; fm_Suffix := "";
                  fm_Enum := ["bar"; "line"; "area"] |}
               ["line"] initialState eq_refl _))
            2%Z (VString "line") eq_refl)).
  discriminate.
Defined.

(** The theorem on the type switch of the completion test command. *)
Lemma enum_checked_at_token_witness :
  Parse (lib := runLib) (commandOf TestCompletionConfig)
    ["-type"; "pie"; "-no-such-flag"]
  = Err "parsing value for -type: invalid value 'pie', must be one of: bar, line, area".
Proof.
  refine (proj2 (proj2 (proj1
            (enum_checked_at_token (lib := runLib)
               (commandOf TestCompletionConfig) "-type"
               {| fm_Name := "Type"; fm_Type := FieldTypeString;
                  fm_Scope := ScopeGlobal; fm_Mode := ModeLast; fm_Args := [];
                  fm_DefaultValue := Some (VString "bar");
                  fm_Help := "Type field"; fm_Required := false;
                  fm_Complete := ""; fm_Suffix := "";
                  fm_Enum := ["bar"; "line"; "area"] |}
               "pie" ["-no-such-flag"] false eq_refl _ eq_refl _) _))).
  - discriminate.
  - discriminate.
  - cbn [In fm_Enum]. intros [H|[H|[H|[]]]]; discriminate H.
Defined.



(** ** The completion analyzer *)

Section CompletionProperties.
Context {lib : GoLib}.

Lemma index_Some {A} (a : list A) (i : Z) :
  (0 <= i < Z.of_nat (length a))%Z -> exists x, index a i = Some x.
Proof.
  intros Hi. unfold index.
  destruct (Z.leb_spec 0 i); [| lia].
  destruct (Z.ltb_spec i (Z.of_nat (length a))); [| lia].
  cbn [andb]. apply lookup_lt_is_Some_2. lia.
Qed.

Lemma index_negative {A} (a : list A) (i : Z) : (i < 0)%Z -> index a i = None.
Proof.
  intros Hi. unfold index. destruct (Z.leb_spec 0 i); [lia | reflexivity].
Qed.

Lemma findLastFlag_loop_defined (cmd : GSCommand) (args : list string) (k : nat) :
  exists i found,
    findLastFlag_loop cmd args k = Some (i, found)
    /\ (found <> None -> (0 <= i < Z.of_nat k)%Z).
Proof.
  induction k as [|k (i & found & IH & Hi)].
  - exists (-1)%Z, None. split; [reflexivity | congruence].
  - assert (Hnext : exists i found,
               findLastFlag_loop cmd args k = Some (i, found)
               /\ (found <> None -> (0 <= i < Z.of_nat (S k))%Z)).
    { exists i, found. split; [exact IH | intros Hf; specialize (Hi Hf); lia]. }
    cbn [findLastFlag_loop].
    destruct (Z.leb_spec (Z.of_nat (length args)) (Z.of_nat k)); [exact Hnext |].
    destruct (index_Some args (Z.of_nat k)) as [flagArg ->]; [lia |].
    cbn [mbind option_bind].
    destruct (Strings.HasPrefix flagArg "-" || Strings.HasPrefix flagArg "+");
      [| exact Hnext].
    match goal with
    | |- context [match ?n with Some _ => _ | None => _ end] => destruct n
    end.
    2:{ exists (-1)%Z, None. split; [reflexivity | congruence]. }
    destruct (lookupFlag (fields cmd) s) as [fm|].
    + exists (Z.of_nat k), (Some fm). split; [reflexivity | intros _; lia].
    + exists (-1)%Z, None. split; [reflexivity | congruence].
Qed.

(** The backward scan never indexes out of bounds, starts from the
    position clamped to the length of the vector, and a switch it finds
    lies before that position. *)
Lemma findLastFlag_defined (cmd : GSCommand) (args : list string) (pos : Z) :
  findLastFlag cmd args pos
  = findLastFlag cmd args (Z.min pos (Z.of_nat (length args)))
  /\ exists i found,
       findLastFlag cmd args pos = Some (i, found)
       /\ (found <> None
           -> (0 <= i < pos)%Z /\ (i < Z.of_nat (length args))%Z).
Proof.
  split.
  - unfold findLastFlag.
    destruct (Z.ltb_spec (Z.of_nat (length args) - 1) pos);
      destruct (Z.ltb_spec (Z.of_nat (length args) - 1)
                  (Z.min pos (Z.of_nat (length args)))); f_equal; lia.
  - unfold findLastFlag.
    match goal with
    | |- context [findLastFlag_loop cmd args ?k] =>
        destruct (findLastFlag_loop_defined cmd args k) as (i & found & -> & Hi)
    end.
    exists i, found. split; [reflexivity |]. intros Hf. specialize (Hi Hf).
    destruct (Z.ltb_spec (Z.of_nat (length args) - 1) pos); lia.
Qed.

(** For a position that is not negative the analysis indexes no slice out
    of bounds, and the current token is empty past the end of the
    vector. *)
Lemma analyzeCompletionContext_defined (cmd : GSCommand) (args : list string)
    (pos : Z) :
  (0 <= pos)%Z ->
  exists context,
    analyzeCompletionContext cmd args pos = Some context
    /\ (Z.of_nat (length args) <= pos -> ctx_Current context = EmptyString)%Z.
Proof.
  intros Hpos. unfold analyzeCompletionContext.
  assert (Hcur : exists current,
             (if (pos <? Z.of_nat (length args))%Z then index args pos
              else Some EmptyString) = Some current
             /\ (Z.of_nat (length args) <= pos -> current = EmptyString)%Z).
  { destruct (Z.ltb_spec pos (Z.of_nat (length args))).
    - destruct (index_Some args pos) as [x Hx]; [lia |].
      exists x. split; [exact Hx | lia].
    - exists EmptyString. split; reflexivity. }
  destruct Hcur as (current & -> & Hcurrent). cbn [mbind option_bind].
  destruct (Strings.HasPrefix current "-" || Strings.HasPrefix current "+").
  { eexists. split; [reflexivity | exact Hcurrent]. }
  destruct (proj2 (findLastFlag_defined cmd args pos))
    as (flagPos & found & -> & Hfound).
  cbn [mbind option_bind].
  destruct found as [fieldMeta|].
  2:{ assert (Hbare : exists bare,
                 shouldUseBareFileCompletion args pos = Some bare).
      { unfold shouldUseBareFileCompletion.
        destruct (pos =? 0)%Z; [now eexists |].
        destruct (Z.ltb_spec 0 pos); [| now eexists].
        destruct (Z.ltb_spec (pos - 1) (Z.of_nat (length args)));
          [| now eexists].
        cbn [andb]. destruct (index_Some args (pos - 1)) as [prev ->]; [lia |].
        now eexists. }
      destruct Hbare as [bare ->].
      eexists. split; [reflexivity | exact Hcurrent]. }
  destruct Hfound as [Hflag Hlen]; [discriminate |].
  destruct (fm_Type fieldMeta);
    try (eexists; split; [reflexivity | exact Hcurrent]).
  destruct (Z.leb_spec 0 (pos - flagPos - 1));
    [| eexists; split; [reflexivity | exact Hcurrent]].
  destruct (Z.ltb_spec (pos - flagPos - 1)
              (Z.of_nat (length (fm_Args fieldMeta))));
    [| eexists; split; [reflexivity | exact Hcurrent]].
  cbn [andb].
  destruct (index_Some (fm_Args fieldMeta) (pos - flagPos - 1))
    as [spec ->]; [lia |].
  cbn [mbind option_bind].
  destruct (Z.ltb_spec 0 (pos - flagPos - 1)).
  2:{ eexists; split; [reflexivity | exact Hcurrent]. }
  destruct (index_Some (fm_Args fieldMeta) (pos - flagPos - 1 - 1))
    as [prevSpec ->]; [lia |].
  cbn [mbind option_bind].
  destruct (ArgumentType_eqb (arg_Type prevSpec) ArgumentTypeField);
    [| eexists; split; [reflexivity | exact Hcurrent]].
  destruct (Z.ltb_spec (flagPos + (pos - flagPos - 1))
              (Z.of_nat (length args)));
    [| eexists; split; [reflexivity | exact Hcurrent]].
  cbn [andb].
  destruct (index_Some args (flagPos + (pos - flagPos - 1)))
    as [fieldName ->]; [lia |].
  eexists; split; [reflexivity | exact Hcurrent].
Qed.

(** A negative position makes the analysis index the vector out of
    bounds. *)
Lemma analyzeCompletionContext_negative (cmd : GSCommand) (args : list string)
    (pos : Z) :
  (pos < 0)%Z -> analyzeCompletionContext cmd args pos = None.
Proof.
  intros Hneg. unfold analyzeCompletionContext.
  destruct (Z.ltb_spec pos (Z.of_nat (length args))); [| lia].
  now rewrite index_negative.
Qed.

End CompletionProperties.

(** C9 holds for positions from 0 on, and not below: at position -1 the
    analysis reads [args[-1]], and the completion sub-command called with
    -1 panics. *)
Theorem analyzeCompletionContext_position_minus_one :
  analyzeCompletionContext (commandOf TestCompletionConfig)
    ["-type"] (-1) = None
  /\ fst (complete (lib := runLib) ["-type"] (-1) noFiles
            (sysOf (commandOf TestCompletionConfig))) = None
  /\ fst (Execute (lib := runLib) ["-complete"; "-1"; "-type"] noFiles
            (sysOf (commandOf TestCompletionConfig))) = RanCompletion None.
Proof. repeat split; vm_compute; reflexivity. Qed.

(** ** The caches *)

Section CacheProperties.
Context {lib : GoLib}.

Lemma getFields_unfold (filename : string) (w : World) (s : Sys) :
  getFields filename w s
  = match fieldCache (sys_cmd s) !! filename with
    | Some flds => (Ok flds, s)
    | None =>
        match os_Open w filename with
        | Err e => (Err ("opening file " +:+ filename +:+ ": " +:+ e),
                    logOpen filename s)
        | Ok [] => (Err ("file " +:+ filename +:+ " is empty"),
                    logOpen filename s)
        | Ok (headerLine :: _) =>
            (Ok (parseTSVHeader headerLine),
             withFieldCache filename (parseTSVHeader headerLine)
               (logOpen filename s))
        end
    end.
Proof.
  unfold getFields, io_bind, getCmd, io_ret, os_open.
  destruct (fieldCache (sys_cmd s) !! filename); [reflexivity |].
  destruct (os_Open w filename) as [[|headerLine rows]|e]; reflexivity.
Qed.


Lemma fieldIndexOf_found (flds : list string) (fieldName : string) :
  forall i, (0 <= i)%Z ->
    (fieldIndexOf flds fieldName i = (-1)%Z <-> ~ In fieldName flds)
    /\ (fieldIndexOf flds fieldName i = (-1)%Z
        \/ (i <= fieldIndexOf flds fieldName i < i + Z.of_nat (length flds))%Z).
Proof.
  induction flds as [|f flds IH]; intros i Hi; cbn [fieldIndexOf In length].
  - split; [tauto | now left].
  - destruct (String.eqb_spec f fieldName) as [->|Hne].
    + split; [split; [lia | tauto] | right; lia].
    + destruct (IH (i + 1)%Z) as [Hiff Hrange]; [lia |]. split.
      * rewrite Hiff. tauto.
      * destruct Hrange as [?|?]; [now left | right; lia].
Qed.











Lemma completeFilesWithSuffix_state (partial : string)
    (fieldMeta : option FieldMeta) (w : World) (s : Sys) :
  snd (completeFilesWithSuffix partial fieldMeta w s) = s
  /\ exists candidates,
       fst (completeFilesWithSuffix partial fieldMeta w s) = Ok candidates.
Proof.
  unfold completeFilesWithSuffix, io_bind, io_ret, os_readDir.
  destruct (if Strings.HasSuffix partial "/" then _ else _) as [dir pattern].
  destruct (os_ReadDir w dir) as [entries|e]; [| split; [reflexivity | now eexists]].
  destruct (completeFiles_loop dir pattern fieldMeta entries [] [] [])
    as [[tsvFiles otherFiles] directories].
  split; [reflexivity | now eexists].
Qed.





End CacheProperties.



(** C2 holds on the paths of field values and of files, and not on the path
    of field names: there the error of [getFields] is returned. With no
    table in the vector the file name is empty and cannot be opened; with a
    table that cannot be opened, or that is empty, the error is returned as
    well, where the path of field values gives the empty list. *)
Theorem complete_field_names_returns_error :
  fst (complete (lib := runLib) ["-field"; ""] 1 noFiles
         (sysOf (commandOf TestCompletionConfig)))
  = Some (Err "opening file : open : no such file or directory")
  /\ fst (complete (lib := runLib) ["data.tsv"; "-field"; ""] 2 noFiles
            (sysOf (commandOf TestCompletionConfig)))
     = Some (Err "opening file data.tsv: open data.tsv: no such file or directory")
  /\ fst (complete (lib := runLib) ["data.tsv"; "-field"; ""] 2 emptyTable
            (sysOf (commandOf TestCompletionConfig)))
     = Some (Err "file data.tsv is empty")
  /\ fst (complete (lib := runLib) ["data.tsv"; "-match"; ""] 2 emptyTable
            (sysOf (commandOf TestCompletionConfig)))
     = Some (Err "file data.tsv is empty")
  /\ fst (Execute (lib := runLib) ["-complete"; "1"; "-field"; ""] noFiles
            (sysOf (commandOf TestCompletionConfig)))
     = RanCompletion
         (Some (Err "opening file : open : no such file or directory"))
  /\ fst (complete (lib := runLib) ["data.tsv"; "-match"; "host"; ""] 3
            emptyTable (sysOf (commandOf TestCompletionConfig)))
     = Some (Ok []).
Proof. repeat split; vm_compute; reflexivity. Qed.

Section CompletionErrors.
Context {lib : GoLib}.

(** The paths of field values and of files return no error: a file that
    cannot be read, an empty file, a field that the header lacks and a
    directory that cannot be read all give the empty list. *)
Lemma completeContent_no_error (filename fieldName partial : string)
    (w : World) (s : Sys) :
  (exists candidates,
      fst (completeContent filename fieldName partial w s) = Ok candidates)
  /\ (forall e, fst (getFieldValues filename fieldName w s) = Err e ->
                fst (completeContent filename fieldName partial w s) = Ok [])
  /\ (fst (getFieldValues filename fieldName w s) = Ok [] ->
      fst (completeContent filename fieldName partial w s) = Ok []).
Proof.
  unfold completeContent, io_bind, io_ret.
  destruct (getFieldValues filename fieldName w s) as [[values|e] s1];
    cbn [fst]; repeat split; try discriminate; try (now eexists).
  intros [= ->]. reflexivity.
Qed.

Lemma completeFilesWithSuffix_no_error (partial : string)
    (fieldMeta : option FieldMeta) (w : World) (s : Sys) :
  (exists candidates,
      fst (completeFilesWithSuffix partial fieldMeta w s) = Ok candidates)
  /\ ((forall dir, is_Err (os_ReadDir w dir) = true) ->
      fst (completeFilesWithSuffix partial fieldMeta w s) = Ok []).
Proof.
  split; [apply completeFilesWithSuffix_state |].
  intros Hdir. unfold completeFilesWithSuffix, io_bind, io_ret, os_readDir.
  destruct (if Strings.HasSuffix partial "/" then _ else _) as [dir pattern].
  specialize (Hdir dir). now destruct (os_ReadDir w dir).
Qed.

(** An error of [complete] comes from [completeField] only. *)
Lemma complete_error_source (args : list string) (pos : Z) (w : World)
    (s : Sys) (e : string) :
  fst (complete args pos w s) = Some (Err e) ->
  exists context,
    analyzeCompletionContext (sys_cmd s) args pos = Some context
    /\ fst (completeField (ctx_TSVFile context) (ctx_Current context) w s)
       = Err e
    /\ (ctx_Type context = CompletionField
        \/ ctx_Type context = CompletionMultiArg).
Proof.
  unfold complete, io_bind, getCmd, io_ret.
  destruct (analyzeCompletionContext (sys_cmd s) args pos) as [context|];
    [| discriminate].
  intros He. exists context. split; [reflexivity |].
  destruct (ctx_Type context) eqn:Ht; try discriminate.
  - destruct (completeField _ _ w s) as [r s1]. cbn in He |- *.
    injection He as ->. split; [reflexivity | now left].
  - destruct (proj1 (completeContent_no_error (ctx_TSVFile context)
                       (ctx_FieldName context) (ctx_Current context) w s))
      as [c Hc].
    destruct (completeContent _ _ _ w s) as [r s1]. cbn in He, Hc.
    congruence.
  - destruct (proj1 (completeFilesWithSuffix_no_error (ctx_Current context)
                       (ctx_FieldMeta context) w s)) as [c Hc].
    destruct (completeFilesWithSuffix _ _ w s) as [r s1]. cbn in He, Hc.
    congruence.
  - unfold completeMultiArgument, completeFiles in He.
    destruct (ctx_ArgumentSpec context) as [spec|].
    2:{ destruct (proj1 (completeFilesWithSuffix_no_error (ctx_Current context)
                           None w s)) as [c Hc].
        destruct (completeFilesWithSuffix _ _ w s) as [r s1]. cbn in He, Hc.
        congruence. }
    destruct (arg_Type spec); try discriminate.
    + destruct (negb _); [| discriminate].
      destruct (completeField _ _ w s) as [r s1]. cbn in He |- *.
      injection He as ->. split; [reflexivity | now right].
    + destruct (negb _ && negb _); [| discriminate].
      destruct (proj1 (completeContent_no_error (ctx_TSVFile context)
                         (ctx_FieldName context) (ctx_Current context) w s))
        as [c Hc].
      destruct (completeContent _ _ _ w s) as [r s1]. cbn in He, Hc.
      congruence.
    + destruct (proj1 (completeFilesWithSuffix_no_error (ctx_Current context)
                         None w s)) as [c Hc].
      destruct (completeFilesWithSuffix _ _ w s) as [r s1]. cbn in He, Hc.
      congruence.
Qed.

End CompletionErrors.

(** ** The order of byte strings and the sort of [getFieldValues] *)






















(** ** Completion of field values *)

Section FieldValues.
Context {lib : GoLib}.





Lemma index_lookup {A} (a : list A) (i : nat) (x : A) :
  a !! i = Some x -> index a (Z.of_nat i) = Some x.
Proof.
  intros Hx. unfold index. pose proof (lookup_lt_Some _ _ _ Hx).
  destruct (Z.leb_spec 0 (Z.of_nat i)); [| lia].
  destruct (Z.ltb_spec (Z.of_nat i) (Z.of_nat (length a))); [| lia].
  cbn [andb]. now rewrite Nat2Z.id.
Qed.





End FieldValues.



(** * Further properties *)

(** ** More of the descriptor parser *)

Lemma Contains_Index_neg (s t : string) :
  Strings.Contains s t = false <-> (Strings.Index s t < 0)%Z.
Proof. unfold Strings.Contains. apply Z.leb_gt. Qed.

Lemma Contains_byte_cut (c : ascii) (s : string) :
  Strings.Contains s (String c EmptyString) = true ->
  exists pre rest,
    s = pre +:+ String c rest
    /\ Strings.Contains pre (String c EmptyString) = false.
Proof.
  induction s as [|x s IH]; [discriminate |].
  rewrite Contains_cons_byte. destruct (Ascii.eqb_spec x c) as [->|Hne].
  - intros _. exists EmptyString, s. split; reflexivity.
  - cbn [orb]. intros Hs. destruct (IH Hs) as (pre & rest & -> & Hpre).
    exists (String x pre), rest. split; [reflexivity |].
    rewrite Contains_cons_byte, Hpre.
    destruct (Ascii.eqb_spec x c); [contradiction | reflexivity].
Qed.

Lemma splitByte_clean (c : ascii) (s : string) :
  Strings.Contains s (String c EmptyString) = false -> splitByte c s = [s].
Proof.
  induction s as [|x s IH]; [reflexivity |].
  rewrite Contains_cons_byte. intros H. apply orb_false_iff in H as [Hx Hs].
  cbn [splitByte]. rewrite Hx, (IH Hs). reflexivity.
Qed.

Lemma splitByte_append (c : ascii) (pre rest : string) :
  Strings.Contains pre (String c EmptyString) = false ->
  splitByte c (pre +:+ String c rest) = pre :: splitByte c rest.
Proof.
  induction pre as [|x pre IH]; intros Hpre.
  - rewrite append_nil_l. cbn [splitByte]. now rewrite Ascii.eqb_refl.
  - rewrite Contains_cons_byte in Hpre. apply orb_false_iff in Hpre as [Hx Hpre].
    rewrite append_cons. cbn [splitByte]. rewrite Hx, (IH Hpre). reflexivity.
Qed.

Lemma from_append_byte (pre : string) (c : ascii) (rest : string) :
  Strings.from (String.length pre + 1) (pre +:+ String c rest) = rest.
Proof.
  induction pre as [|x pre IH].
  - rewrite append_nil_l. reflexivity.
  - rewrite append_cons. exact IH.
Qed.

Lemma genSplit_byte (c : ascii) (n : nat) :
  forall s, (String.length s <= n)%nat ->
            Strings.genSplit n s (String c EmptyString) = splitByte c s.
Proof.
  induction n as [|n IH]; intros s Hlen.
  - destruct s; [reflexivity | cbn in Hlen; lia].
  - cbn [Strings.genSplit].
    destruct (Strings.Contains s (String c EmptyString)) eqn:Hc.
    + destruct (Contains_byte_cut c s Hc) as (pre & rest & -> & Hpre).
      rewrite (Index_byte_append c pre rest Hpre).
      destruct (Z.ltb_spec (Z.of_nat (String.length pre)) 0); [lia |].
      rewrite Nat2Z.id, upto_append. cbn [String.length].
      rewrite from_append_byte, splitByte_append by assumption.
      f_equal. apply IH. rewrite length_append in Hlen. cbn [String.length] in Hlen.
      lia.
    + rewrite splitByte_clean by assumption.
      apply Contains_Index_neg in Hc.
      destruct (Z.ltb_spec (Strings.Index s (String c EmptyString)) 0);
        [reflexivity | lia].
Qed.

Lemma Split_byte (c : ascii) (s : string) :
  Strings.Split s (String c EmptyString) = splitByte c s.
Proof. unfold Strings.Split. cbn [String.eqb]. now apply genSplit_byte. Qed.

Lemma Join_cons (a b : string) (l : list string) (sep : string) :
  Strings.Join (a :: b :: l) sep = a +:+ sep +:+ Strings.Join (b :: l) sep.
Proof. reflexivity. Qed.

Lemma splitByte_Join (c : ascii) (l : list string) :
  l <> [] ->
  Forall (fun v => Strings.Contains v (String c EmptyString) = false) l ->
  splitByte c (Strings.Join l (String c EmptyString)) = l.
Proof.
  induction l as [|a [|b l] IH]; intros Hne Hall; [contradiction | |].
  - apply Forall_cons in Hall as [Ha _]. cbn [Strings.Join].
    now apply splitByte_clean.
  - apply Forall_cons in Hall as [Ha Hall].
    rewrite Join_cons, append_cons, append_nil_l, splitByte_append by assumption.
    f_equal. apply IH; [discriminate | assumption].
Qed.

Lemma Contains_Join_other (c d : ascii) (l : list string) :
  Ascii.eqb d c = false ->
  Forall (fun v => Strings.Contains v (String c EmptyString) = false) l ->
  Strings.Contains (Strings.Join l (String d EmptyString)) (String c EmptyString)
  = false.
Proof.
  intros Hd. induction l as [|a [|b l] IH]; intros Hall; [reflexivity | |].
  - now apply Forall_cons in Hall as [Ha _].
  - apply Forall_cons in Hall as [Ha Hall].
    rewrite Join_cons, Contains_append_byte, Ha, append_cons, append_nil_l,
      Contains_cons_byte, Hd, (IH Hall). reflexivity.
Qed.

Lemma Contains_Join_sep (c : ascii) (a b : string) (l : list string) :
  Strings.Contains (Strings.Join (a :: b :: l) (String c EmptyString))
    (String c EmptyString) = true.
Proof.
  rewrite Join_cons, Contains_append_byte, append_cons, append_nil_l,
    Contains_cons_byte, Ascii.eqb_refl. now destruct (Strings.Contains a _).
Qed.

Lemma TrimRightFunc_idem (s : string) (f : ascii -> bool) :
  Strings.TrimRightFunc (Strings.TrimRightFunc s f) f = Strings.TrimRightFunc s f.
Proof.
  induction s as [|c s IH]; [reflexivity |].
  cbn [Strings.TrimRightFunc].
  destruct (String.eqb (Strings.TrimRightFunc s f) EmptyString && f c) eqn:E;
    [reflexivity |].
  cbn [Strings.TrimRightFunc]. rewrite IH, E. reflexivity.
Qed.

Lemma TrimLeftFunc_head (s : string) (f : ascii -> bool) :
  Strings.TrimLeftFunc s f = EmptyString
  \/ exists c t, Strings.TrimLeftFunc s f = String c t /\ f c = false.
Proof.
  induction s as [|c s IH]; [now left |].
  cbn [Strings.TrimLeftFunc]. destruct (f c) eqn:E; [exact IH |].
  right. now exists c, s.
Qed.

Lemma TrimSpace_idem (s : string) :
  Strings.TrimSpace (Strings.TrimSpace s) = Strings.TrimSpace s.
Proof.
  unfold Strings.TrimSpace.
  destruct (TrimLeftFunc_head s Strings.isSpace) as [->|(c & t & -> & Hc)];
    [reflexivity |].
  cbn [Strings.TrimRightFunc]. rewrite Hc, andb_false_r.
  cbn [Strings.TrimLeftFunc]. rewrite Hc.
  cbn [Strings.TrimRightFunc]. rewrite TrimRightFunc_idem, Hc, andb_false_r.
  reflexivity.
Qed.

Lemma commaTerminated_app (a b : list string) :
  commaTerminated (a ++ b) = commaTerminated a +:+ commaTerminated b.
Proof.
  induction a as [|p a IH]; [reflexivity |].
  cbn [app commaTerminated]. now rewrite IH, !append_assoc.
Qed.

Lemma commaTerminated_Join (parts : list string) :
  parts <> [] -> commaTerminated parts = Strings.Join parts "," +:+ ",".
Proof.
  induction parts as [|a [|b parts] IH]; intros Hne; [contradiction | |].
  - cbn [commaTerminated Strings.Join]. now rewrite append_nil_r.
  - rewrite Join_cons. cbn [commaTerminated] in *.
    rewrite IH by discriminate. now rewrite !append_assoc.
Qed.

Lemma Join_snoc (parts : list string) (x : string) :
  Strings.Join (parts ++ [x]) "," = commaTerminated parts +:+ x.
Proof.
  induction parts as [|a [|b parts] IH]; [reflexivity | |].
  - cbn [app commaTerminated]. rewrite Join_cons. cbn [Strings.Join].
    now rewrite append_nil_r, append_assoc.
  - cbn [app] in *. rewrite Join_cons, IH. cbn [commaTerminated].
    now rewrite !append_assoc.
Qed.

Lemma parseTagParts_loop_written (tag : string) :
  forall parts current braceDepth,
  exists parts' current',
    parseTagParts_loop tag parts current braceDepth
    = parts' ++ (if (0 <? Strings.len current')%Z then [current'] else [])
    /\ commaTerminated parts' +:+ current'
       = commaTerminated parts +:+ current +:+ tag.
Proof.
  induction tag as [|char tag IH]; intros parts current braceDepth.
  - exists parts, current. split.
    + cbn [parseTagParts_loop]. destruct (0 <? Strings.len current)%Z;
        [reflexivity | now rewrite app_nil_r].
    + now rewrite append_nil_r.
  - assert (Hkeep : forall d,
               exists parts' current',
                 parseTagParts_loop tag parts (current +:+ String char EmptyString) d
                 = parts' ++ (if (0 <? Strings.len current')%Z
                              then [current'] else [])
                 /\ commaTerminated parts' +:+ current'
                    = commaTerminated parts +:+ current +:+ String char tag).
    { intros d.
      destruct (IH parts (current +:+ String char EmptyString) d)
        as (parts' & current' & Hl & Hw).
      exists parts', current'. split; [exact Hl |].
      rewrite Hw, !append_assoc. reflexivity. }
    cbn [parseTagParts_loop].
    destruct (Ascii.eqb char "{"); [apply Hkeep |].
    destruct (Ascii.eqb char "}"); [apply Hkeep |].
    destruct (Ascii.eqb_spec char ",") as [->|_]; [| apply Hkeep].
    destruct (braceDepth =? 0)%Z; [| apply Hkeep].
    destruct (IH (parts ++ [current]) EmptyString braceDepth)
      as (parts' & current' & Hl & Hw).
    exists parts', current'. split; [exact Hl |].
    rewrite Hw, commaTerminated_app. cbn [commaTerminated].
    rewrite !append_assoc, !append_cons, !append_nil_l. reflexivity.
Qed.

(** X1. Nothing of a tag of ASCII text is lost by [parseTagParts], a last
    comma apart: its parts joined by commas are the tag, or the tag
    without its final comma. *)
Theorem parseTagParts_round_trip (tag : string) :
  isASCII tag = true ->
  Strings.Join (parseTagParts tag) "," = tag
  \/ Strings.Join (parseTagParts tag) "," +:+ "," = tag.
Proof.
  intros _. unfold parseTagParts.
  destruct (parseTagParts_loop_written tag [] EmptyString 0)
    as (parts & current & -> & Hw).
  cbn [commaTerminated] in Hw. rewrite !append_nil_l in Hw.
  destruct (Z.ltb_spec 0 (Strings.len current)) as [Hlen|Hlen].
  - left. now rewrite Join_snoc.
  - assert (current = EmptyString) as ->.
    { destruct current; [reflexivity |].
      unfold Strings.len in Hlen. cbn [String.length] in Hlen. lia. }
    rewrite append_nil_r in Hw. rewrite app_nil_r.
    destruct parts as [|p parts].
    + left. exact Hw.
    + right. rewrite <- commaTerminated_Join by discriminate. exact Hw.
Qed.

Lemma mem_byte_cons_false (x d : ascii) (chars : string) :
  Strings.mem_byte x (String d chars) = false ->
  Ascii.eqb x d = false /\ Strings.mem_byte x chars = false.
Proof. cbn [Strings.mem_byte]. apply orb_false_iff. Qed.

Lemma parseTagParts_loop_plain (k : string) :
  forall rest parts current braceDepth,
    Strings.ContainsAny k ",{}" = false ->
    parseTagParts_loop (k +:+ rest) parts current braceDepth
    = parseTagParts_loop rest parts (current +:+ k) braceDepth.
Proof.
  induction k as [|x k IH]; intros rest parts current braceDepth Hk.
  - now rewrite append_nil_l, append_nil_r.
  - cbn [Strings.ContainsAny] in Hk. apply orb_false_iff in Hk as [Hx Hk].
    apply mem_byte_cons_false in Hx as [Hcomma Hx].
    apply mem_byte_cons_false in Hx as [Hopen Hx].
    apply mem_byte_cons_false in Hx as [Hclose _].
    rewrite append_cons. cbn [parseTagParts_loop].
    rewrite Hopen, Hclose, Hcomma, (IH _ _ _ _ Hk), append_assoc.
    reflexivity.
Qed.

Lemma parseTagParts_loop_inside (body : string) :
  forall rest parts current braceDepth,
    Strings.ContainsAny body "{}" = false ->
    braceDepth <> 0%Z ->
    parseTagParts_loop (body +:+ rest) parts current braceDepth
    = parseTagParts_loop rest parts (current +:+ body) braceDepth.
Proof.
  induction body as [|x body IH]; intros rest parts current braceDepth Hb Hd.
  - now rewrite append_nil_l, append_nil_r.
  - cbn [Strings.ContainsAny] in Hb. apply orb_false_iff in Hb as [Hx Hb].
    apply mem_byte_cons_false in Hx as [Hopen Hx].
    apply mem_byte_cons_false in Hx as [Hclose _].
    rewrite append_cons. cbn [parseTagParts_loop].
    rewrite Hopen, Hclose.
    destruct (Z.eqb_spec braceDepth 0); [contradiction |].
    destruct (Ascii.eqb x ","); rewrite (IH _ _ _ _ Hb Hd), append_assoc;
      reflexivity.
Qed.

Lemma parseTagParts_loop_head (head : string) :
  forall rest parts current,
    Strings.ContainsAny head "{}" = false ->
    parseTagParts_loop (head +:+ "," +:+ rest) parts current 0
    = parseTagParts_loop rest
        (parseTagParts_loop (head +:+ ",") parts current 0) EmptyString 0.
Proof.
  induction head as [|x head IH]; intros rest parts current Hh.
  - rewrite !append_nil_l, append_cons, append_nil_l. reflexivity.
  - cbn [Strings.ContainsAny] in Hh. apply orb_false_iff in Hh as [Hx Hh].
    apply mem_byte_cons_false in Hx as [Hopen Hx].
    apply mem_byte_cons_false in Hx as [Hclose _].
    rewrite !append_cons. cbn [parseTagParts_loop].
    rewrite Hopen, Hclose. cbn [Z.eqb].
    destruct (Ascii.eqb x ","); apply IH; exact Hh.
Qed.

Lemma parseTagParts_loop_group (key body tail : string) (parts : list string) :
  Strings.ContainsAny key ",{}" = false ->
  Strings.ContainsAny body "{}" = false ->
  Strings.ContainsAny tail ",{}" = false ->
  parseTagParts_loop (key +:+ "{" +:+ body +:+ "}" +:+ tail) parts EmptyString 0
  = parts ++ [key +:+ "{" +:+ body +:+ "}" +:+ tail].
Proof.
  intros Hkey Hbody Htail.
  rewrite parseTagParts_loop_plain by assumption.
  rewrite append_cons, append_nil_l. cbn [parseTagParts_loop Ascii.eqb Bool.eqb].
  rewrite parseTagParts_loop_inside by (assumption || discriminate).
  rewrite append_cons, append_nil_l. cbn [parseTagParts_loop Ascii.eqb Bool.eqb].
  rewrite <- (append_nil_r tail) at 1.
  rewrite parseTagParts_loop_plain by assumption.
  cbn [parseTagParts_loop]. rewrite !append_nil_l, !append_assoc.
  rewrite !append_cons, !append_nil_l.
  replace (0 <? Strings.len (key +:+ String "{" (body +:+ String "}" tail)))%Z
    with true; [reflexivity |].
  symmetry. apply Z.ltb_lt. unfold Strings.len. rewrite length_append.
  cbn [String.length]. lia.
Qed.

Lemma parseTagParts_round_trip_witness :
  Strings.Join (parseTagParts "field,local,list,") "," = "field,local,list,"
  \/ Strings.Join (parseTagParts "field,local,list,") "," +:+ ","
     = "field,local,list,".
Proof. apply (parseTagParts_round_trip "field,local,list,"). reflexivity. Defined.

(** X2. A brace group keeps its commas: a last token key{...}tail of a tag
    of ASCII text is one part, whatever commas stand between the braces,
    and the tokens before it are cut as they are without it. *)
Theorem parseTagParts_brace_group (head key body tail : string) :
  isASCII (head +:+ key +:+ body +:+ tail) = true ->
  Strings.ContainsAny head "{}" = false ->
  Strings.ContainsAny key ",{}" = false ->
  Strings.ContainsAny body "{}" = false ->
  Strings.ContainsAny tail ",{}" = false ->
  parseTagParts (key +:+ "{" +:+ body +:+ "}" +:+ tail)
  = [key +:+ "{" +:+ body +:+ "}" +:+ tail]
  /\ parseTagParts (head +:+ "," +:+ key +:+ "{" +:+ body +:+ "}" +:+ tail)
     = parseTagParts (head +:+ ",")
       ++ [key +:+ "{" +:+ body +:+ "}" +:+ tail].
Proof.
  intros _ Hhead Hkey Hbody Htail. unfold parseTagParts. split.
  - now apply parseTagParts_loop_group.
  - rewrite parseTagParts_loop_head by assumption.
    now apply parseTagParts_loop_group.
Qed.

Lemma parseTagParts_brace_group_witness :
  parseTagParts "file,global,last,suffix=.{tsv,csv}"
  = ["file"; "global"; "last"; "suffix=.{tsv,csv}"].
Proof.
  exact (proj2 (parseTagParts_brace_group "file,global,last" "suffix=." "tsv,csv"
                  EmptyString eq_refl eq_refl eq_refl eq_refl eq_refl)).
Defined.

Lemma map_TrimSpace_id (l : list string) :
  Forall (fun v => Strings.TrimSpace v = v) l -> map Strings.TrimSpace l = l.
Proof.
  induction 1 as [|v l Hv _ IH]; [reflexivity |].
  cbn [map]. now rewrite Hv, IH.
Qed.

Lemma ContainsAny_two (v : string) (c d : ascii) :
  Strings.ContainsAny v (String c (String d EmptyString)) = false ->
  Strings.Contains v (String c EmptyString) = false
  /\ Strings.Contains v (String d EmptyString) = false.
Proof.
  induction v as [|x v IH]; [now split |].
  cbn [Strings.ContainsAny Strings.mem_byte]. rewrite !Contains_cons_byte.
  rewrite orb_false_r. intros H.
  apply orb_false_iff in H as [Hx Hv]. apply orb_false_iff in Hx as [-> ->].
  destruct (IH Hv) as [-> ->]. now split.
Qed.

(** X3. [parseEnumValues] reads back a list of values written with commas
    or with colons: for values of ASCII text without blanks around them
    and free of both separators, joining and parsing gives the list
    again. *)
Theorem parseEnumValues_Join (values : list string) :
  values <> [] ->
  Forall (fun v => isASCII v = true) values ->
  Forall (fun v => Strings.TrimSpace v = v
                   /\ Strings.ContainsAny v ",:" = false) values ->
  parseEnumValues (Strings.Join values ",") = values
  /\ parseEnumValues (Strings.Join values ":") = values.
Proof.
  intros Hne _ Hall.
  assert (Htrim : Forall (fun v => Strings.TrimSpace v = v) values).
  { eapply Forall_impl; [exact Hall |]. now intros v [Hv _]. }
  assert (Hcomma : Forall (fun v => Strings.Contains v "," = false) values).
  { eapply Forall_impl; [exact Hall |]. intros v [_ Hv].
    now apply ContainsAny_two in Hv. }
  assert (Hcolon : Forall (fun v => Strings.Contains v ":" = false) values).
  { eapply Forall_impl; [exact Hall |]. intros v [_ Hv].
    now apply ContainsAny_two in Hv. }
  unfold parseEnumValues. destruct values as [|a [|b values]]; [contradiction | |].
  - apply Forall_cons in Htrim as [Ha _].
    apply Forall_cons in Hcomma as [Hc1 _]. apply Forall_cons in Hcolon as [Hc2 _].
    cbn [Strings.Join]. rewrite Hc1, Hc2, Ha. now split.
  - split.
    + rewrite Contains_Join_sep, Split_byte, splitByte_Join by assumption.
      now apply map_TrimSpace_id.
    + rewrite (Contains_Join_other "," ":" _ eq_refl Hcomma).
      rewrite Contains_Join_sep, Split_byte, splitByte_Join by assumption.
      now apply map_TrimSpace_id.
Qed.

Lemma parseEnumValues_Join_witness :
  parseEnumValues "bar:line:area" = ["bar"; "line"; "area"].
Proof.
  refine (proj2 (parseEnumValues_Join ["bar"; "line"; "area"] _ _ _)).
  - discriminate.
  - repeat constructor.
  - repeat constructor.
Defined.

Lemma splitByte_nonempty (c : ascii) (s : string) : splitByte c s <> [].
Proof.
  destruct s as [|x s]; [discriminate |].
  cbn [splitByte]. destruct (Ascii.eqb x c); [discriminate |].
  destruct (splitByte c s); discriminate.
Qed.

Section ParserExtras.
Context {lib : GoLib}.

(** X4. [parseEnumValues] never returns the empty list, and the values it
    returns have no blanks around them: an enum key always restricts the
    switch, to the empty text when nothing follows the key. *)
Theorem parseEnumValues_trimmed (value : string) :
  parseEnumValues value <> []
  /\ Forall (fun v => Strings.TrimSpace v = v) (parseEnumValues value)
  /\ forall fm given,
       fm_Type fm = FieldTypeString ->
       fm_Enum fm = parseEnumValues value ->
       parseValueWithValidation given fm
       = if existsb (String.eqb given) (parseEnumValues value)
         then Ok (VString given)
         else Err ("invalid value '" +:+ given +:+ "', must be one of: "
                   +:+ Strings.Join (parseEnumValues value) ", ").
Proof.
  assert (Hmap : forall l, l <> [] ->
                           map Strings.TrimSpace l <> []
                           /\ Forall (fun v => Strings.TrimSpace v = v)
                                (map Strings.TrimSpace l)).
  { intros l Hl. split.
    - destruct l; [contradiction | discriminate].
    - apply Forall_map, Forall_forall. intros v _. apply TrimSpace_idem. }
  assert (Hres : parseEnumValues value <> []
                 /\ Forall (fun v => Strings.TrimSpace v = v)
                      (parseEnumValues value)).
  { unfold parseEnumValues.
    destruct (Strings.Contains value ",").
    { rewrite Split_byte. apply Hmap, splitByte_nonempty. }
    destruct (Strings.Contains value ":").
    { rewrite Split_byte. apply Hmap, splitByte_nonempty. }
    split; [discriminate |]. repeat constructor. apply TrimSpace_idem. }
  destruct Hres as [Hne Htrim]. split; [exact Hne |]. split; [exact Htrim |].
  intros fm given Ht He. unfold parseValueWithValidation, parseValue.
  rewrite Ht, He. cbn [FieldType_eqb andb].
  destruct (parseEnumValues value) as [|v l]; [contradiction |].
  cbn [length]. rewrite Nat2Z.inj_succ.
  destruct (Z.ltb_spec 0 (Z.succ (Z.of_nat (length l)))); [reflexivity | lia].
Qed.

End ParserExtras.

Lemma parseEnumValues_trimmed_witness :
  parseValueWithValidation (lib := runLib) "bar" emptyEnumField
  = Err "invalid value 'bar', must be one of: ".
Proof.
  exact (proj2 (proj2 (parseEnumValues_trimmed (lib := runLib) EmptyString))
           emptyEnumField "bar" eq_refl eq_refl).
Defined.

Lemma ToLower_append (a b : string) :
  Strings.ToLower (a +:+ b) = Strings.ToLower a +:+ Strings.ToLower b.
Proof.
  induction a as [|c a IH]; [reflexivity |].
  rewrite append_cons. cbn [Strings.ToLower]. now rewrite IH, append_cons.
Qed.

Lemma parseFlagName_loop_lower (name : string) :
  forall i, Strings.ToLower (parseFlagName_loop i name) = parseFlagName_loop i name.
Proof.
  induction name as [|r name IH]; intros i; [reflexivity |].
  cbn [parseFlagName_loop].
  rewrite ToLower_append. cbn [Strings.ToLower].
  rewrite toLowerByte_idem, IH.
  now destruct ((0 <? i)%nat && Strings.isUpper r).
Qed.

Lemma parseFlagName_loop_form (name : string) :
  parseFlagName name = "-" +:+ parseFlagName_loop 0 name.
Proof.
  unfold parseFlagName.
  destruct (Z.eqb_spec (Strings.len name) 1) as [Hlen|_]; [| reflexivity].
  destruct name as [|c [|d name]]; try reflexivity.
  unfold Strings.len in Hlen. cbn [String.length] in Hlen. lia.
Qed.

Lemma parseFlagName_lower (name : string) :
  Strings.ToLower (parseFlagName name) = parseFlagName name.
Proof.
  rewrite parseFlagName_loop_form, ToLower_append, parseFlagName_loop_lower.
  reflexivity.
Qed.

Section FlagNames.
Context {lib : GoLib}.

(** X5. A flag name has no letter from A to Z, and switches are compared
    byte by byte: a switch token with such a letter names no field, and
    [Parse] rejects it as unknown. *)
Theorem uppercase_switch_unknown (cmd : GSCommand) :
  (forall f, In f (fields cmd) ->
             Strings.ToLower (parseFlagName (fm_Name f)) = parseFlagName (fm_Name f))
  /\ (forall flag values clause global negated,
         Strings.ToLower flag <> flag ->
         parseFlagWithNegation cmd (flag :: values) clause global negated
         = Err ("unknown flag: " +:+ flag))
  /\ (forall c name rest,
         Strings.ToLower (String c name) <> String c name ->
         Parse cmd (String "-" (String c name) :: rest)
         = Err ("unknown flag: " +:+ String "-" (String c name))).
Proof.
  assert (Hunknown : forall flag, Strings.ToLower flag <> flag ->
                                  lookupFlag (fields cmd) flag = None).
  { intros flag Hflag. destruct (lookupFlag (fields cmd) flag) as [fm|] eqn:Hl;
      [| reflexivity].
    apply lookupFlag_Some in Hl as [-> _]. now rewrite parseFlagName_lower in Hflag. }
  split; [| split].
  - intros f _. apply parseFlagName_lower.
  - intros flag values clause global negated Hflag.
    unfold parseFlagWithNegation. now rewrite (Hunknown flag Hflag).
  - intros c name rest Hflag. unfold Parse. cbn [length].
    erewrite Parse_loop_error; [reflexivity |].
    rewrite (proj1 (Parse_step_switch cmd c name rest _)).
    unfold parseFlagWithNegation. rewrite Hunknown; [reflexivity |].
    cbn [Strings.ToLower] in *. congruence.
Qed.

End FlagNames.

Lemma uppercase_switch_unknown_witness :
  Parse (lib := runLib) (commandOf ChartConfig) ["-Type"; "bar"]
  = Err "unknown flag: -Type".
Proof.
  refine (proj2 (proj2 (uppercase_switch_unknown (lib := runLib)
                          (commandOf ChartConfig))) "T"%char "ype" ["bar"] _).
  discriminate.
Defined.

Lemma toLowerByte_upper (c : ascii) :
  Strings.isUpper c = true ->
  exists b0 b1 b2 b3 b4,
    c = Ascii b0 b1 b2 b3 b4 false true false
    /\ Strings.toLowerByte c = Ascii b0 b1 b2 b3 b4 true true false.
Proof.
  destruct c as [b0 b1 b2 b3 b4 [] [] []]; intros Hc;
    try (exfalso; destruct b0, b1, b2, b3, b4; discriminate Hc).
  exists b0, b1, b2, b3, b4. split; [reflexivity |].
  destruct b0, b1, b2, b3, b4; try discriminate Hc; reflexivity.
Qed.

Lemma toLowerByte_upper_inj (c d : ascii) :
  Strings.isUpper c = true -> Strings.isUpper d = true ->
  Strings.toLowerByte c = Strings.toLowerByte d -> c = d.
Proof.
  intros Hc Hd.
  destruct (toLowerByte_upper c Hc) as (c0 & c1 & c2 & c3 & c4 & -> & ->).
  destruct (toLowerByte_upper d Hd) as (d0 & d1 & d2 & d3 & d4 & -> & ->).
  congruence.
Qed.

Lemma toLowerByte_other (c : ascii) :
  Strings.isUpper c = false -> Strings.toLowerByte c = c.
Proof. unfold Strings.toLowerByte. now intros ->. Qed.

Lemma parseFlagName_loop_inj (a : string) :
  forall b i j,
    Strings.Contains a "-" = false -> Strings.Contains b "-" = false ->
    parseFlagName_loop (S i) a = parseFlagName_loop (S j) b -> a = b.
Proof.
  induction a as [|r1 a IH]; intros [|r2 b] i j Ha Hb.
  - reflexivity.
  - cbn [parseFlagName_loop]. destruct (_ && _); discriminate.
  - cbn [parseFlagName_loop]. destruct (_ && _); discriminate.
  - rewrite Contains_cons_byte in Ha, Hb.
    apply orb_false_iff in Ha as [Hr1 Ha]. apply orb_false_iff in Hb as [Hr2 Hb].
    cbn [parseFlagName_loop]. replace (0 <? S i)%nat with true by reflexivity.
    replace (0 <? S j)%nat with true by reflexivity. cbn [andb].
    destruct (Strings.isUpper r1) eqn:U1, (Strings.isUpper r2) eqn:U2;
      rewrite ?append_cons, ?append_nil_l.
    + intros [= Hl Hrest]. f_equal.
      * now apply toLowerByte_upper_inj.
      * now apply (IH b (S i) (S j)).
    + rewrite (toLowerByte_other r2 U2). intros [= <- _].
      now rewrite Ascii.eqb_refl in Hr2.
    + rewrite (toLowerByte_other r1 U1). intros [= -> _].
      now rewrite Ascii.eqb_refl in Hr1.
    + rewrite (toLowerByte_other r1 U1), (toLowerByte_other r2 U2).
      intros [= -> Hrest]. f_equal. now apply (IH b (S i) (S j)).
Qed.

(** X6. Two different exported field names without a hyphen never share a
    flag name: on such names [parseFlagName] is one to one. *)
Theorem parseFlagName_injective (a b : string) :
  exported a = true -> exported b = true ->
  Strings.Contains a "-" = false -> Strings.Contains b "-" = false ->
  a <> b -> parseFlagName a <> parseFlagName b.
Proof.
  intros Ea Eb Ha Hb Hne Heq. apply Hne. revert Heq.
  rewrite !parseFlagName_loop_form.
  destruct a as [|c1 a]; [discriminate |]. destruct b as [|c2 b]; [discriminate |].
  cbn [exported] in Ea, Eb.
  rewrite Contains_cons_byte in Ha, Hb.
  apply orb_false_iff in Ha as [_ Ha]. apply orb_false_iff in Hb as [_ Hb].
  cbn [parseFlagName_loop]. cbn [Nat.ltb Nat.leb andb].
  rewrite !append_cons, !append_nil_l.
  intros [= Hl Hrest]. f_equal.
  - now apply toLowerByte_upper_inj.
  - now apply (parseFlagName_loop_inj a b 0 0).
Qed.

Lemma parseFlagName_injective_witness :
  parseFlagName "InputFile" <> parseFlagName "InputField".
Proof.
  apply (parseFlagName_injective "InputFile" "InputField");
    [reflexivity | reflexivity | reflexivity | reflexivity | discriminate].
Defined.

(** ** More of the clause parser: defaults and global values *)

Section ParseExtras.
Context {lib : GoLib}.

Lemma applyDefaults_clause_fold (cmd : GSCommand) (c : ClauseSet) :
  Fields (applyDefaults_clause cmd c) = foldl defaultStep (Fields c) (fields cmd).
Proof. reflexivity. Qed.

Lemma defaultStep_keeps (flds : list FieldMeta) :
  forall m k v, m !! k = Some v -> foldl defaultStep m flds !! k = Some v.
Proof.
  induction flds as [|f flds IH]; intros m k v Hm; [exact Hm |].
  cbn [foldl]. apply IH. unfold defaultStep.
  destruct (m !! fm_Name f) eqn:Hf; [exact Hm |].
  destruct (fm_DefaultValue f); [| exact Hm].
  rewrite lookup_insert_ne; [exact Hm |]. congruence.
Qed.

Lemma defaultStep_present (flds : list FieldMeta) :
  forall m f d,
    In f flds -> fm_DefaultValue f = Some d ->
    is_Some (foldl defaultStep m flds !! fm_Name f).
Proof.
  induction flds as [|g flds IH]; intros m f d Hin Hd; [contradiction |].
  cbn [foldl]. destruct Hin as [->|Hin]; [| now apply (IH _ f d)].
  assert (Hs : is_Some (defaultStep m f !! fm_Name f)).
  { unfold defaultStep. destruct (m !! fm_Name f) eqn:Hf.
    - rewrite Hf. now eexists.
    - rewrite Hd, lookup_insert_eq. now eexists. }
  destruct Hs as [v Hv]. exists v. now apply defaultStep_keeps.
Qed.

Lemma defaultStep_ext (flds : list FieldMeta) (k : string) :
  forall m1 m2,
    m1 !! k = m2 !! k ->
    foldl defaultStep m1 flds !! k = foldl defaultStep m2 flds !! k.
Proof.
  induction flds as [|f flds IH]; intros m1 m2 Hm; [exact Hm |].
  cbn [foldl]. apply IH. unfold defaultStep.
  destruct (decide (fm_Name f = k)) as [Heq|Hne].
  - rewrite Heq, <- Hm. destruct (m1 !! k) eqn:H1; [congruence |].
    destruct (fm_DefaultValue f); [now rewrite !lookup_insert_eq | congruence].
  - destruct (m1 !! fm_Name f), (m2 !! fm_Name f), (fm_DefaultValue f);
      rewrite ?lookup_insert_ne by assumption; exact Hm.
Qed.

(** X7. [applyDefaults] returns no error and keeps every clause and every
    value a clause holds; what it adds is the default of a field. After
    [Parse], a field with a default has a value in every clause. *)
Theorem defaults_fill_missing_keys (cmd : GSCommand) :
  (forall clauses,
      exists clauses',
        applyDefaults cmd clauses = Ok clauses'
        /\ length clauses' = length clauses
        /\ forall i c',
             clauses' !! i = Some c' ->
             exists c,
               clauses !! i = Some c
               /\ IsNegated c' = IsNegated c
               /\ (forall k v, Fields c !! k = Some v -> Fields c' !! k = Some v)
               /\ (forall k v,
                      Fields c' !! k = Some v ->
                      Fields c !! k = Some v
                      \/ exists f, In f (fields cmd) /\ fm_Name f = k
                                   /\ fm_DefaultValue f = Some v))
  /\ (forall args clauses c f d,
         Parse cmd args = Ok clauses ->
         In c clauses -> In f (fields cmd) -> fm_DefaultValue f = Some d ->
         is_Some (Fields c !! fm_Name f)).
Proof.
  split.
  - intros clauses. exists (map (applyDefaults_clause cmd) clauses).
    split; [reflexivity |]. split; [apply length_map |].
    intros i c' Hi. rewrite list_lookup_fmap in Hi.
    destruct (clauses !! i) as [c|]; [| discriminate].
    injection Hi as <-. exists c. split; [reflexivity |].
    split; [reflexivity |]. split.
    + intros k v. apply applyDefaults_clause_lookup.
    + intros k v. apply applyDefaults_clause_inv.
  - intros args clauses c f d HP Hc Hf Hd.
    destruct (Parse_clauses cmd args clauses HP) as (st & _ & ->).
    apply in_map_iff in Hc as (c0 & <- & _).
    rewrite applyDefaults_clause_fold. now apply (defaultStep_present _ _ f d).
Qed.

Lemma recordValue_other_key (fm : FieldMeta) (st : ParseState) (v : Value)
    (k : string) :
  (fm_Scope fm = ScopeLocal -> fm_Name fm <> k) ->
  ps_clauses (recordValue fm st v) = ps_clauses st
  /\ Fields (ps_current (recordValue fm st v)) !! k
     = Fields (ps_current st) !! k.
Proof.
  intros Hk. unfold recordValue.
  destruct (fm_Scope fm); [split; reflexivity |].
  split; [reflexivity |]. cbn [ps_current Fields].
  specialize (Hk eq_refl).
  destruct (fm_Type fm); unfold storeValue;
    try (destruct (fm_Mode fm);
         [| destruct (Fields (ps_current st) !! fm_Name fm) as [[]|]]);
    now rewrite lookup_insert_ne.
Qed.

Lemma eqb_mark_prefix (arg mark : string) :
  String.eqb arg mark = true -> Strings.HasPrefix arg mark = true.
Proof.
  intros H. apply String.eqb_eq in H as ->. apply HasPrefix_spec.
  exists EmptyString. now rewrite append_nil_r.
Qed.

Lemma Parse_step_bare (cmd : GSCommand) (arg : string) (rest : list string)
    (st : ParseState) :
  bareToken arg = true ->
  Parse_step cmd arg rest st = Ok (1%Z, recordBare st arg).
Proof.
  unfold bareToken. intros H. apply andb_true_iff in H as [Hp Hm].
  apply negb_true_iff in Hp, Hm. unfold Parse_step.
  destruct (String.eqb arg "+") eqn:E1.
  { apply eqb_mark_prefix in E1. congruence. }
  destruct (String.eqb arg "-") eqn:E2.
  { apply eqb_mark_prefix in E2. congruence. }
  rewrite Hp, Hm. reflexivity.
Qed.

(** What a token of the vector does to the clauses: a separator starts an
    empty clause, a switch records a value, a bare token is recorded. *)
Lemma Parse_step_cases (cmd : GSCommand) (arg : string) (rest : list string)
    (st st' : ParseState) (n : Z) :
  Parse_step cmd arg rest st = Ok (n, st') ->
  (exists b, st' = startClause st b)
  \/ (exists fm v, In fm (fields cmd) /\ st' = recordValue fm st v)
  \/ st' = recordBare st arg.
Proof.
  assert (Hswitch : forall c name negated,
             liftFlag st (parseFlagWithNegation cmd
                            (String "-" (String c name) :: rest)
                            (ps_current st) (ps_global st) negated)
             = Ok (n, st') ->
             exists fm v, In fm (fields cmd) /\ st' = recordValue fm st v).
  { intros c name negated Hr.
    destruct (lookupFlag (fields cmd) (String "-" (String c name)))
      as [fm|] eqn:Hl.
    2:{ unfold parseFlagWithNegation in Hr. rewrite Hl in Hr. discriminate. }
    rewrite (parseFlagWithNegation_switch cmd _ fm rest st negated Hl) in Hr.
    destruct (switchValue fm (String "-" (String c name)) rest)
      as [[consumed v]|]; [| discriminate].
    injection Hr as _ <-. exists fm. eexists. split; [| reflexivity].
    now apply lookupFlag_Some in Hl. }
  destruct (bareToken arg) eqn:Hb.
  { rewrite Parse_step_bare by assumption. intros [= _ <-]. now right; right. }
  unfold Parse_step.
  destruct (String.eqb arg "+"); [intros [= _ <-]; left; now eexists |].
  destruct (String.eqb arg "-"); [intros [= _ <-]; left; now eexists |].
  destruct (Strings.HasPrefix arg "+") eqn:Hp.
  { destruct (1 <? Strings.len arg)%Z eqn:Hl;
      [| intros [= _ <-]; left; now eexists].
    destruct (prefixed_shape arg "+" "+"%char eq_refl Hp Hl) as (c & name & ->).
    change ("-" +:+ Strings.from 1 (String "+" (String c name)))
      with (String "-" (String c name)).
    intros Hr. right; left. now apply (Hswitch c name true). }
  destruct (Strings.HasPrefix arg "-") eqn:Hm.
  { destruct (1 <? Strings.len arg)%Z eqn:Hl;
      [| intros [= _ <-]; left; now eexists].
    destruct (prefixed_shape arg "-" "-"%char eq_refl Hm Hl) as (c & name & ->).
    intros Hr. right; left. now apply (Hswitch c name false). }
  unfold bareToken in Hb. rewrite Hp, Hm in Hb. discriminate.
Qed.

Lemma recordBare_other_key (st : ParseState) (arg k : string) :
  k <> "_args" -> k <> "Argv" ->
  ps_clauses (recordBare st arg) = ps_clauses st
  /\ Fields (ps_current (recordBare st arg)) !! k
     = Fields (ps_current st) !! k.
Proof.
  intros H1 H2. unfold recordBare. split; [reflexivity |].
  cbn [ps_current Fields].
  destruct (tableName arg); [| now rewrite lookup_insert_ne].
  match goal with
  | |- context [match ?x with Some _ => _ | None => _ end] => destruct x
  end; [now rewrite lookup_insert_ne |].
  destruct (ps_global st !! "Argv"); rewrite ?lookup_insert_ne by congruence;
    reflexivity.
Qed.

Lemma Parse_loop_local_keys (cmd : GSCommand) (k : string) (fuel : nat) :
  k <> "_args" -> k <> "Argv" ->
  (forall f, In f (fields cmd) -> fm_Name f = k -> fm_Scope f = ScopeGlobal) ->
  forall args st st',
    Parse_loop cmd fuel args st = Some (Ok st') ->
    (forall c, In c (ps_clauses st ++ [ps_current st]) -> Fields c !! k = None) ->
    forall c, In c (ps_clauses st' ++ [ps_current st']) -> Fields c !! k = None.
Proof.
  intros Hk1 Hk2 Hglobal.
  induction fuel as [|fuel IH]; intros [|arg rest] st st'; cbn [Parse_loop];
    try discriminate; try (now intros [= <-]).
  destruct (Parse_step cmd arg rest st) as [[n st1]|] eqn:Hs; [| discriminate].
  intros Hl Hinv. apply (IH _ _ _ Hl). clear Hl IH.
  intros c Hc. apply in_app_iff in Hc.
  destruct (Parse_step_cases cmd arg rest st st1 n Hs)
    as [[b ->]|[(fm & v & Hfm & ->)| ->]].
  - cbn [startClause ps_clauses ps_current] in Hc.
    destruct Hc as [Hc|[<-|[]]]; [now apply Hinv | apply lookup_empty].
  - destruct (recordValue_other_key fm st v k) as [Hcl Hcur].
    { intros Hlocal Hname. specialize (Hglobal fm Hfm Hname). congruence. }
    rewrite Hcl in Hc. destruct Hc as [Hc|[<-|[]]].
    + apply Hinv, in_app_iff. now left.
    + rewrite Hcur. apply Hinv, in_app_iff. right. now left.
  - destruct (recordBare_other_key st arg k Hk1 Hk2) as [Hcl Hcur].
    rewrite Hcl in Hc. destruct Hc as [Hc|[<-|[]]].
    + apply Hinv, in_app_iff. now left.
    + rewrite Hcur. apply Hinv, in_app_iff. right. now left.
Qed.

(** X8. A global value is the same in every clause: for a key that names
    global fields only, all the clauses of a parse hold the same value, or
    none does. *)
Theorem Parse_global_shared (cmd : GSCommand) (args : list string)
    (clauses : list ClauseSet) (k : string) :
  Parse cmd args = Ok clauses ->
  k <> "_args" -> k <> "Argv" ->
  (forall f, In f (fields cmd) -> fm_Name f = k -> fm_Scope f = ScopeGlobal) ->
  forall c1 c2, In c1 clauses -> In c2 clauses ->
                Fields c1 !! k = Fields c2 !! k.
Proof.
  intros HP Hk1 Hk2 Hglobal c1 c2 H1 H2.
  destruct (Parse_clauses cmd args clauses HP) as (st & Hloop & ->).
  assert (Hinv : forall c, In c (ps_clauses st ++ [ps_current st]) ->
                           Fields c !! k = None).
  { apply (Parse_loop_local_keys cmd k _ Hk1 Hk2 Hglobal _ _ _ Hloop).
    intros c [<-|[]]. apply lookup_empty. }
  apply in_map_iff in H1 as (d1 & <- & Hd1).
  apply in_map_iff in H2 as (d2 & <- & Hd2).
  rewrite !applyDefaults_clause_fold. apply defaultStep_ext.
  unfold applyGlobal. cbn [Fields].
  rewrite !lookup_union_r by now apply Hinv. reflexivity.
Qed.

End ParseExtras.

Lemma Parse_global_shared_witness :
  exists c1 c2,
    Parse (lib := runLib) (commandOf ChartConfig)
      ["-y"; "cpu"; "+"; "-title"; "Load"; "-y"; "disk"] = Ok [c1; c2]
    /\ Fields c1 !! "Title" = Some (VString "Load")
    /\ Fields c1 !! "Title" = Fields c2 !! "Title".
Proof.
  assert (HP : exists c1 c2,
             Parse (lib := runLib) (commandOf ChartConfig)
               ["-y"; "cpu"; "+"; "-title"; "Load"; "-y"; "disk"] = Ok [c1; c2]
             /\ Fields c1 !! "Title" = Some (VString "Load")).
  { do 2 eexists. split; vm_compute; reflexivity. }
  destruct HP as (c1 & c2 & HP & Ht). exists c1, c2.
  split; [exact HP |]. split; [exact Ht |].
  apply (Parse_global_shared (lib := runLib) (commandOf ChartConfig) _ _
           "Title" HP); [discriminate | discriminate | | now left | right; now left].
  intros f Hf Hname. vm_compute in Hf.
  repeat (destruct Hf as [<-|Hf]; [try discriminate Hname; reflexivity |]).
  contradiction.
Defined.

Lemma defaults_fill_missing_keys_witness :
  exists clauses,
    Parse (lib := runLib) (commandOf ChartConfig) ["-y"; "cpu"; "+"; "-y"; "disk"]
    = Ok clauses
    /\ length clauses = 2%nat
    /\ Forall (fun c => is_Some (Fields c !! "Title")) clauses.
Proof.
  assert (HP : exists clauses,
             Parse (lib := runLib) (commandOf ChartConfig)
               ["-y"; "cpu"; "+"; "-y"; "disk"] = Ok clauses
             /\ length clauses = 2%nat).
  { eexists. split; vm_compute; reflexivity. }
  assert (Hf : exists f d,
             fields (commandOf ChartConfig) !! 4%nat = Some f
             /\ fm_Name f = "Title" /\ fm_DefaultValue f = Some d).
  { eexists. eexists. repeat split; vm_compute; reflexivity. }
  destruct HP as (clauses & HP & Hlen). destruct Hf as (f & d & Hf & Hname & Hd).
  exists clauses. split; [exact HP |]. split; [exact Hlen |].
  apply Forall_forall. intros c Hc. rewrite <- Hname.
  apply (proj2 (defaults_fill_missing_keys (lib := runLib) (commandOf ChartConfig))
           _ clauses c f d HP).
  - now apply list_elem_of_In.
  - apply list_elem_of_In. eapply list_elem_of_lookup_2, Hf.
  - exact Hd.
Defined.

(** ** More of the clause parser: switches that lack their values *)

Section ParseBounds.
Context {lib : GoLib}.

Lemma parseMultiArgs_in_bounds (flagName : string) (specs : list ArgumentSpec) :
  forall values argValues,
    (length specs <= length values)%nat ->
    parseMultiArgs flagName specs values argValues <> Err indexPanic.
Proof.
  induction specs as [|spec specs IH]; intros values argValues Hlen;
    cbn [parseMultiArgs]; [discriminate |].
  destruct values as [|value values]; [cbn in Hlen; lia |].
  destruct (parseValueByArgumentType value (arg_Type spec)).
  - apply IH. cbn [length] in Hlen. lia.
  - rewrite append_cons. discriminate.
Qed.

Lemma switchValue_in_bounds (fm : FieldMeta) (flag : string)
    (values : list string) :
  switchValue fm flag values <> Err indexPanic
  /\ switchValue fm flag values <> Err "unreachable".
Proof.
  unfold switchValue.
  destruct (fm_Type fm);
    try (destruct values as [|value values];
         [split; rewrite append_cons; discriminate |];
         destruct (parseValueWithValidation value fm);
         split; rewrite ?append_cons; discriminate).
  - split; discriminate.
  - destruct (length (fm_Args fm) =? 0)%nat;
      [split; rewrite append_cons; discriminate |].
    destruct (Nat.ltb_spec (length values) (length (fm_Args fm)));
      [split; rewrite append_cons; discriminate |].
    pose proof (parseMultiArgs_in_bounds flag (fm_Args fm) values ∅ H) as Hb.
    assert (Hu : parseMultiArgs flag (fm_Args fm) values ∅ <> Err "unreachable").
    { clear. generalize (∅ : gmap string Value).
      revert values. induction (fm_Args fm) as [|spec specs IH];
        intros values m; cbn [parseMultiArgs]; [discriminate |].
      destruct values as [|value values]; [discriminate |].
      destruct (parseValueByArgumentType value (arg_Type spec));
        [apply IH | rewrite append_cons; discriminate]. }
    destruct (parseMultiArgs flag (fm_Args fm) values ∅); split;
      try discriminate; congruence.
Qed.

Lemma Parse_step_in_bounds (cmd : GSCommand) (arg : string) (rest : list string)
    (st : ParseState) :
  Parse_step cmd arg rest st <> Err indexPanic
  /\ Parse_step cmd arg rest st <> Err "unreachable".
Proof.
  assert (Hswitch : forall c name negated,
             liftFlag st (parseFlagWithNegation cmd
                            (String "-" (String c name) :: rest)
                            (ps_current st) (ps_global st) negated)
             <> Err indexPanic
             /\ liftFlag st (parseFlagWithNegation cmd
                               (String "-" (String c name) :: rest)
                               (ps_current st) (ps_global st) negated)
                <> Err "unreachable").
  { intros c name negated.
    destruct (lookupFlag (fields cmd) (String "-" (String c name)))
      as [fm|] eqn:Hl.
    2:{ unfold parseFlagWithNegation. rewrite Hl. cbn [liftFlag].
        split; rewrite append_cons; discriminate. }
    rewrite (parseFlagWithNegation_switch cmd _ fm rest st negated Hl).
    destruct (switchValue_in_bounds fm (String "-" (String c name)) rest)
      as [H1 H2].
    destruct (switchValue fm (String "-" (String c name)) rest) as [[n v]|e];
      split; try discriminate; congruence. }
  destruct (bareToken arg) eqn:Hb.
  { rewrite Parse_step_bare by assumption. split; discriminate. }
  unfold Parse_step.
  destruct (String.eqb arg "+"); [split; discriminate |].
  destruct (String.eqb arg "-"); [split; discriminate |].
  destruct (Strings.HasPrefix arg "+") eqn:Hp.
  { destruct (1 <? Strings.len arg)%Z eqn:Hl; [| split; discriminate].
    destruct (prefixed_shape arg "+" "+"%char eq_refl Hp Hl) as (c & name & ->).
    change ("-" +:+ Strings.from 1 (String "+" (String c name)))
      with (String "-" (String c name)).
    apply (Hswitch c name true). }
  destruct (Strings.HasPrefix arg "-") eqn:Hm.
  { destruct (1 <? Strings.len arg)%Z eqn:Hl; [| split; discriminate].
    destruct (prefixed_shape arg "-" "-"%char eq_refl Hm Hl) as (c & name & ->).
    apply (Hswitch c name false). }
  unfold bareToken in Hb. rewrite Hp, Hm in Hb. discriminate.
Qed.

Lemma Parse_loop_in_bounds (cmd : GSCommand) (fuel : nat) :
  forall args st,
    Parse_loop cmd fuel args st <> Some (Err indexPanic)
    /\ Parse_loop cmd fuel args st <> Some (Err "unreachable").
Proof.
  induction fuel as [|fuel IH]; intros [|arg rest] st; cbn [Parse_loop];
    try (split; discriminate).
  destruct (Parse_step_in_bounds cmd arg rest st) as [H1 H2].
  destruct (Parse_step cmd arg rest st) as [[n st1]|e]; [apply IH |].
  split; congruence.
Qed.

(** X9. [Parse] never indexes the vector out of range: a switch that lacks
    its values is an error of [Parse], in either spelling. A value switch
    at the end of the vector requires a value, a multi-argument switch with
    fewer tokens than argument specifications requires that many
    arguments, and one without specification is refused. *)
Theorem Parse_missing_values (cmd : GSCommand) :
  (forall args, Parse cmd args <> Err indexPanic)
  /\ (forall flag fm values negated,
         lookupFlag (fields cmd) flag = Some fm ->
         fm_Name fm <> EmptyString ->
         (length values < arity fm)%nat ->
         Parse cmd ((if negated : bool then "+" +:+ Strings.from 1 flag else flag)
                    :: values)
         = Err (match fm_Type fm with
                | FieldTypeMulti =>
                    "flag " +:+ flag +:+ " requires "
                    +:+ pretty (length (fm_Args fm)) +:+ " arguments"
                | _ => "flag " +:+ flag +:+ " requires a value"
                end))
  /\ (forall flag fm values negated,
         lookupFlag (fields cmd) flag = Some fm ->
         fm_Name fm <> EmptyString ->
         fm_Type fm = FieldTypeMulti -> fm_Args fm = [] ->
         Parse cmd ((if negated : bool then "+" +:+ Strings.from 1 flag else flag)
                    :: values)
         = Err ("multi-argument flag " +:+ flag
                +:+ " has no argument specification")).
Proof.
  split; [| split].
  - intros args. unfold Parse.
    destruct (Parse_loop_in_bounds cmd (length args) args
                {| ps_clauses := []; ps_current := newClause false;
                   ps_global := ∅ |}) as [H1 _].
    pose proof (Parse_loop_terminates cmd (length args) args
                  {| ps_clauses := []; ps_current := newClause false;
                     ps_global := ∅ |} (Nat.le_refl _)) as H2.
    destruct (Parse_loop cmd (length args) args _) as [[st|e]|];
      [discriminate | congruence | contradiction].
  - intros flag fm values negated Hl Hname Hlen. unfold Parse. cbn [length].
    erewrite Parse_loop_error; [reflexivity |].
    rewrite (Parse_step_known cmd flag fm values _ negated Hl Hname).
    unfold switchValue, arity in *.
    destruct (fm_Type fm);
      try (destruct values; [reflexivity | cbn [length] in Hlen; lia]).
    + lia.
    + destruct (Nat.eqb_spec (length (fm_Args fm)) 0); [lia |].
      destruct (Nat.ltb_spec (length values) (length (fm_Args fm)));
        [reflexivity | lia].
  - intros flag fm values negated Hl Hname Ht Ha. unfold Parse. cbn [length].
    erewrite Parse_loop_error; [reflexivity |].
    rewrite (Parse_step_known cmd flag fm values _ negated Hl Hname).
    unfold switchValue. rewrite Ht, Ha. reflexivity.
Qed.

End ParseBounds.

Lemma Parse_missing_values_witness :
  Parse (lib := runLib) (commandOf ChartConfig) ["+match"; "host"]
  = Err "flag -match requires 2 arguments".
Proof.
  assert (Hl : exists fm,
             lookupFlag (fields (commandOf ChartConfig)) "-match" = Some fm
             /\ fm_Name fm = "Match" /\ fm_Type fm = FieldTypeMulti
             /\ length (fm_Args fm) = 2%nat).
  { eexists. repeat split; vm_compute; reflexivity. }
  destruct Hl as (fm & Hl & Hname & Ht & Ha).
  pose proof (proj1 (proj2 (Parse_missing_values (lib := runLib)
                              (commandOf ChartConfig)))
                "-match" fm ["host"] true Hl) as H.
  rewrite Ht, Ha in H. apply H.
  - rewrite Hname. discriminate.
  - unfold arity. rewrite Ht, Ha. cbn. lia.
Defined.

(** ** More of the clause parser: bare tokens and repeated switches *)

Section ParseValues.
Context {lib : GoLib}.

Lemma Parse_loop_bare (cmd : GSCommand) (pre : list string) :
  forall more st fuel,
    Forall (fun a => bareToken a = true) pre ->
    (length (pre ++ more) <= fuel)%nat ->
    Parse_loop cmd fuel (pre ++ more) st
    = Parse_loop cmd (fuel - length pre) more (foldl recordBare st pre).
Proof.
  induction pre as [|a pre IH]; intros more st fuel Hbare Hlen.
  - cbn [app foldl length]. now rewrite Nat.sub_0_r.
  - apply Forall_cons in Hbare as [Ha Hbare].
    destruct fuel as [|fuel]; [cbn in Hlen; lia |].
    cbn [app]. rewrite (Parse_loop_step cmd fuel a (pre ++ more) st _ 1%Z
                          (Parse_step_bare cmd a _ st Ha)).
    change (Z.to_nat 1) with 1%nat. cbn [drop foldl length]. rewrite drop_0.
    rewrite IH; [reflexivity | assumption | cbn in Hlen; lia].
Qed.

Lemma recordBare_args (st : ParseState) (arg : string) :
  Fields (ps_current (recordBare st arg)) !! "_args"
  = Some (VStrings (getStringSlice (Fields (ps_current st) !! "_args") ++ [arg])).
Proof.
  unfold recordBare. cbn [ps_current Fields].
  destruct (tableName arg); [| apply lookup_insert_eq].
  match goal with
  | |- context [match ?x with Some _ => _ | None => _ end] => destruct x
  end; [apply lookup_insert_eq |].
  destruct (ps_global st !! "Argv"); [apply lookup_insert_eq |].
  rewrite lookup_insert_ne by discriminate. apply lookup_insert_eq.
Qed.

Lemma recordBare_Argv (st : ParseState) (arg : string) :
  Fields (ps_current (recordBare st arg)) !! "Argv"
  = match Fields (ps_current st) !! "Argv" with
    | Some v => Some v
    | None =>
        match ps_global st !! "Argv" with
        | Some _ => None
        | None => if tableName arg then Some (VString arg) else None
        end
    end.
Proof.
  unfold recordBare. cbn [ps_current Fields].
  rewrite (lookup_insert_ne (Fields (ps_current st)) "_args" "Argv")
    by discriminate.
  destruct (tableName arg).
  - destruct (Fields (ps_current st) !! "Argv") as [v|] eqn:Hv.
    + now rewrite lookup_insert_ne by discriminate.
    + destruct (ps_global st !! "Argv").
      * now rewrite lookup_insert_ne by discriminate.
      * apply lookup_insert_eq.
  - rewrite lookup_insert_ne by discriminate.
    destruct (Fields (ps_current st) !! "Argv"); [reflexivity |].
    now destruct (ps_global st !! "Argv").
Qed.

Lemma recordBare_frame (st : ParseState) (arg : string) :
  ps_clauses (recordBare st arg) = ps_clauses st
  /\ ps_global (recordBare st arg) = ps_global st
  /\ IsNegated (ps_current (recordBare st arg)) = IsNegated (ps_current st).
Proof. repeat split. Qed.

Lemma recordBare_fold (pre : list string) :
  forall st,
    ps_clauses (foldl recordBare st pre) = ps_clauses st
    /\ ps_global (foldl recordBare st pre) = ps_global st
    /\ IsNegated (ps_current (foldl recordBare st pre))
       = IsNegated (ps_current st)
    /\ (pre <> [] ->
        Fields (ps_current (foldl recordBare st pre)) !! "_args"
        = Some (VStrings (getStringSlice (Fields (ps_current st) !! "_args")
                          ++ pre)))
    /\ Fields (ps_current (foldl recordBare st pre)) !! "Argv"
       = match Fields (ps_current st) !! "Argv" with
         | Some v => Some v
         | None =>
             match ps_global st !! "Argv" with
             | Some _ => None
             | None => VString <$> List.find tableName pre
             end
         end.
Proof.
  induction pre as [|a pre IH]; intros st.
  - cbn [foldl List.find]. repeat split; [contradiction |].
    destruct (Fields (ps_current st) !! "Argv"); [reflexivity |].
    now destruct (ps_global st !! "Argv").
  - cbn [foldl]. destruct (IH (recordBare st a)) as (Hc & Hg & Hn & Ha & Hv).
    destruct (recordBare_frame st a) as (Fc & Fg & Fn).
    split; [congruence |]. split; [congruence |]. split; [congruence |]. split.
    + intros _. destruct pre as [|b pre].
      * cbn [foldl]. apply recordBare_args.
      * rewrite Ha by discriminate. rewrite recordBare_args.
        cbn [getStringSlice]. now rewrite <- app_assoc.
    + rewrite Hv, recordBare_Argv, Fg. cbn [List.find].
      destruct (Fields (ps_current st) !! "Argv"); [reflexivity |].
      destruct (ps_global st !! "Argv"); [reflexivity |].
      now destruct (tableName a).
Qed.

Lemma Parse_bare_clause (cmd : GSCommand) (args : list string) :
  args <> [] ->
  Forall (fun a => bareToken a = true) args ->
  exists c,
    Parse cmd args = Ok [c]
    /\ IsNegated c = false
    /\ Fields c !! "_args" = Some (VStrings args)
    /\ forall a, List.find tableName args = Some a ->
                 Fields c !! "Argv" = Some (VString a).
Proof.
  intros Hne Hbare. unfold Parse.
  set (st0 := {| ps_clauses := []; ps_current := newClause false;
                 ps_global := ∅ |}).
  pose proof (Parse_loop_bare cmd args [] st0 (length args) Hbare) as Hloop.
  rewrite app_nil_r in Hloop. rewrite (Hloop (Nat.le_refl _)).
  rewrite Nat.sub_diag. cbn [Parse_loop].
  destruct (recordBare_fold args st0) as (Hc & Hg & Hn & Ha & Hv).
  rewrite Hc, Hg. subst st0. cbn [ps_clauses ps_global ps_current app map] in *.
  unfold applyDefaults. cbn [map].
  eexists. split; [reflexivity |].
  split; [exact Hn |]. split.
  - apply applyDefaults_clause_lookup. unfold applyGlobal. cbn [Fields].
    rewrite (right_id_L ∅ (∪)). rewrite (Ha Hne). reflexivity.
  - intros a Hfind. apply applyDefaults_clause_lookup.
    unfold applyGlobal. cbn [Fields]. rewrite (right_id_L ∅ (∪)).
    rewrite Hv, Hfind. reflexivity.
Qed.

(** X10. A vector of bare tokens is one positive clause: [_args] lists the
    tokens in their order, and [Argv] is the first of them that is named
    like a table, in either letter case. *)
Theorem Parse_bare_tokens (cmd : GSCommand) (args : list string) :
  args <> [] ->
  Forall (fun a => bareToken a = true) args ->
  exists c,
    Parse cmd args = Ok [c]
    /\ IsNegated c = false
    /\ Fields c !! "_args" = Some (VStrings args)
    /\ forall a, List.find tableName args = Some a ->
                 Fields c !! "Argv" = Some (VString a).
Proof. apply Parse_bare_clause. Qed.

Lemma recordValue_target (fm : FieldMeta) (st : ParseState) (v : Value) :
  fm_Type fm <> FieldTypeFlag ->
  targetOf fm (recordValue fm st v) = storeValue fm (targetOf fm st) v
  /\ ps_clauses (recordValue fm st v) = ps_clauses st
  /\ IsNegated (ps_current (recordValue fm st v)) = IsNegated (ps_current st)
  /\ (fm_Scope fm = ScopeGlobal ->
      ps_current (recordValue fm st v) = ps_current st)
  /\ (fm_Scope fm = ScopeLocal ->
      ps_global (recordValue fm st v) = ps_global st).
Proof.
  intros Ht. unfold targetOf, recordValue.
  destruct (fm_Scope fm), (fm_Type fm); try contradiction;
    repeat split; discriminate.
Qed.

Lemma storeValue_list (fm : FieldMeta) (pvs : list Value) :
  fm_Mode fm = ModeList ->
  forall target l,
    target !! fm_Name fm = Some (VList l) ->
    foldl (storeValue fm) target pvs !! fm_Name fm = Some (VList (l ++ pvs)).
Proof.
  intros Hm. induction pvs as [|pv pvs IH]; intros target l Ht.
  - cbn [foldl]. now rewrite app_nil_r.
  - cbn [foldl]. rewrite (IH _ (l ++ [pv])).
    + now rewrite <- app_assoc.
    + unfold storeValue. rewrite Hm, Ht. apply lookup_insert_eq.
Qed.

Lemma storeValue_fold (fm : FieldMeta) (pvs : list Value)
    (target : gmap string Value) :
  target !! fm_Name fm = None ->
  pvs <> [] ->
  foldl (storeValue fm) target pvs !! fm_Name fm
  = match fm_Mode fm with
    | ModeList => Some (VList pvs)
    | ModeLast => last pvs
    end.
Proof.
  intros Ht Hne. destruct (fm_Mode fm) eqn:Hm.
  - revert target Ht. induction pvs as [|pv pvs IH]; intros target Ht;
      [contradiction |].
    cbn [foldl]. destruct pvs as [|pv' pvs].
    + cbn [foldl]. unfold storeValue. rewrite Hm. apply lookup_insert_eq.
    + assert (Hs : forall t, storeValue fm t pv = <[fm_Name fm := pv]> t).
      { intros t. unfold storeValue. now rewrite Hm. }
      rewrite Hs.
      assert (Hlast : forall l t,
                 l <> [] -> foldl (storeValue fm) t l !! fm_Name fm = last l).
      { clear -Hm. induction l as [|x [|y l] IHl]; intros t Hl; [contradiction | |].
        - cbn [foldl]. unfold storeValue. rewrite Hm. apply lookup_insert_eq.
        - cbn [foldl] in *. rewrite (IHl _ ltac:(discriminate)). reflexivity. }
      rewrite Hlast by discriminate. reflexivity.
  - destruct pvs as [|pv pvs]; [contradiction |]. cbn [foldl].
    rewrite (storeValue_list fm pvs Hm _ [pv]); [reflexivity |].
    unfold storeValue. rewrite Hm, Ht. apply lookup_insert_eq.
Qed.

Lemma Parse_loop_values (cmd : GSCommand) (flag : string) (fm : FieldMeta)
    (vs : list string) :
  lookupFlag (fields cmd) flag = Some fm ->
  fm_Name fm <> EmptyString ->
  fm_Type fm <> FieldTypeFlag -> fm_Type fm <> FieldTypeMulti ->
  forall pvs more st fuel,
    Forall2 (fun v pv => parseValueWithValidation v fm = Ok pv) vs pvs ->
    (length (flat_map (fun v => [flag; v]) vs ++ more) <= fuel)%nat ->
    Parse_loop cmd fuel (flat_map (fun v => [flag; v]) vs ++ more) st
    = Parse_loop cmd (fuel - length vs) more (foldl (recordValue fm) st pvs).
Proof.
  intros Hl Hname Hflag Hmulti.
  induction vs as [|v vs IH]; intros pvs more st fuel Hpv Hlen.
  - apply Forall2_nil_inv_l in Hpv as ->. cbn [flat_map app foldl length].
    now rewrite Nat.sub_0_r.
  - apply Forall2_cons_inv_l in Hpv as (pv & pvs' & Hv & Hpv & ->).
    cbn [flat_map app] in *. cbn [length] in Hlen.
    destruct fuel as [|fuel]; [lia |].
    assert (Hs : Parse_step cmd flag (v :: flat_map (fun v => [flag; v]) vs ++ more) st
                 = Ok (2%Z, recordValue fm st pv)).
    { pose proof (Parse_step_known cmd flag fm
                    (v :: flat_map (fun v => [flag; v]) vs ++ more) st false
                    Hl Hname) as Hk.
      cbv beta iota in Hk. rewrite Hk. unfold switchValue. rewrite Hv.
      destruct (fm_Type fm); try contradiction; reflexivity. }
    rewrite (Parse_loop_step cmd fuel flag _ st _ 2%Z Hs).
    change (Z.to_nat 2) with 2%nat. cbn [drop foldl length]. rewrite drop_0.
    rewrite (IH pvs' more _ fuel Hpv) by lia.
    reflexivity.
Qed.

Lemma recordValue_fold (fm : FieldMeta) (pvs : list Value) :
  fm_Type fm <> FieldTypeFlag ->
  forall st,
    targetOf fm (foldl (recordValue fm) st pvs)
    = foldl (storeValue fm) (targetOf fm st) pvs
    /\ ps_clauses (foldl (recordValue fm) st pvs) = ps_clauses st
    /\ IsNegated (ps_current (foldl (recordValue fm) st pvs))
       = IsNegated (ps_current st)
    /\ (fm_Scope fm = ScopeGlobal ->
        ps_current (foldl (recordValue fm) st pvs) = ps_current st)
    /\ (fm_Scope fm = ScopeLocal ->
        ps_global (foldl (recordValue fm) st pvs) = ps_global st).
Proof.
  intros Ht. induction pvs as [|pv pvs IH]; intros st; [repeat split |].
  cbn [foldl]. destruct (IH (recordValue fm st pv)) as (H1 & H2 & H3 & H4 & H5).
  destruct (recordValue_target fm st pv Ht) as (R1 & R2 & R3 & R4 & R5).
  rewrite H1, H2, H3, R1, R2, R3. repeat split.
  - intros Hg. rewrite (H4 Hg). now apply R4.
  - intros Hloc. rewrite (H5 Hloc). now apply R5.
Qed.

(** X11. A switch given several times in one clause: with multiplicity list
    its values are collected in the order of the vector, with multiplicity
    last the last one stays. *)
Theorem Parse_collects_values (cmd : GSCommand) (flag : string) (fm : FieldMeta)
    (vs : list string) (pvs : list Value) :
  lookupFlag (fields cmd) flag = Some fm ->
  fm_Name fm <> EmptyString ->
  fm_Type fm <> FieldTypeFlag -> fm_Type fm <> FieldTypeMulti ->
  vs <> [] ->
  Forall2 (fun v pv => parseValueWithValidation v fm = Ok pv) vs pvs ->
  exists c,
    Parse cmd (flat_map (fun v => [flag; v]) vs) = Ok [c]
    /\ IsNegated c = false
    /\ Fields c !! fm_Name fm
       = match fm_Mode fm with
         | ModeList => Some (VList pvs)
         | ModeLast => last pvs
         end.
Proof.
  intros Hl Hname Hflag Hmulti Hne Hpv. unfold Parse.
  set (st0 := {| ps_clauses := []; ps_current := newClause false;
                 ps_global := ∅ |}).
  pose proof (Parse_loop_values cmd flag fm vs Hl Hname Hflag Hmulti pvs [] st0
                (length (flat_map (fun v => [flag; v]) vs)) Hpv) as Hloop.
  rewrite app_nil_r in Hloop. rewrite (Hloop (Nat.le_refl _)). clear Hloop.
  assert (Hfuel : forall n, Parse_loop cmd n [] (foldl (recordValue fm) st0 pvs)
                            = Some (Ok (foldl (recordValue fm) st0 pvs))).
  { now intros [|n]. }
  rewrite Hfuel.
  destruct (recordValue_fold fm pvs Hflag st0) as (Ht & Hc & Hn & Hg & Hloc).
  assert (Hpvs : pvs <> []).
  { intros ->. apply Forall2_nil_inv_r in Hpv. contradiction. }
  pose proof (storeValue_fold fm pvs (targetOf fm st0)) as Hstore.
  rewrite <- Ht in Hstore.
  assert (Hempty : targetOf fm st0 !! fm_Name fm = None).
  { unfold targetOf. destruct (fm_Scope fm); apply lookup_empty. }
  specialize (Hstore Hempty Hpvs).
  rewrite Hc. subst st0. cbn [ps_clauses ps_global ps_current app map] in *.
  unfold applyDefaults. cbn [map]. eexists. split; [reflexivity |].
  split; [exact Hn |].
  assert (Hsome : is_Some (match fm_Mode fm with
                           | ModeList => Some (VList pvs)
                           | ModeLast => last pvs
                           end)).
  { destruct (fm_Mode fm); [| now eexists].
    destruct pvs as [|pv pvs] using rev_ind; [contradiction |].
    rewrite last_snoc. now eexists. }
  destruct Hsome as [v Hv]. rewrite Hv in *.
  apply applyDefaults_clause_lookup. unfold applyGlobal. cbn [Fields].
  unfold targetOf in Hstore. destruct (fm_Scope fm) eqn:Hscope.
  - rewrite (Hg eq_refl). cbn [Fields newClause].
    rewrite lookup_union_r by apply lookup_empty. exact Hstore.
  - apply lookup_union_Some_l. exact Hstore.
Qed.

(** X12. A bare table file and the switch of the [Argv] field in one
    clause: a bare table never replaces an [Argv] given before it. Given
    after it, a per-clause switch replaces the bare table, and a global
    switch does not: the clause keeps the bare table. *)
Theorem Parse_bare_table_and_argv (cmd : GSCommand) (fm : FieldMeta)
    (a b : string) :
  lookupFlag (fields cmd) "-argv" = Some fm ->
  fm_Name fm = "Argv" -> fm_Type fm = FieldTypeFile -> fm_Mode fm = ModeLast ->
  bareToken a = true -> tableName a = true ->
  exists c1 c2,
    Parse cmd ["-argv"; b; a] = Ok [c1]
    /\ Fields c1 !! "Argv" = Some (VString b)
    /\ Parse cmd [a; "-argv"; b] = Ok [c2]
    /\ Fields c2 !! "Argv"
       = Some (VString match fm_Scope fm with
                       | ScopeGlobal => a
                       | ScopeLocal => b
                       end).
Proof.
  intros Hl Hname Ht Hm Hbare Htable.
  assert (Hn : fm_Name fm <> EmptyString) by (rewrite Hname; discriminate).
  assert (Hflag : fm_Type fm <> FieldTypeFlag) by (rewrite Ht; discriminate).
  assert (Hmulti : fm_Type fm <> FieldTypeMulti) by (rewrite Ht; discriminate).
  assert (Hpv : Forall2 (fun v pv => parseValueWithValidation v fm = Ok pv)
                  [b] [VString b]).
  { repeat constructor. unfold parseValueWithValidation, parseValue.
    rewrite Ht. reflexivity. }
  assert (Hstore : forall t, storeValue fm t (VString b) = <["Argv" := VString b]> t).
  { intros t. unfold storeValue. now rewrite Hm, Hname. }
  set (st0 := {| ps_clauses := []; ps_current := newClause false;
                 ps_global := ∅ |}).
  assert (Hend : forall n st, Parse_loop cmd n [] st = Some (Ok st)).
  { now intros [|n] st. }
  unfold Parse. fold st0.
  (* the switch first *)
  pose proof (Parse_loop_values cmd "-argv" fm [b] Hl Hn Hflag Hmulti
                [VString b] [a] st0 3 Hpv (Nat.le_refl _)) as H1.
  cbn [flat_map app foldl length Nat.sub] in H1.
  pose proof (Parse_loop_bare cmd [a] [] (recordValue fm st0 (VString b)) 2
                ltac:(repeat constructor; exact Hbare) ltac:(cbn; lia)) as H1'.
  cbn [app foldl length Nat.sub] in H1'.
  (* the bare table first *)
  pose proof (Parse_loop_bare cmd [a] ["-argv"; b] st0 3
                ltac:(repeat constructor; exact Hbare) ltac:(cbn; lia)) as H2.
  cbn [app foldl length Nat.sub] in H2.
  pose proof (Parse_loop_values cmd "-argv" fm [b] Hl Hn Hflag Hmulti
                [VString b] [] (recordBare st0 a) 2 Hpv (Nat.le_refl _)) as H2'.
  cbn [flat_map app foldl length Nat.sub] in H2'.
  cbn [length]. rewrite H1, H1', H2, H2', !Hend.
  destruct (recordValue_target fm st0 (VString b) Hflag)
    as (T1 & C1 & _ & G1 & L1).
  destruct (recordValue_target fm (recordBare st0 a) (VString b) Hflag)
    as (T2 & C2 & _ & G2 & L2).
  rewrite Hstore in T1, T2. unfold targetOf in T1, T2.
  pose proof (recordBare_Argv (recordValue fm st0 (VString b)) a) as A1.
  pose proof (recordBare_Argv st0 a) as A2.
  rewrite Htable in A1, A2.
  destruct (recordBare_frame (recordValue fm st0 (VString b)) a)
    as (FC1 & FG1 & _).
  rewrite C2, FC1, C1. subst st0.
  cbn [ps_clauses ps_global ps_current app map Fields newClause] in *.
  unfold applyDefaults. cbn [map]. do 2 eexists.
  split; [reflexivity |]. split; [| split; [reflexivity |]];
    apply applyDefaults_clause_lookup; unfold applyGlobal; cbn [Fields].
  - destruct (fm_Scope fm).
    + rewrite (G1 eq_refl) in A1. cbn [Fields newClause] in A1.
      rewrite T1, lookup_insert_eq in A1. rewrite lookup_empty in A1.
      rewrite lookup_union_r by exact A1.
      rewrite FG1, T1. apply lookup_insert_eq.
    + rewrite T1, lookup_insert_eq in A1. now apply lookup_union_Some_l.
  - rewrite lookup_empty in A2. destruct (fm_Scope fm).
    + rewrite (G2 eq_refl). now apply lookup_union_Some_l.
    + apply lookup_union_Some_l. rewrite T2. apply lookup_insert_eq.
Qed.

End ParseValues.

Lemma Parse_bare_tokens_witness :
  exists c,
    Parse (lib := runLib) (commandOf ChartConfig) ["notes.txt"; "Data.TSV"; "b.csv"]
    = Ok [c]
    /\ Fields c !! "_args" = Some (VStrings ["notes.txt"; "Data.TSV"; "b.csv"])
    /\ Fields c !! "Argv" = Some (VString "Data.TSV").
Proof.
  destruct (Parse_bare_tokens (lib := runLib) (commandOf ChartConfig)
              ["notes.txt"; "Data.TSV"; "b.csv"]) as (c & HP & _ & Ha & Hv).
  - discriminate.
  - repeat constructor.
  - exists c. split; [exact HP |]. split; [exact Ha |]. now apply Hv.
Defined.

Lemma Parse_collects_values_witness :
  exists c,
    Parse (lib := runLib) (commandOf ChartConfig) ["-y"; "cpu"; "-y"; "disk"; "-y"; "net"]
    = Ok [c]
    /\ Fields c !! "Y" = Some (VList [VString "cpu"; VString "disk"; VString "net"]).
Proof.
  assert (Hl : exists fm,
             lookupFlag (fields (commandOf ChartConfig)) "-y" = Some fm
             /\ fm_Name fm = "Y" /\ fm_Type fm = FieldTypeField
             /\ fm_Mode fm = ModeList).
  { eexists. repeat split; vm_compute; reflexivity. }
  destruct Hl as (fm & Hl & Hname & Ht & Hm).
  destruct (Parse_collects_values (lib := runLib) (commandOf ChartConfig) "-y" fm
              ["cpu"; "disk"; "net"]
              [VString "cpu"; VString "disk"; VString "net"] Hl)
    as (c & HP & _ & Hy).
  - rewrite Hname. discriminate.
  - rewrite Ht. discriminate.
  - rewrite Ht. discriminate.
  - discriminate.
  - repeat constructor; unfold parseValueWithValidation, parseValue;
      rewrite Ht; reflexivity.
  - exists c. split; [exact HP |]. rewrite Hname, Hm in Hy. exact Hy.
Defined.

Lemma Parse_bare_table_and_argv_witness :
  exists c1 c2,
    Parse (lib := runLib) (commandOf ChartConfig) ["-argv"; "b.tsv"; "a.tsv"] = Ok [c1]
    /\ Fields c1 !! "Argv" = Some (VString "b.tsv")
    /\ Parse (lib := runLib) (commandOf ChartConfig) ["a.tsv"; "-argv"; "b.tsv"] = Ok [c2]
    /\ Fields c2 !! "Argv" = Some (VString "a.tsv").
Proof.
  assert (Hl : exists fm,
             lookupFlag (fields (commandOf ChartConfig)) "-argv" = Some fm
             /\ fm_Name fm = "Argv" /\ fm_Type fm = FieldTypeFile
             /\ fm_Mode fm = ModeLast /\ fm_Scope fm = ScopeGlobal).
  { eexists. repeat split; vm_compute; reflexivity. }
  destruct Hl as (fm & Hl & Hname & Ht & Hm & Hs).
  destruct (Parse_bare_table_and_argv (lib := runLib) (commandOf ChartConfig) fm
              "a.tsv" "b.tsv" Hl Hname Ht Hm eq_refl eq_refl)
    as (c1 & c2 & P1 & A1 & P2 & A2).
  rewrite Hs in A2. exists c1, c2.
  exact (conj P1 (conj A1 (conj P2 A2))).
Defined.

(** ** More of completion: switches, declared values and the table file *)

Lemma prefixMatches_In (partial : string) (candidates : list string) (c : string) :
  In c (prefixMatches partial candidates)
  <-> In c candidates
      /\ Strings.HasPrefix (Strings.ToLower c) (Strings.ToLower partial) = true.
Proof.
  unfold prefixMatches. rewrite <- !list_elem_of_In, list_elem_of_filter.
  tauto.
Qed.

Lemma lookupFlag_In (flds : list FieldMeta) (f : FieldMeta) :
  In f flds -> lookupFlag flds (parseFlagName (fm_Name f)) <> None.
Proof.
  induction flds as [|g flds IH]; [contradiction |].
  intros Hin. cbn [lookupFlag].
  destruct (String.eqb (parseFlagName (fm_Name f)) (parseFlagName (fm_Name g)))
    eqn:E; [discriminate |].
  destruct Hin as [->|Hin]; [now rewrite String.eqb_refl in E | now apply IH].
Qed.

Lemma minus_spelling (name : string) :
  "-" +:+ Strings.from 1 (parseFlagName name) = parseFlagName name
  /\ "-" +:+ Strings.from 1 (plusSpelling (parseFlagName name))
     = parseFlagName name.
Proof. rewrite parseFlagName_loop_form. split; reflexivity. Qed.

Lemma completeFlags_In (cmd : GSCommand) (partial c : string) :
  In c (completeFlags cmd partial)
  <-> Strings.HasPrefix (Strings.ToLower c) (Strings.ToLower partial) = true
      /\ ((exists f, In f (fields cmd)
                     /\ (c = parseFlagName (fm_Name f)
                         \/ c = plusSpelling (parseFlagName (fm_Name f))))
          \/ In c commonFlags).
Proof.
  unfold completeFlags. rewrite in_app_iff, in_flat_map, filter_In.
  fold plusSpelling. split.
  - intros [(f & Hf & Hc)|[Hc Hp]]; [| split; [exact Hp | now right]].
    apply in_app_iff in Hc as [Hc|Hc].
    + destruct (Strings.HasPrefix _ _) eqn:E in Hc; [| contradiction].
      destruct Hc as [<-|[]]. split; [exact E |]. left. exists f. auto.
    + fold (plusSpelling (parseFlagName (fm_Name f))) in Hc.
      destruct (Strings.HasPrefix _ _) eqn:E in Hc; [| contradiction].
      destruct Hc as [<-|[]]. split; [exact E |]. left. exists f. auto.
  - intros [Hp [(f & Hf & [->| ->])|Hc]].
    + left. exists f. split; [exact Hf |]. apply in_app_iff. left.
      rewrite Hp. now left.
    + left. exists f. split; [exact Hf |]. apply in_app_iff. right.
      fold (plusSpelling (parseFlagName (fm_Name f))). rewrite Hp. now left.
    + right. now split.
Qed.

(** X13. [completeFlags] offers the two spellings of every field whose
    spelling starts with the partial token, letter case apart, and the
    built-in switches in the [-] spelling only: so for a partial token and
    a candidate of ASCII text, where letter case is that of the letters A
    to Z. Every candidate that is no built-in names a field that [Parse]
    resolves. *)
Theorem completeFlags_offers_known_switches (cmd : GSCommand) (partial : string) :
  (forall c,
      isASCII partial = true -> isASCII c = true ->
      In c (completeFlags cmd partial)
      <-> Strings.HasPrefix (Strings.ToLower c) (Strings.ToLower partial) = true
          /\ ((exists f, In f (fields cmd)
                         /\ (c = parseFlagName (fm_Name f)
                             \/ c = plusSpelling (parseFlagName (fm_Name f))))
              \/ In c commonFlags))
  /\ (forall c,
         In c (completeFlags cmd partial) ->
         In c commonFlags
         \/ lookupFlag (fields cmd) ("-" +:+ Strings.from 1 c) <> None).
Proof.
  split; [intros c _ _; apply completeFlags_In |].
  intros c Hc. apply completeFlags_In in Hc as [_ [(f & Hf & Hc)|Hc]];
    [right | now left].
  destruct (minus_spelling (fm_Name f)) as [Hm Hp].
  destruct Hc as [-> | ->]; rewrite ?Hm, ?Hp; now apply lookupFlag_In.
Qed.

Section EnumExtras.
Context {lib : GoLib}.

(** X14. What [completeEnum] offers, [Parse] accepts: a candidate is a
    declared value that starts with the partial token, letter case apart
    (for a token and a candidate of ASCII text, where letter case is that
    of the letters A to Z), and the validation of the switch takes it.
    Validation compares byte by byte: of the partial token itself it takes
    the declared spelling only. *)
Theorem completeEnum_offers_valid_values (fm : FieldMeta) (partial c : string) :
  fm_Type fm = FieldTypeString ->
  isASCII partial = true -> isASCII c = true ->
  In c (completeEnum (Some fm) partial) ->
  In c (fm_Enum fm)
  /\ Strings.HasPrefix (Strings.ToLower c) (Strings.ToLower partial) = true
  /\ parseValueWithValidation c fm = Ok (VString c)
  /\ (parseValueWithValidation partial fm = Ok (VString partial)
      <-> In partial (fm_Enum fm)).
Proof.
  intros Ht _ _ Hc. unfold completeEnum in Hc.
  destruct (Z.eqb_spec (Z.of_nat (length (fm_Enum fm))) 0) as [|Hlen];
    [contradiction |].
  apply prefixMatches_In in Hc as [Hin Hp].
  assert (Hval : forall v, parseValueWithValidation v fm
                           = if existsb (String.eqb v) (fm_Enum fm)
                             then Ok (VString v)
                             else Err ("invalid value '" +:+ v
                                       +:+ "', must be one of: "
                                       +:+ Strings.Join (fm_Enum fm) ", ")).
  { intros v. unfold parseValueWithValidation, parseValue. rewrite Ht.
    cbn [FieldType_eqb andb].
    destruct (Z.ltb_spec 0 (Z.of_nat (length (fm_Enum fm)))); [reflexivity | lia]. }
  assert (Hex : forall v, existsb (String.eqb v) (fm_Enum fm) = true
                          <-> In v (fm_Enum fm)).
  { intros v. rewrite existsb_exists. split.
    - intros (x & Hx & E). apply String.eqb_eq in E as ->. exact Hx.
    - intros Hv. exists v. split; [exact Hv | apply String.eqb_refl]. }
  split; [exact Hin |]. split; [exact Hp |]. split.
  - rewrite Hval. apply Hex in Hin. now rewrite Hin.
  - rewrite Hval, <- Hex.
    destruct (existsb (String.eqb partial) (fm_Enum fm)); split;
      (reflexivity || discriminate).
Qed.

End EnumExtras.

Lemma completeEnum_offers_valid_values_witness :
  parseValueWithValidation (lib := runLib) "bar" typeField = Ok (VString "bar")
  /\ (parseValueWithValidation (lib := runLib) "B" typeField = Ok (VString "B")
      <-> In "B" (fm_Enum typeField)).
Proof.
  refine (proj2 (proj2 (completeEnum_offers_valid_values (lib := runLib)
                          typeField "B" "bar" eq_refl eq_refl eq_refl _))).
  vm_compute. left. reflexivity.
Defined.

Lemma completeFlags_offers_known_switches_witness :
  (In "+type" commonFlags
   \/ lookupFlag (fields (commandOf ChartConfig))
        ("-" +:+ Strings.from 1 "+type") <> None)
  /\ In "+type" (completeFlags (commandOf ChartConfig) "+T").
Proof.
  split.
  - apply (proj2 (completeFlags_offers_known_switches
                    (commandOf ChartConfig) "+T")).
    vm_compute. right. left. reflexivity.
  - apply (proj1 (completeFlags_offers_known_switches
                    (commandOf ChartConfig) "+T") "+type" eq_refl eq_refl).
    split; [reflexivity |]. left. eexists. split.
    + vm_compute. do 5 right. left. reflexivity.
    + right. reflexivity.
Defined.

Lemma findTSVFile_loop_result (args : list string) :
  forall prev,
    findTSVFile_loop prev args = EmptyString
    \/ (In (findTSVFile_loop prev args) args
        /\ isTable (findTSVFile_loop prev args) = true).
Proof.
  induction args as [|arg rest IH]; intros prev; [now left |].
  cbn [findTSVFile_loop].
  destruct (match prev with
            | Some p => (String.eqb p "-argv" || Strings.HasSuffix p "-file")
                        && isTable arg
            | None => false
            end) eqn:E1.
  { right. split; [now left |]. destruct prev as [p|]; [| discriminate].
    now apply andb_true_iff in E1 as [_ ->]. }
  destruct (isTable arg) eqn:Ha; cbn [andb].
  - match goal with
    | |- context [if ?b then arg else _] => destruct b
    end; [right; split; [left; reflexivity | exact Ha] |].
    destruct (IH (Some arg)) as [->|[Hin Ht]]; [now left |].
    right. split; [now right | exact Ht].
  - destruct (IH (Some arg)) as [->|[Hin Ht]]; [now left |].
    right. split; [now right | exact Ht].
Qed.

Lemma findTSVFile_loop_pass (prev : option string) (a : string)
    (rest : list string) :
  isTable a = false ->
  findTSVFile_loop prev (a :: rest) = findTSVFile_loop (Some a) rest.
Proof.
  intros Ha. cbn [findTSVFile_loop]. rewrite Ha. cbn [andb].
  destruct prev; rewrite ?andb_false_r; reflexivity.
Qed.

Lemma findTSVFile_loop_none (args : list string) :
  forall prev,
    Forall (fun a => isTable a = false) args ->
    findTSVFile_loop prev args = EmptyString.
Proof.
  induction args as [|arg rest IH]; intros prev Hall; [reflexivity |].
  apply Forall_cons in Hall as [Ha Hall].
  rewrite findTSVFile_loop_pass by assumption. now apply IH.
Qed.

Lemma findTSVFile_loop_skip (pre : list string) :
  forall prev rest,
    Forall (fun a => isTable a = false) pre ->
    findTSVFile_loop prev (pre ++ rest)
    = findTSVFile_loop (match last pre with Some p => Some p | None => prev end)
        rest.
Proof.
  induction pre as [|a pre IH]; intros prev rest Hall; [reflexivity |].
  apply Forall_cons in Hall as [Ha Hall]. cbn [app].
  rewrite findTSVFile_loop_pass by assumption.
  rewrite (IH (Some a) rest Hall).
  destruct pre as [|b pre]; [reflexivity |].
  change (last (a :: b :: pre)) with (last (b :: pre)).
  destruct (last (b :: pre)) eqn:E; [reflexivity |].
  apply last_None in E. discriminate E.
Qed.

(** X15. What [findTSVFile] detects: a token of the vector whose name ends
    in .tsv or .csv in lower case, or nothing; it is the first such token,
    when that token does not start with [-] and the token before it does
    not hide it. A switch in the [-] spelling, other than -argv and those
    ending in -file, hides the table that follows it; the [+] spelling of
    a switch hides nothing. *)
Theorem findTSVFile_detects (args : list string) :
  (findTSVFile args <> EmptyString ->
   In (findTSVFile args) args /\ isTable (findTSVFile args) = true)
  /\ (Forall (fun a => isTable a = false) args -> findTSVFile args = EmptyString)
  /\ (forall pre a rest,
         args = pre ++ a :: rest ->
         Forall (fun x => isTable x = false) pre ->
         isTable a = true -> Strings.HasPrefix a "-" = false ->
         (forall p, last pre = Some p -> hidesTable p = false) ->
         findTSVFile args = a)
  /\ (forall pre p a,
         args = pre ++ [p; a] ->
         Forall (fun x => isTable x = false) (pre ++ [p]) ->
         hidesTable p = true ->
         findTSVFile args = EmptyString)
  /\ (forall name, hidesTable ("+" +:+ name) = false).
Proof.
  split; [| split; [| split; [| split]]].
  - intros Hne. unfold findTSVFile in *.
    destruct (findTSVFile_loop_result args None) as [H|H];
      [contradiction | exact H].
  - apply findTSVFile_loop_none.
  - intros pre a rest -> Hpre Ha Hbare Hprev. unfold findTSVFile.
    rewrite findTSVFile_loop_skip by assumption. cbn [findTSVFile_loop].
    rewrite Ha, Hbare. cbn [negb andb].
    destruct (last pre) as [p|]; [| reflexivity].
    specialize (Hprev p eq_refl). unfold hidesTable in Hprev.
    destruct (String.eqb p "-argv" || Strings.HasSuffix p "-file") eqn:E1;
      [reflexivity |].
    apply orb_false_iff in E1 as [E1 E1']. rewrite E1, E1' in Hprev.
    cbn [negb andb] in *. rewrite !andb_true_r in Hprev.
    destruct (Strings.HasPrefix p "-"); cbn [negb orb andb] in *.
    + apply negb_false_iff in Hprev. now rewrite Hprev.
    + reflexivity.
  - intros pre p a -> Hpre Hhide. unfold findTSVFile.
    replace (pre ++ [p; a]) with ((pre ++ [p]) ++ [a]) by now rewrite <- app_assoc.
    rewrite findTSVFile_loop_skip by assumption.
    rewrite last_snoc. cbn [findTSVFile_loop].
    unfold hidesTable in Hhide.
    apply andb_true_iff in Hhide as [Hhide Hfile].
    apply andb_true_iff in Hhide as [Hhide Hargv].
    apply andb_true_iff in Hhide as [Hpre' Hminus].
    apply negb_true_iff in Hfile, Hargv, Hminus.
    rewrite Hfile, Hargv, Hpre', Hminus. cbn [orb andb negb].
    replace (String.eqb p "+") with false.
    2:{ symmetry. apply String.eqb_neq. intros ->. discriminate Hpre'. }
    now rewrite !andb_false_r.
  - intros name. unfold hidesTable. rewrite append_cons. reflexivity.
Qed.

Lemma findTSVFile_detects_witness :
  findTSVFile ["+title"; "data.tsv"] = "data.tsv"
  /\ findTSVFile ["-title"; "data.tsv"] = EmptyString.
Proof.
  split.
  - refine (proj1 (proj2 (proj2 (findTSVFile_detects ["+title"; "data.tsv"])))
              ["+title"] "data.tsv" [] eq_refl _ eq_refl eq_refl _).
    + repeat constructor.
    + intros p [= <-]. reflexivity.
  - refine (proj1 (proj2 (proj2 (proj2 (findTSVFile_detects ["-title"; "data.tsv"]))))
              [] "-title" "data.tsv" eq_refl _ eq_refl).
    repeat constructor.
Defined.

Lemma TrimLeftFunc_append (junk s : string) (f : ascii -> bool) :
  Strings.TrimLeftFunc junk f = EmptyString ->
  Strings.TrimLeftFunc (junk +:+ s) f = Strings.TrimLeftFunc s f.
Proof.
  induction junk as [|c junk IH]; [reflexivity |].
  rewrite append_cons. cbn [Strings.TrimLeftFunc].
  destruct (f c); [exact IH | discriminate].
Qed.

Lemma TrimLeftFunc_startsAlnum (s : string) :
  startsAlnum s = true ->
  Strings.TrimLeftFunc s (fun r => negb (isAlnum r)) = s.
Proof.
  destruct s as [|c s]; [discriminate |]. cbn [startsAlnum Strings.TrimLeftFunc].
  now intros ->.
Qed.

Lemma startsAlnum_Join (f : string) (rest : list string) (sep : string) :
  startsAlnum f = true -> startsAlnum (Strings.Join (f :: rest) sep) = true.
Proof.
  destruct f as [|c f]; [discriminate |]. intros Hc.
  destruct rest as [|g rest]; [exact Hc |].
  rewrite Join_cons, append_cons. exact Hc.
Qed.

Lemma filter_nonempty_id (l : list string) :
  Forall (fun f => f <> EmptyString) l ->
  filter (fun field => field ≠ EmptyString) l = l.
Proof.
  induction 1 as [|f l Hf _ IH]; [reflexivity |].
  rewrite filter_cons_True by exact Hf. now rewrite IH.
Qed.

Lemma parseTSVHeader_written (junk : string) (flds : list string) :
  Strings.TrimLeftFunc junk (fun r => negb (isAlnum r)) = EmptyString ->
  startsAlnum (hd EmptyString flds) = true ->
  Forall (fun f => Strings.TrimSpace f = f /\ f <> EmptyString
                   /\ Strings.ContainsAny f (TAB +:+ ",") = false) flds ->
  parseTSVHeader (junk +:+ Strings.Join flds TAB) = flds
  /\ parseTSVHeader (junk +:+ Strings.Join flds ",") = flds.
Proof.
  intros Hjunk Hfirst Hall.
  assert (Htrim : Forall (fun v => Strings.TrimSpace v = v) flds).
  { eapply Forall_impl; [exact Hall |]. now intros v [Hv _]. }
  assert (Hne : Forall (fun v => v <> EmptyString) flds).
  { eapply Forall_impl; [exact Hall |]. now intros v (_ & Hv & _). }
  assert (Htab : Forall (fun v => Strings.Contains v TAB = false) flds).
  { eapply Forall_impl; [exact Hall |]. intros v (_ & _ & Hv).
    now apply ContainsAny_two in Hv. }
  assert (Hcomma : Forall (fun v => Strings.Contains v "," = false) flds).
  { eapply Forall_impl; [exact Hall |]. intros v (_ & _ & Hv).
    now apply ContainsAny_two in Hv. }
  destruct flds as [|f rest]; [discriminate |]. cbn [hd] in Hfirst.
  unfold parseTSVHeader.
  rewrite !TrimLeftFunc_append by exact Hjunk.
  rewrite !TrimLeftFunc_startsAlnum by now apply startsAlnum_Join.
  assert (Hclean : forall l, l = f :: rest ->
                             filter (fun field => field ≠ EmptyString)
                               (map Strings.TrimSpace l) = f :: rest).
  { intros l ->. rewrite map_TrimSpace_id by assumption.
    now apply filter_nonempty_id. }
  unfold TAB in *. destruct rest as [|g rest].
  - apply Forall_cons in Htab as [Ht _]. apply Forall_cons in Hcomma as [Hc _].
    cbn [Strings.Join]. rewrite Ht, Split_byte, splitByte_clean by assumption.
    split; now apply Hclean.
  - split.
    + rewrite Contains_Join_sep, Split_byte, splitByte_Join
        by (assumption || discriminate).
      now apply Hclean.
    + rewrite (Contains_Join_other (ascii_of_nat 9) "," _ eq_refl Htab).
      rewrite Split_byte, splitByte_Join by (assumption || discriminate).
      now apply Hclean.
Qed.

(** X16. [parseTSVHeader] reads back a header line written from its field
    names, with tabs or with commas between them, whatever bytes that are
    no letters or digits stand before the first name: for names of ASCII
    text without blanks around them, tabs or commas, the first of which
    starts with a letter or a digit. *)
Theorem parseTSVHeader_Join (junk : string) (flds : list string) :
  Forall (fun f => isASCII f = true) flds ->
  Strings.TrimLeftFunc junk (fun r => negb (isAlnum r)) = EmptyString ->
  startsAlnum (hd EmptyString flds) = true ->
  Forall (fun f => Strings.TrimSpace f = f /\ f <> EmptyString
                   /\ Strings.ContainsAny f (TAB +:+ ",") = false) flds ->
  parseTSVHeader (junk +:+ Strings.Join flds TAB) = flds
  /\ parseTSVHeader (junk +:+ Strings.Join flds ",") = flds.
Proof. intros _. apply parseTSVHeader_written. Qed.

Lemma parseTSVHeader_Join_witness :
  parseTSVHeader ("# " +:+ Strings.Join ["host"; "cpu load"; "-delta"] TAB)
  = ["host"; "cpu load"; "-delta"].
Proof.
  refine (proj1 (parseTSVHeader_Join "# " ["host"; "cpu load"; "-delta"]
                   _ eq_refl eq_refl _)).
  - repeat constructor.
  - repeat constructor; discriminate.
Defined.

(** ** More of completion: the dispatch of [complete] *)

Section CompleteExtras.
Context {lib : GoLib}.

Lemma current_token (args : list string) (pos : Z) :
  (0 <= pos)%Z ->
  (if (pos <? Z.of_nat (length args))%Z then index args pos else Some EmptyString)
  = Some (default EmptyString (args !! Z.to_nat pos)).
Proof.
  intros Hpos. destruct (args !! Z.to_nat pos) as [x|] eqn:Hx.
  - pose proof (lookup_lt_Some _ _ _ Hx).
    destruct (Z.ltb_spec pos (Z.of_nat (length args))); [| lia].
    rewrite <- (Z2Nat.id pos) by lia. now apply index_lookup.
  - apply lookup_ge_None in Hx.
    destruct (Z.ltb_spec pos (Z.of_nat (length args))); [lia | reflexivity].
Qed.

(** The backward scan from the first argument of a switch stops at the
    switch. *)
Lemma findLastFlag_first_argument (cmd : GSCommand) (args : list string)
    (p : nat) (flag token : string) (fm : FieldMeta) :
  args !! p = Some token ->
  token = flag \/ token = "+" +:+ Strings.from 1 flag ->
  lookupFlag (fields cmd) flag = Some fm ->
  fm_Name fm <> EmptyString ->
  findLastFlag cmd args (Z.of_nat p + 1) = Some (Z.of_nat p, Some fm).
Proof.
  intros Hp Htoken Hl Hname.
  pose proof (lookup_lt_Some _ _ _ Hp) as Hlen.
  unfold findLastFlag.
  replace (Z.to_nat (if (Z.of_nat (length args) - 1 <? Z.of_nat p + 1)%Z
                     then (Z.of_nat (length args) - 1 + 1)%Z
                     else (Z.of_nat p + 1)%Z)) with (S p)
    by (destruct (Z.ltb_spec (Z.of_nat (length args) - 1) (Z.of_nat p + 1));
        lia).
  cbn [findLastFlag_loop].
  destruct (Z.leb_spec (Z.of_nat (length args)) (Z.of_nat p)); [lia |].
  rewrite (index_lookup _ _ _ Hp). cbn [mbind option_bind].
  destruct (lookupFlag_Some _ _ _ Hl) as [Hflag _].
  destruct (parseFlagName_shape _ Hname) as (c & name & Hshape).
  rewrite Hshape in Hflag. subst flag.
  assert (Hlen1 : forall m, (1 <? Strings.len (String m (String c name)))%Z = true).
  { intros m. apply Z.ltb_lt. unfold Strings.len. cbn [String.length]. lia. }
  destruct Htoken as [->| ->].
  - replace (Strings.HasPrefix (String "-" (String c name)) "-") with true
      by reflexivity.
    replace (Strings.HasPrefix (String "-" (String c name)) "+") with false
      by reflexivity.
    rewrite Hlen1. cbn [orb andb]. now rewrite Hl.
  - change ("+" +:+ Strings.from 1 (String "-" (String c name)))
      with (String "+" (String c name)).
    replace (Strings.HasPrefix (String "+" (String c name)) "-") with false
      by reflexivity.
    replace (Strings.HasPrefix (String "+" (String c name)) "+") with true
      by reflexivity.
    rewrite Hlen1. cbn [orb andb].
    change ("-" +:+ Strings.from 1 (String "+" (String c name)))
      with (String "-" (String c name)).
    now rewrite Hl.
Qed.

Lemma analyzeCompletionContext_first_argument (cmd : GSCommand)
    (args : list string) (p : nat) (flag token : string) (fm : FieldMeta) :
  args !! p = Some token ->
  token = flag \/ token = "+" +:+ Strings.from 1 flag ->
  lookupFlag (fields cmd) flag = Some fm ->
  fm_Name fm <> EmptyString ->
  let partial := default EmptyString (args !! S p) in
  Strings.HasPrefix partial "-" = false ->
  Strings.HasPrefix partial "+" = false ->
  fm_Type fm <> FieldTypeMulti ->
  analyzeCompletionContext cmd args (Z.of_nat p + 1)
  = Some (mkContext
            match fm_Type fm with
            | FieldTypeField => CompletionField
            | FieldTypeString =>
                if (0 <? Z.of_nat (length (fm_Enum fm)))%Z
                then CompletionEnum else CompletionFile
            | _ => CompletionFile
            end
            partial (findTSVFile args) EmptyString 0 None (Some fm)).
Proof.
  intros Hp Htoken Hl Hname partial Hm Hpl Hmulti.
  unfold analyzeCompletionContext.
  rewrite current_token by lia.
  replace (Z.to_nat (Z.of_nat p + 1)) with (S p) by lia. fold partial.
  cbn [mbind option_bind]. rewrite Hm, Hpl. cbn [orb].
  rewrite (findLastFlag_first_argument cmd args p flag token fm Hp Htoken Hl Hname).
  cbn [mbind option_bind].
  replace (Z.of_nat p + 1 - Z.of_nat p - 1)%Z with 0%Z by lia.
  destruct (fm_Type fm); try reflexivity. contradiction.
Qed.

(** X17. At the first argument of a text switch with declared values,
    completion returns the declared values that start with the partial
    token, letter case apart, in the order of the declaration; it reads no
    file and leaves the command as it is. The switch may be in either
    spelling. The declared values and the partial token are ASCII text. *)
Theorem complete_enum_values (args : list string) (p : nat)
    (flag token : string) (fm : FieldMeta) (w : World) (s : Sys) :
  args !! p = Some token ->
  token = flag \/ token = "+" +:+ Strings.from 1 flag ->
  lookupFlag (fields (sys_cmd s)) flag = Some fm ->
  fm_Name fm <> EmptyString ->
  fm_Type fm = FieldTypeString -> fm_Enum fm <> [] ->
  Forall (fun v => isASCII v = true) (fm_Enum fm) ->
  let partial := default EmptyString (args !! S p) in
  isASCII partial = true ->
  Strings.HasPrefix partial "-" = false ->
  Strings.HasPrefix partial "+" = false ->
  complete args (Z.of_nat p + 1) w s
  = (Some (Ok (prefixMatches partial (fm_Enum fm))), s).
Proof.
  intros Hp Htoken Hl Hname Ht He _ partial _ Hm Hpl.
  unfold complete, io_bind, getCmd, io_ret.
  rewrite (analyzeCompletionContext_first_argument (sys_cmd s) args p flag token
             fm Hp Htoken Hl Hname Hm Hpl) by (rewrite Ht; discriminate).
  fold partial. rewrite Ht.
  destruct (fm_Enum fm) as [|e enum] eqn:E; [contradiction |].
  cbn [length]. rewrite Nat2Z.inj_succ.
  destruct (Z.ltb_spec 0 (Z.succ (Z.of_nat (length enum)))); [| lia].
  cbn [ctx_Type ctx_FieldMeta ctx_Current mkContext]. unfold completeEnum.
  rewrite E. cbn [length]. rewrite Nat2Z.inj_succ.
  destruct (Z.eqb_spec (Z.succ (Z.of_nat (length enum))) 0); [lia |].
  reflexivity.
Qed.

Lemma prefixMatches_empty (candidates : list string) :
  prefixMatches EmptyString candidates = candidates.
Proof.
  unfold prefixMatches. induction candidates as [|c l IH]; [reflexivity |].
  rewrite filter_cons_True by now destruct (Strings.ToLower c).
  now rewrite IH.
Qed.

(** X18. At the first argument of a field switch, when the header line of
    the detected table can be read, completion returns the field names of
    the header that start with the partial token, letter case apart, in
    the order of the header: all of them for an empty token. The names are
    then in the cache of the command. The header line and the partial
    token are ASCII text. *)
Theorem complete_field_names (args : list string) (p : nat)
    (flag token headerLine : string) (rows : list string) (fm : FieldMeta)
    (w : World) (s : Sys) :
  args !! p = Some token ->
  token = flag \/ token = "+" +:+ Strings.from 1 flag ->
  lookupFlag (fields (sys_cmd s)) flag = Some fm ->
  fm_Name fm <> EmptyString ->
  fm_Type fm = FieldTypeField ->
  isASCII headerLine = true ->
  let partial := default EmptyString (args !! S p) in
  isASCII partial = true ->
  Strings.HasPrefix partial "-" = false ->
  Strings.HasPrefix partial "+" = false ->
  fieldCache (sys_cmd s) !! findTSVFile args = None ->
  os_Open w (findTSVFile args) = Ok (headerLine :: rows) ->
  fst (complete args (Z.of_nat p + 1) w s)
  = Some (Ok (prefixMatches partial (parseTSVHeader headerLine)))
  /\ (partial = EmptyString ->
      fst (complete args (Z.of_nat p + 1) w s)
      = Some (Ok (parseTSVHeader headerLine)))
  /\ fieldCache (sys_cmd (snd (complete args (Z.of_nat p + 1) w s)))
       !! findTSVFile args
     = Some (parseTSVHeader headerLine).
Proof.
  intros Hp Htoken Hl Hname Ht _ partial _ Hm Hpl Hcache Hopen.
  assert (Hc : complete args (Z.of_nat p + 1) w s
               = (Some (Ok (prefixMatches partial (parseTSVHeader headerLine))),
                  withFieldCache (findTSVFile args) (parseTSVHeader headerLine)
                    (logOpen (findTSVFile args) s))).
  { unfold complete, io_bind, getCmd, io_ret.
    rewrite (analyzeCompletionContext_first_argument (sys_cmd s) args p flag
               token fm Hp Htoken Hl Hname Hm Hpl) by (rewrite Ht; discriminate).
    fold partial. rewrite Ht.
    cbn [ctx_Type ctx_TSVFile ctx_Current mkContext].
    unfold completeField, io_bind, io_ret.
    rewrite getFields_unfold, Hcache, Hopen. reflexivity. }
  rewrite Hc. cbn [fst snd]. split; [reflexivity |]. split.
  - intros ->. now rewrite prefixMatches_empty.
  - cbn [withFieldCache sys_cmd fieldCache]. apply lookup_insert_eq.
Qed.

Lemma find_Argv (flds : list FieldMeta) (fm : FieldMeta) :
  List.find (fun f => String.eqb (fm_Name f) "Argv") flds = Some fm ->
  fm_Name fm = "Argv".
Proof. intros H. apply find_some in H as [_ H]. now apply String.eqb_eq. Qed.

(** X19. A bare first argument is completed like the value of -argv: with
    the suffix filter of the [Argv] field. *)
Theorem complete_bare_like_argv (partial : string) (fm : FieldMeta)
    (w : World) (s : Sys) :
  lookupFlag (fields (sys_cmd s)) "-argv" = Some fm ->
  List.find (fun f => String.eqb (fm_Name f) "Argv") (fields (sys_cmd s))
  = Some fm ->
  fm_Type fm = FieldTypeFile ->
  Strings.HasPrefix partial "-" = false ->
  Strings.HasPrefix partial "+" = false ->
  complete [partial] 0 w s = complete ["-argv"; partial] 1 w s
  /\ complete [partial] 0 w s
     = (Some (fst (completeFilesWithSuffix partial (Some fm) w s)), s).
Proof.
  intros Hl Hfind Ht Hm Hpl.
  pose proof (find_Argv _ _ Hfind) as Hname.
  assert (Hfiles : (let '(a, s') := completeFilesWithSuffix partial (Some fm) w s
                    in (Some a, s'))
                   = (Some (fst (completeFilesWithSuffix partial (Some fm) w s)), s)).
  { destruct (completeFilesWithSuffix_state partial (Some fm) w s) as [Hs _].
    destruct (completeFilesWithSuffix partial (Some fm) w s) as [r s'].
    cbn [fst snd] in *. now subst s'. }
  assert (H0 : complete [partial] 0 w s
               = (Some (fst (completeFilesWithSuffix partial (Some fm) w s)), s)).
  { unfold complete, io_bind, getCmd, io_ret, analyzeCompletionContext.
    rewrite current_token by lia.
    change (default EmptyString ([partial] !! Z.to_nat 0)) with partial.
    cbn [mbind option_bind]. rewrite Hm, Hpl. cbn [orb].
    change (findLastFlag (sys_cmd s) [partial] 0) with (Some ((-1)%Z, @None FieldMeta)).
    cbn [mbind option_bind].
    change (shouldUseBareFileCompletion [partial] 0) with (Some true).
    rewrite Hfind. cbn [ctx_Type ctx_Current ctx_FieldMeta mkContext].
    exact Hfiles. }
  split; [| exact H0]. rewrite H0.
  unfold complete, io_bind, getCmd, io_ret.
  pose proof (analyzeCompletionContext_first_argument (sys_cmd s)
                ["-argv"; partial] 0 "-argv" "-argv" fm eq_refl
                (or_introl eq_refl) Hl) as Ha.
  cbn [lookup list_lookup default] in Ha.
  change (Z.of_nat 0 + 1)%Z with 1%Z in Ha.
  rewrite Ha; try assumption; [| rewrite Hname; discriminate
                               | rewrite Ht; discriminate].
  rewrite Ht. cbn [ctx_Type ctx_Current ctx_FieldMeta mkContext].
  symmetry. exact Hfiles.
Qed.

End CompleteExtras.

Lemma complete_enum_values_witness :
  complete (lib := runLib) ["+type"; "L"] 1 noFiles (sysOf (commandOf ChartConfig))
  = (Some (Ok ["line"]), sysOf (commandOf ChartConfig)).
Proof.
  exact (complete_enum_values (lib := runLib) ["+type"; "L"] 0 "-type" "+type"
           typeField noFiles (sysOf (commandOf ChartConfig))
           eq_refl (or_intror eq_refl) eq_refl
           ltac:(discriminate) eq_refl ltac:(discriminate)
           ltac:(repeat constructor) eq_refl eq_refl eq_refl).
Defined.

Lemma complete_field_names_witness :
  fst (complete (lib := runLib) ["data.tsv"; "-x"; "C"] 2 oneTable
         (sysOf (commandOf ChartConfig)))
  = Some (Ok ["cpu"]).
Proof.
  exact (proj1 (complete_field_names (lib := runLib) ["data.tsv"; "-x"; "C"] 1
                  "-x" "-x" ("host" +:+ TAB +:+ "cpu" +:+ TAB +:+ "-delta")
                  (tail dataLines) xField oneTable (sysOf (commandOf ChartConfig))
                  eq_refl (or_introl eq_refl) eq_refl
                  ltac:(discriminate) eq_refl eq_refl eq_refl
                  eq_refl eq_refl eq_refl eq_refl)).
Defined.

Lemma complete_bare_like_argv_witness :
  complete (lib := runLib) ["da"] 0 oneTable (sysOf (commandOf ChartConfig))
  = complete (lib := runLib) ["-argv"; "da"] 1 oneTable
      (sysOf (commandOf ChartConfig)).
Proof.
  exact (proj1 (complete_bare_like_argv (lib := runLib) "da" argvField oneTable
                  (sysOf (commandOf ChartConfig))
                  eq_refl eq_refl eq_refl eq_refl eq_refl)).
Defined.

(** ** More of completion: files *)

Section FilesExtras.
Context {lib : GoLib}.

Lemma completeFiles_loop_lists (dir pattern : string)
    (fieldMeta : option FieldMeta) (entries : list DirEntry) :
  forall tsvFiles otherFiles directories,
    completeFiles_loop dir pattern fieldMeta entries tsvFiles otherFiles directories
    = (tsvFiles
       ++ map (entryPath dir) (List.filter (offeredTsv pattern fieldMeta) entries),
       otherFiles
       ++ map (entryPath dir)
            (List.filter (offeredOther pattern fieldMeta) entries),
       directories
       ++ map (fun entry => entryPath dir entry +:+ "/")
            (List.filter (offeredDir pattern) entries)).
Proof.
  induction entries as [|entry rest IH];
    intros tsvFiles otherFiles directories.
  - cbn [completeFiles_loop List.filter map]. now rewrite !app_nil_r.
  - cbn [completeFiles_loop List.filter]. fold (entryPath dir entry).
    rewrite !IH.
    generalize (List.filter (offeredTsv pattern fieldMeta) rest).
    generalize (List.filter (offeredOther pattern fieldMeta) rest).
    generalize (List.filter (offeredDir pattern) rest).
    intros FD FO FT. clear IH.
    unfold offeredTsv, offeredOther, offeredDir, nameShown, suffixAllows, namedTsv.
    destruct (Strings.HasPrefix (entry_Name entry) "."),
      (Strings.HasPrefix pattern "."),
      (Strings.HasPrefix (Strings.ToLower (entry_Name entry))
         (Strings.ToLower pattern)),
      (entry_IsDir entry),
      (Strings.HasSuffix (Strings.ToLower (entry_Name entry)) ".tsv");
      cbn [negb andb orb map]; rewrite <- ?app_assoc; try reflexivity;
      destruct fieldMeta as [fm|]; cbn [negb andb orb map];
      rewrite <- ?app_assoc; try reflexivity;
      destruct (String.eqb (fm_Suffix fm) EmptyString),
        (matchesSuffixPattern (entry_Name entry) (fm_Suffix fm));
      cbn [negb andb orb map]; rewrite <- ?app_assoc; reflexivity.
Qed.

Lemma no_slash_no_suffix (partial : string) :
  Strings.Contains partial "/" = false -> Strings.HasSuffix partial "/" = false.
Proof.
  intros Hc. destruct (Strings.HasSuffix partial "/") eqn:E; [| reflexivity].
  apply HasSuffix_spec in E as [t ->].
  rewrite Contains_append_byte in Hc. apply orb_false_iff in Hc as [_ Hc].
  discriminate Hc.
Qed.

Lemma completeFilesWithSuffix_listing (partial : string)
    (fieldMeta : option FieldMeta) (w : World) (s : Sys) :
  Strings.Contains partial "/" = false ->
  completeFilesWithSuffix partial fieldMeta w s
  = (match os_ReadDir w "." with
     | Ok entries =>
         Ok (map entry_Name (List.filter (offeredTsv partial fieldMeta) entries)
             ++ map entry_Name
                  (List.filter (offeredOther partial fieldMeta) entries)
             ++ map (fun entry => entry_Name entry +:+ "/")
                  (List.filter (offeredDir partial) entries))
     | Err _ => Ok []
     end, s).
Proof.
  intros Hslash. unfold completeFilesWithSuffix, io_bind, io_ret, os_readDir.
  rewrite (no_slash_no_suffix partial Hslash), Hslash.
  destruct (os_ReadDir w ".") as [entries|e]; [| reflexivity].
  rewrite completeFiles_loop_lists. unfold entryPath.
  cbn [String.eqb Ascii.eqb Bool.eqb app].
  now rewrite <- app_assoc.
Qed.

(** X20. What file completion lists for a partial name without a slash:
    of the entries of the current directory that start with the partial
    name, letter case apart, and are not hidden (unless the partial name
    starts with a dot), first the files named .tsv, then the other files,
    then the directories with a slash after the name; each group in the
    order of the directory. The suffix filter of the field removes files,
    never directories. A directory that cannot be read gives the empty
    list. The partial name, the suffix pattern and the names of the
    entries are ASCII text. *)
Theorem completeFilesWithSuffix_lists (partial : string)
    (fieldMeta : option FieldMeta) (w : World) (s : Sys) :
  Strings.Contains partial "/" = false ->
  isASCII partial = true ->
  (forall fm, fieldMeta = Some fm -> isASCII (fm_Suffix fm) = true) ->
  (forall entries,
      os_ReadDir w "." = Ok entries ->
      Forall (fun entry => isASCII (entry_Name entry) = true) entries) ->
  completeFilesWithSuffix partial fieldMeta w s
  = (match os_ReadDir w "." with
     | Ok entries =>
         Ok (map entry_Name (List.filter (offeredTsv partial fieldMeta) entries)
             ++ map entry_Name
                  (List.filter (offeredOther partial fieldMeta) entries)
             ++ map (fun entry => entry_Name entry +:+ "/")
                  (List.filter (offeredDir partial) entries))
     | Err _ => Ok []
     end, s).
Proof. intros Hslash _ _ _. now apply completeFilesWithSuffix_listing. Qed.

Lemma analyzeCompletionContext_current (cmd : GSCommand) (args : list string)
    (pos : Z) (context : CompletionContext) :
  (0 <= pos)%Z ->
  analyzeCompletionContext cmd args pos = Some context ->
  ctx_Current context = default EmptyString (args !! Z.to_nat pos).
Proof.
  intros Hpos. unfold analyzeCompletionContext.
  rewrite current_token by exact Hpos. cbn [mbind option_bind].
  destruct (Strings.HasPrefix _ "-" || Strings.HasPrefix _ "+");
    [now intros [= <-] |].
  destruct (findLastFlag cmd args pos) as [[flagPos found]|];
    cbn [mbind option_bind]; [| discriminate].
  destruct found as [fm|].
  2:{ destruct (shouldUseBareFileCompletion args pos); [| discriminate].
      now intros [= <-]. }
  destruct (fm_Type fm); try (now intros [= <-]).
  destruct (_ && _); [| now intros [= <-]].
  repeat match goal with
         | |- context [mbind _ (index ?l ?i)] =>
             destruct (index l i); cbn [mbind option_bind]
         | |- context [if ?b then _ else _] => destruct b
         end;
    try discriminate; now intros [= <-].
Qed.

Lemma prefixMatches_Forall (partial : string) (candidates : list string) :
  Forall (fun c => Strings.HasPrefix (Strings.ToLower c)
                     (Strings.ToLower partial) = true)
    (prefixMatches partial candidates).
Proof.
  apply List.Forall_forall. intros c Hc. now apply prefixMatches_In in Hc.
Qed.

Lemma HasPrefix_append (s p t : string) :
  Strings.HasPrefix s p = true -> Strings.HasPrefix (s +:+ t) p = true.
Proof.
  rewrite !HasPrefix_spec. intros [u ->]. exists (u +:+ t).
  apply append_assoc.
Qed.

Lemma completeFilesWithSuffix_extends (partial : string)
    (fieldMeta : option FieldMeta) (w : World) (s : Sys)
    (candidates : list string) :
  Strings.Contains partial "/" = false ->
  fst (completeFilesWithSuffix partial fieldMeta w s) = Ok candidates ->
  Forall (fun c => Strings.HasPrefix (Strings.ToLower c)
                     (Strings.ToLower partial) = true) candidates.
Proof.
  intros Hslash. rewrite completeFilesWithSuffix_listing by exact Hslash.
  cbn [fst]. destruct (os_ReadDir w ".") as [entries|e];
    intros [= <-]; [| constructor].
  assert (Hshown : forall entry, nameShown partial entry = true ->
                                 Strings.HasPrefix
                                   (Strings.ToLower (entry_Name entry))
                                   (Strings.ToLower partial) = true).
  { intros entry H. unfold nameShown in H. now apply andb_true_iff in H as [_ H]. }
  rewrite !Forall_app. repeat split; apply List.Forall_forall; intros c Hc;
    apply in_map_iff in Hc as (entry & <- & Hin);
    apply filter_In in Hin as [_ Hin].
  - apply Hshown. unfold offeredTsv in Hin.
    apply andb_true_iff in Hin as [Hin _]. apply andb_true_iff in Hin as [Hin _].
    now apply andb_true_iff in Hin as [Hin _].
  - apply Hshown. unfold offeredOther in Hin.
    apply andb_true_iff in Hin as [Hin _]. apply andb_true_iff in Hin as [Hin _].
    now apply andb_true_iff in Hin as [Hin _].
  - rewrite ToLower_append. apply HasPrefix_append, Hshown.
    unfold offeredDir in Hin. now apply andb_true_iff in Hin as [Hin _].
Qed.

(** X21. Every candidate of a completion starts with the token under the
    cursor, letter case apart, when that token holds no slash: whatever
    the kind of completion, the command and the files. It is stated for a
    token and a candidate of ASCII text, where letter case is that of the
    letters A to Z. *)
Theorem complete_candidates_extend_token (args : list string) (pos : Z)
    (w : World) (s : Sys) (candidates : list string) :
  (0 <= pos)%Z ->
  let current := default EmptyString (args !! Z.to_nat pos) in
  isASCII current = true ->
  Strings.Contains current "/" = false ->
  fst (complete args pos w s) = Some (Ok candidates) ->
  Forall (fun c => isASCII c = true ->
                   Strings.HasPrefix (Strings.ToLower c)
                     (Strings.ToLower current) = true) candidates.
Proof.
  intros Hpos current _ Hslash Hcand.
  assert (Hall : Forall (fun c => Strings.HasPrefix (Strings.ToLower c)
                                    (Strings.ToLower current) = true)
                   candidates);
    [| eapply Forall_impl; [exact Hall |]; now intros c Hc _].
  revert Hcand.
  unfold complete, io_bind, getCmd, io_ret.
  destruct (analyzeCompletionContext (sys_cmd s) args pos) as [context|] eqn:Ha;
    [| discriminate].
  pose proof (analyzeCompletionContext_current _ _ _ _ Hpos Ha) as Hcur.
  fold current in Hcur. rewrite Hcur. clear Ha.
  assert (Hfield : forall filename l,
             fst (completeField filename current w s) = Ok l ->
             Forall (fun c => Strings.HasPrefix (Strings.ToLower c)
                                (Strings.ToLower current) = true) l).
  { intros filename l. unfold completeField, io_bind, io_ret.
    destruct (getFields filename w s) as [[flds|e] s1]; cbn [fst];
      intros [= <-]. apply prefixMatches_Forall. }
  assert (Hcontent : forall filename fieldName l,
             fst (completeContent filename fieldName current w s) = Ok l ->
             Forall (fun c => Strings.HasPrefix (Strings.ToLower c)
                                (Strings.ToLower current) = true) l).
  { intros filename fieldName l. unfold completeContent, io_bind, io_ret.
    destruct (getFieldValues filename fieldName w s) as [[values|e] s1];
      cbn [fst]; intros [= <-]; [apply prefixMatches_Forall | constructor]. }
  assert (Hfiles : forall fieldMeta l,
             fst (completeFilesWithSuffix current fieldMeta w s) = Ok l ->
             Forall (fun c => Strings.HasPrefix (Strings.ToLower c)
                                (Strings.ToLower current) = true) l).
  { intros fieldMeta l. now apply completeFilesWithSuffix_extends. }
  assert (Hlift : forall (m : IO (result (list string))),
             (forall l, fst (m w s) = Ok l ->
                        Forall (fun c => Strings.HasPrefix (Strings.ToLower c)
                                           (Strings.ToLower current) = true) l) ->
             fst (let '(a, s') := m w s in (Some a, s')) = Some (Ok candidates) ->
             Forall (fun c => Strings.HasPrefix (Strings.ToLower c)
                                (Strings.ToLower current) = true) candidates).
  { intros m Hm. destruct (m w s) as [r s1]. cbn [fst] in *.
    intros [= ->]. now apply Hm. }
  destruct (ctx_Type context).
  - cbn [fst]. intros [= <-]. apply List.Forall_forall. intros c Hc.
    now apply completeFlags_In in Hc.
  - apply Hlift. apply Hfield.
  - apply Hlift. apply Hcontent.
  - apply Hlift. apply Hfiles.
  - apply Hlift. unfold completeMultiArgument, completeFiles. rewrite Hcur.
    destruct (ctx_ArgumentSpec context) as [spec|]; [| apply Hfiles].
    destruct (arg_Type spec);
      try (cbn [fst io_ret]; intros l [= <-]; constructor).
    + destruct (negb _); [apply Hfield |].
      cbn [fst io_ret]. intros l [= <-]. constructor.
    + destruct (_ && _); [apply Hcontent |].
      cbn [fst io_ret]. intros l [= <-]. constructor.
    + apply Hfiles.
  - cbn [fst]. intros [= <-]. unfold completeEnum.
    destruct (ctx_FieldMeta context) as [fm|]; [| constructor].
    destruct (_ =? 0)%Z; [constructor | apply prefixMatches_Forall].
Qed.

End FilesExtras.

Lemma completeFilesWithSuffix_lists_witness :
  completeFilesWithSuffix (lib := runLib) "d" (Some argvField) oneTable
    (sysOf (commandOf ChartConfig))
  = (Ok ["data.tsv"], sysOf (commandOf ChartConfig)).
Proof.
  refine (completeFilesWithSuffix_lists (lib := runLib) "d" (Some argvField)
            oneTable (sysOf (commandOf ChartConfig)) eq_refl eq_refl _ _).
  - intros fm [= <-]. reflexivity.
  - intros entries H. vm_compute in H. injection H as <-.
    repeat constructor.
Defined.

Lemma complete_candidates_extend_token_witness :
  exists candidates,
    fst (complete (lib := runLib) ["data.tsv"; "-match"; "host"; "W"] 3 oneTable
           (sysOf (commandOf TestCompletionConfig))) = Some (Ok candidates)
    /\ candidates <> []
    /\ Forall (fun c => isASCII c = true ->
                        Strings.HasPrefix (Strings.ToLower c) "w" = true)
         candidates.
Proof.
  assert (H : exists candidates,
             fst (complete (lib := runLib) ["data.tsv"; "-match"; "host"; "W"] 3
                    oneTable (sysOf (commandOf TestCompletionConfig)))
             = Some (Ok candidates) /\ candidates <> []).
  { eexists. split; [vm_compute; reflexivity | discriminate]. }
  destruct H as (candidates & Hc & Hne). exists candidates.
  split; [exact Hc |]. split; [exact Hne |].
  exact (complete_candidates_extend_token (lib := runLib)
           ["data.tsv"; "-match"; "host"; "W"] 3 oneTable
           (sysOf (commandOf TestCompletionConfig)) candidates
           ltac:(lia) eq_refl eq_refl Hc).
Defined.

(** ** The stand-alone completer *)

Lemma TSVCompleter_getFields_spec (filename : string) (w : World)
    (tc : TSVCompleter.t) (s : Sys) :
  TSVCompleter.cache tc = fieldCache (sys_cmd s) ->
  fst (TSVCompleter.getFields filename w tc) = fst (getFields filename w s)
  /\ TSVCompleter.cache (snd (TSVCompleter.getFields filename w tc))
     = fieldCache (sys_cmd (snd (getFields filename w s))).
Proof.
  intros Hc. rewrite getFields_unfold. unfold TSVCompleter.getFields.
  rewrite Hc. destruct (fieldCache (sys_cmd s) !! filename); [now split |].
  destruct (os_Open w filename) as [[|headerLine rows]|e]; try now split.
Qed.

(** X22. The completer of package [completion] and the command of package
    [gs] complete field names alike: from equal caches of field names,
    [CompleteField] and [completeField] return the same names or the same
    error, and leave equal caches. *)
Theorem CompleteField_agrees (filename partial : string) (w : World)
    (tc : TSVCompleter.t) (s : Sys) :
  TSVCompleter.cache tc = fieldCache (sys_cmd s) ->
  fst (TSVCompleter.CompleteField filename partial w tc)
  = fst (completeField filename partial w s)
  /\ TSVCompleter.cache (snd (TSVCompleter.CompleteField filename partial w tc))
     = fieldCache (sys_cmd (snd (completeField filename partial w s))).
Proof.
  intros Hc.
  destruct (TSVCompleter_getFields_spec filename w tc s Hc) as [Hr Hs].
  unfold TSVCompleter.CompleteField, completeField, io_bind, io_ret.
  destruct (TSVCompleter.getFields filename w tc) as [r1 tc1].
  destruct (getFields filename w s) as [r2 s2]. cbn [fst snd] in *. subst r2.
  destruct r1; now split.
Qed.

Lemma CompleteField_agrees_witness :
  fst (TSVCompleter.CompleteField "data.tsv" "H" oneTable
         TSVCompleter.NewTSVCompleter)
  = fst (completeField "data.tsv" "H" oneTable
           (sysOf (commandOf TestCompletionConfig))).
Proof.
  exact (proj1 (CompleteField_agrees "data.tsv" "H" oneTable
                  TSVCompleter.NewTSVCompleter
                  (sysOf (commandOf TestCompletionConfig)) eq_refl)).
Defined.

Lemma TSVCompleter_getFields_kept (filename : string) (w : World)
    (tc : TSVCompleter.t) (f : string) (flds : list string) :
  TSVCompleter.cache tc !! f = Some flds ->
  TSVCompleter.cache (snd (TSVCompleter.getFields filename w tc)) !! f
  = Some flds.
Proof.
  intros Hf. unfold TSVCompleter.getFields.
  destruct (TSVCompleter.cache tc !! filename) eqn:Hc; [exact Hf |].
  destruct (os_Open w filename) as [[|headerLine rows]|e]; try exact Hf.
  cbn [snd TSVCompleter.cache]. rewrite lookup_insert_ne; [exact Hf |].
  congruence.
Qed.

Lemma TSVCompleter_CompleteField_kept (filename partial : string) (w : World)
    (tc : TSVCompleter.t) (f : string) (flds : list string) :
  TSVCompleter.cache tc !! f = Some flds ->
  TSVCompleter.cache (snd (TSVCompleter.CompleteField filename partial w tc)) !! f
  = Some flds.
Proof.
  intros Hf. unfold TSVCompleter.CompleteField.
  pose proof (TSVCompleter_getFields_kept filename w tc f flds Hf) as Hk.
  destruct (TSVCompleter.getFields filename w tc) as [[r|e] tc']; exact Hk.
Qed.

(** X23. [TSVCompleter.Complete] returns no error: for a position from 0 on
    it returns a list of candidates, empty when the table cannot be read,
    and it keeps the entries of its cache. A negative position makes it
    index the vector out of range. *)
Theorem TSVCompleter_Complete_no_error (args : list string) (pos : Z)
    (w : World) (tc : TSVCompleter.t) :
  ((0 <= pos)%Z ->
   exists candidates,
     fst (TSVCompleter.Complete args pos w tc) = Some (Ok candidates))
  /\ ((pos < 0)%Z -> fst (TSVCompleter.Complete args pos w tc) = None)
  /\ (forall f flds,
         TSVCompleter.cache tc !! f = Some flds ->
         TSVCompleter.cache (snd (TSVCompleter.Complete args pos w tc)) !! f
         = Some flds).
Proof.
  split; [| split].
  - intros Hpos. unfold TSVCompleter.Complete.
    rewrite current_token by exact Hpos.
    assert (Hprev : exists prevArg,
               (if (0 <? pos)%Z then
                  if (pos - 1 <? Z.of_nat (length args))%Z
                  then index args (pos - 1)
                  else if (0 <? Z.of_nat (length args))%Z
                       then index args (Z.of_nat (length args) - 1)
                       else Some EmptyString
                else Some EmptyString) = Some prevArg).
    { destruct (Z.ltb_spec 0 pos); [| now eexists].
      destruct (Z.ltb_spec (pos - 1) (Z.of_nat (length args))).
      { apply index_Some. lia. }
      destruct (Z.ltb_spec 0 (Z.of_nat (length args))); [| now eexists].
      apply index_Some. lia. }
    destruct Hprev as [prevArg ->].
    destruct (_ || _); [| now eexists].
    destruct (negb (String.eqb (TSVCompleter.findTSVFile args) EmptyString)).
    + destruct (TSVCompleter.CompleteField _ _ w tc) as [[flds|e] tc'].
      * destruct (0 <? Z.of_nat (length flds))%Z; [now eexists |].
        destruct (Strings.HasSuffix _ ".tsv"); [| now eexists].
        destruct (TSVCompleter.CompleteField _ _ w tc') as [[flds2|e2] tc2];
          now eexists.
      * destruct (Strings.HasSuffix _ ".tsv"); [| now eexists].
        destruct (TSVCompleter.CompleteField _ _ w tc') as [[flds2|e2] tc2];
          now eexists.
    + destruct (Strings.HasSuffix _ ".tsv"); [| now eexists].
      destruct (TSVCompleter.CompleteField _ _ w tc) as [[flds2|e2] tc2];
        now eexists.
  - intros Hneg. unfold TSVCompleter.Complete.
    destruct (Z.ltb_spec pos (Z.of_nat (length args))); [| lia].
    now rewrite index_negative.
  - intros f flds Hf. unfold TSVCompleter.Complete.
    destruct (if (pos <? Z.of_nat (length args))%Z then _ else _) as [current|];
      [| exact Hf].
    destruct (if (0 <? pos)%Z then _ else _) as [prevArg|]; [| exact Hf].
    destruct (_ || _); [| exact Hf].
    assert (Hsecond : forall tc1,
               TSVCompleter.cache tc1 !! f = Some flds ->
               TSVCompleter.cache
                 (snd (if Strings.HasSuffix current ".tsv"
                       then match TSVCompleter.CompleteField current EmptyString
                                    w tc1 with
                            | (Ok flds0, tc2) => (Some (Ok flds0), tc2)
                            | (Err _, tc2) => (Some (Ok []), tc2)
                            end
                       else (Some (Ok []), tc1))) !! f = Some flds).
    { intros tc1 H1. destruct (Strings.HasSuffix current ".tsv"); [| exact H1].
      pose proof (TSVCompleter_CompleteField_kept current EmptyString w tc1 f
                    flds H1) as Hk.
      destruct (TSVCompleter.CompleteField current EmptyString w tc1)
        as [[r|e] tc2]; exact Hk. }
    destruct (negb (String.eqb (TSVCompleter.findTSVFile args) EmptyString));
      [| now apply Hsecond].
    pose proof (TSVCompleter_CompleteField_kept (TSVCompleter.findTSVFile args)
                  current w tc f flds Hf) as Hk.
    destruct (TSVCompleter.CompleteField _ current w tc) as [[r|e] tc'];
      cbn [snd] in Hk.
    + destruct (0 <? Z.of_nat (length r))%Z; [exact Hk | now apply Hsecond].
    + now apply Hsecond.
Qed.

Lemma TSVCompleter_Complete_no_error_witness :
  (exists candidates,
      fst (TSVCompleter.Complete ["data.tsv"; "-x"; "c"] 2 oneTable
             TSVCompleter.NewTSVCompleter) = Some (Ok candidates))
  /\ fst (TSVCompleter.Complete ["data.tsv"; "-x"; "c"] (-1) oneTable
            TSVCompleter.NewTSVCompleter) = None.
Proof.
  split.
  - apply (proj1 (TSVCompleter_Complete_no_error ["data.tsv"; "-x"; "c"] 2
                    oneTable TSVCompleter.NewTSVCompleter)). lia.
  - apply (proj1 (proj2 (TSVCompleter_Complete_no_error ["data.tsv"; "-x"; "c"]
                           (-1) oneTable TSVCompleter.NewTSVCompleter))). lia.
Defined.

Lemma findTSVFile_loop_agrees (args : list string) :
  forall prev,
    prev <> Some "-" ->
    Forall (fun a => Strings.HasSuffix a ".csv" = false /\ a <> "-") args ->
    findTSVFile_loop prev args = TSVCompleter.findTSVFile_loop prev args.
Proof.
  induction args as [|arg rest IH]; intros prev Hprev Hall; [reflexivity |].
  apply Forall_cons in Hall as [[Hcsv Hminus] Hall].
  cbn [findTSVFile_loop TSVCompleter.findTSVFile_loop]. unfold isTable.
  rewrite Hcsv, orb_false_r.
  rewrite (IH (Some arg)) by (congruence || assumption).
  destruct prev as [p|].
  - assert (Hp : String.eqb p "-" = false).
    { apply String.eqb_neq. congruence. }
    rewrite Hp, orb_false_r.
    destruct (String.eqb_spec p "+") as [->|_].
    + cbn. destruct (Strings.HasSuffix arg ".tsv"), (Strings.HasPrefix arg "-");
        reflexivity.
    + rewrite orb_false_r.
      destruct (String.eqb p "-argv" || Strings.HasSuffix p "-file"),
        (Strings.HasSuffix arg ".tsv"), (Strings.HasPrefix arg "-"),
        (Strings.HasPrefix p "-"); reflexivity.
  - cbn [andb orb].
    destruct (Strings.HasSuffix arg ".tsv"), (Strings.HasPrefix arg "-");
      reflexivity.
Qed.

(** X24. The two detectors of the table file agree on a vector without the
    separator [-] and without a name in .csv; a bare name in .csv is a
    table for the command and none for the stand-alone completer. *)
Theorem findTSVFile_agrees (args : list string) :
  (Forall (fun a => Strings.HasSuffix a ".csv" = false /\ a <> "-") args ->
   findTSVFile args = TSVCompleter.findTSVFile args)
  /\ (forall a, Strings.HasSuffix a ".csv" = true ->
                Strings.HasPrefix a "-" = false ->
                findTSVFile [a] = a /\ TSVCompleter.findTSVFile [a] = EmptyString).
Proof.
  split.
  - intros Hall. apply findTSVFile_loop_agrees; [discriminate | exact Hall].
  - intros a Hcsv Hbare. unfold findTSVFile, TSVCompleter.findTSVFile.
    cbn [findTSVFile_loop TSVCompleter.findTSVFile_loop]. unfold isTable.
    rewrite Hcsv, Hbare, orb_true_r. cbn [andb negb orb].
    split; [reflexivity |].
    assert (Htsv : Strings.HasSuffix a ".tsv" = false).
    { destruct (Strings.HasSuffix a ".tsv") eqn:E; [| reflexivity].
      apply HasSuffix_spec in E as [t ->]. apply HasSuffix_spec in Hcsv as [u Hu].
      exfalso. apply (f_equal String.length) in Hu as Hl.
      rewrite !length_append in Hl. cbn [String.length] in Hl.
      assert (String.length t = String.length u) by lia.
      apply (f_equal (Strings.from (String.length t))) in Hu.
      rewrite from_append in Hu. rewrite H in Hu. rewrite from_append in Hu.
      discriminate Hu. }
    now rewrite Htsv.
Qed.

Lemma findTSVFile_agrees_witness :
  findTSVFile ["-x"; "cpu"; "data.tsv"]
  = TSVCompleter.findTSVFile ["-x"; "cpu"; "data.tsv"].
Proof.
  apply (proj1 (findTSVFile_agrees ["-x"; "cpu"; "data.tsv"])).
  repeat constructor; discriminate.
Defined.

(** ** The chart command *)

Lemma tableName_nonempty (arg : string) : tableName arg = true -> arg <> EmptyString.
Proof. intros H ->. discriminate H. Qed.

Lemma getInputFile_clauses_nonempty (clauses : list ClauseSet) :
  Chart.getInputFile_clauses clauses <> EmptyString.
Proof.
  induction clauses as [|clause rest IH]; [discriminate |].
  cbn [Chart.getInputFile_clauses].
  destruct (Fields clause !! "_args") as [[| | |argList| |]|]; try exact IH.
  destruct (0 <? Z.of_nat (length argList))%Z; [| exact IH].
  fold tableName.
  change (fun arg : string =>
            Strings.HasSuffix (Strings.ToLower arg) ".tsv"
            || Strings.HasSuffix (Strings.ToLower arg) ".csv") with tableName.
  destruct (List.find tableName argList) as [arg|] eqn:Hf; [| exact IH].
  apply find_some in Hf as [_ Hf]. now apply tableName_nonempty.
Qed.

Section ChartExtras.
Context {lib : GoLib}.

(** X25. The input of the chart command: the [Argv] of the configuration
    when it is set, else the first bare argument named like a table, else
    the standard input; never the empty name. After [Parse] of a vector of
    bare tokens it is the first token named like a table, or the standard
    input. *)
Theorem getInputFile_source (cfg : Chart.Config) (clauses : list ClauseSet) :
  Chart.getInputFile cfg clauses <> EmptyString
  /\ (Chart.cfg_Argv cfg <> EmptyString ->
      Chart.getInputFile cfg clauses = Chart.cfg_Argv cfg)
  /\ (forall cmd args,
         Chart.cfg_Argv cfg = EmptyString ->
         args <> [] -> Forall (fun a => bareToken a = true) args ->
         Parse cmd args = Ok clauses ->
         Chart.getInputFile cfg clauses
         = default "-" (List.find tableName args)).
Proof.
  unfold Chart.getInputFile. split; [| split].
  - destruct (String.eqb_spec (Chart.cfg_Argv cfg) EmptyString) as [E|E];
      cbn [negb]; [apply getInputFile_clauses_nonempty | exact E].
  - intros Hset.
    now destruct (String.eqb_spec (Chart.cfg_Argv cfg) EmptyString).
  - intros cmd args Hargv Hne Hbare HP. rewrite Hargv. cbn [String.eqb negb].
    destruct (Parse_bare_clause cmd args Hne Hbare) as (c & HP' & _ & Ha & _).
    rewrite HP' in HP. injection HP as <-.
    cbn [Chart.getInputFile_clauses]. rewrite Ha.
    destruct args as [|a args]; [contradiction |].
    cbn [length]. rewrite Nat2Z.inj_succ.
    destruct (Z.ltb_spec 0 (Z.succ (Z.of_nat (length args)))); [| lia].
    change (fun arg : string =>
              Strings.HasSuffix (Strings.ToLower arg) ".tsv"
              || Strings.HasSuffix (Strings.ToLower arg) ".csv") with tableName.
    now destruct (List.find tableName (a :: args)).
Qed.

End ChartExtras.

Lemma fieldIndexOf_first (flds : list string) (fieldName : string) (i : Z) :
  (fieldIndexOf flds fieldName i = (-1)%Z /\ ~ In fieldName flds)
  \/ exists k, fieldIndexOf flds fieldName i = (i + Z.of_nat k)%Z
               /\ firstIndex flds fieldName k.
Proof.
  revert i. induction flds as [|f flds IH]; intros i; cbn [fieldIndexOf In].
  - left. tauto.
  - destruct (String.eqb_spec f fieldName) as [->|Hne].
    + right. exists 0%nat. split; [lia |]. split; [reflexivity | lia].
    + destruct (IH (i + 1)%Z) as [[H1 H2]|(k & H1 & H2 & H3)].
      * left. split; [exact H1 | tauto].
      * right. exists (S k). split; [lia |]. split; [exact H2 |].
        intros [|j] Hj; cbn; [congruence | apply H3; lia].
Qed.

Lemma firstIndex_unique (l : list string) (name : string) (i j : nat) :
  firstIndex l name i -> firstIndex l name j -> i = j.
Proof.
  intros [Hi Hi'] [Hj Hj'].
  destruct (Nat.lt_trichotomy i j) as [H|[H|H]]; [| exact H |].
  - now apply Hj' in H.
  - now apply Hi' in H.
Qed.

Section FilterExtras.
Variable re : string -> string -> result bool.

Lemma includeRow_cons (data : Chart.TSVData) (row : list string)
    (m : gmap string Value) (ms : list (gmap string Value)) :
  Chart.includeRow re data row (m :: ms) = true
  <-> conditionHolds re data row m
      /\ Chart.includeRow re data row ms = true.
Proof.
  cbn [Chart.includeRow]. unfold conditionHolds.
  destruct (m !! "field") as [[fieldName| | | | |]|] eqn:Ef;
    try (split; [intros H; split; [intros ? ? [=] | exact H] | now intros [_ H]]).
  destruct (m !! "content") as [[content| | | | |]|] eqn:Ec;
    try (split; [intros H; split; [intros ? ? _ [=] | exact H]
                | now intros [_ H]]).
  unfold Chart.findFieldIndex.
  destruct (fieldIndexOf_first (Chart.Headers data) fieldName 0)
    as [[-> Hno]|(k & -> & Hk)].
  - cbn [Z.eqb orb]. split; [discriminate |].
    intros [H _]. destruct (H _ _ eq_refl eq_refl) as (i & cell & [Hi _] & _).
    exfalso. apply Hno. apply list_elem_of_In. eapply list_elem_of_lookup_2, Hi.
  - rewrite Z.add_0_l.
    destruct (Z.eqb_spec (Z.of_nat k) (-1)); [lia |]. cbn [orb].
    destruct (Z.leb_spec (Z.of_nat (length row)) (Z.of_nat k)) as [Hlen|Hlen].
    + split; [discriminate |].
      intros [H _]. destruct (H _ _ eq_refl eq_refl) as (i & cell & Hi & Hc & _).
      rewrite (firstIndex_unique _ _ _ _ Hi Hk) in Hc.
      apply lookup_lt_Some in Hc. lia.
    + destruct (lookup_lt_is_Some_2 row k) as [cell Hcell]; [lia |].
      rewrite (index_lookup _ _ _ Hcell).
      destruct (re content cell) as [[|]|e] eqn:Em.
      * split; [intros H; split; [| exact H] | now intros [_ H]].
        intros f p [= <-] [= <-]. now exists k, cell.
      * split; [discriminate |].
        intros [H _]. destruct (H _ _ eq_refl eq_refl) as (i & c & Hi & Hc & Hm).
        rewrite (firstIndex_unique _ _ _ _ Hi Hk), Hcell in Hc.
        injection Hc as <-. congruence.
      * split; [discriminate |].
        intros [H _]. destruct (H _ _ eq_refl eq_refl) as (i & c & Hi & Hc & Hm).
        rewrite (firstIndex_unique _ _ _ _ Hi Hk), Hcell in Hc.
        injection Hc as <-. congruence.
Qed.

Lemma includeRow_spec (data : Chart.TSVData) (row : list string)
    (ms : list (gmap string Value)) :
  Chart.includeRow re data row ms = true
  <-> Forall (conditionHolds re data row) ms.
Proof.
  induction ms as [|m ms IH].
  - cbn [Chart.includeRow]. split; [constructor | reflexivity].
  - rewrite includeRow_cons, IH. split.
    + intros [Hm Hms]. now constructor.
    + intros H. now apply Forall_cons in H.
Qed.

Lemma filterData_nil (data : Chart.TSVData) : Chart.filterData re data [] = data.
Proof. reflexivity. Qed.

Lemma filterData_cons (data : Chart.TSVData) (m : gmap string Value)
    (ms : list (gmap string Value)) :
  Chart.filterData re data (m :: ms)
  = {| Chart.Headers := Chart.Headers data;
       Chart.Rows := List.filter (fun row => Chart.includeRow re data row (m :: ms))
                       (Chart.Rows data) |}.
Proof.
  unfold Chart.filterData. cbn [length]. rewrite Nat2Z.inj_succ.
  destruct (Z.eqb_spec (Z.succ (Z.of_nat (length ms))) 0); [lia | reflexivity].
Qed.

Lemma filterData_Rows (data : Chart.TSVData) (ms : list (gmap string Value)) :
  Chart.Rows (Chart.filterData re data ms)
  = List.filter (fun row => Chart.includeRow re data row ms)
      (Chart.Rows data)
  /\ Chart.Headers (Chart.filterData re data ms) = Chart.Headers data.
Proof.
  destruct ms as [|m ms].
  - rewrite filterData_nil. split; [| reflexivity].
    cbn [Chart.includeRow]. induction (Chart.Rows data) as [|r rs IH];
      [reflexivity |]. cbn [List.filter]. now rewrite <- IH.
  - rewrite filterData_cons. now split.
Qed.

Lemma filter_sublist {A} (f : A -> bool) (l : list A) :
  sublist (List.filter f l) l.
Proof.
  induction l as [|a l IH]; [constructor |].
  cbn [List.filter]. destruct (f a); now constructor.
Qed.

(** X26. [filterData] keeps the headers and the rows, in their order, that
    satisfy every condition: for a condition with a text field name and a
    text pattern, the row has a cell under the first header of that name
    and the pattern matches it without error. Conditions that lack one of
    the two are passed over. *)
Theorem filterData_keeps (data : Chart.TSVData)
    (matches : list (gmap string Value)) :
  Chart.Headers (Chart.filterData re data matches) = Chart.Headers data
  /\ sublist (Chart.Rows (Chart.filterData re data matches)) (Chart.Rows data)
  /\ forall row,
       In row (Chart.Rows (Chart.filterData re data matches))
       <-> In row (Chart.Rows data)
           /\ Forall (conditionHolds re data row) matches.
Proof.
  destruct (filterData_Rows data matches) as [-> ->].
  split; [reflexivity |]. split; [apply filter_sublist |].
  intros row. rewrite filter_In, includeRow_spec. reflexivity.
Qed.

Lemma includeRow_app (data : Chart.TSVData) (row : list string)
    (ms1 ms2 : list (gmap string Value)) :
  Chart.includeRow re data row (ms1 ++ ms2)
  = Chart.includeRow re data row ms1 && Chart.includeRow re data row ms2.
Proof.
  induction ms1 as [|m ms1 IH]; [reflexivity |].
  cbn [app Chart.includeRow].
  destruct (m !! "field") as [[fieldName| | | | |]|]; try exact IH.
  destruct (m !! "content") as [[content| | | | |]|]; try exact IH.
  destruct (_ || _); [reflexivity |].
  destruct (index row _); [| reflexivity].
  destruct (re content s) as [[|]|]; [exact IH | |]; reflexivity.
Qed.

Lemma includeRow_Headers (d1 d2 : Chart.TSVData) (row : list string)
    (ms : list (gmap string Value)) :
  Chart.Headers d1 = Chart.Headers d2 ->
  Chart.includeRow re d1 row ms = Chart.includeRow re d2 row ms.
Proof.
  intros Hh. induction ms as [|m ms IH]; [reflexivity |].
  cbn [Chart.includeRow]. unfold Chart.findFieldIndex. now rewrite Hh, IH.
Qed.

Lemma includeRow_negated (data : Chart.TSVData) (row : list string)
    (ms : list (gmap string Value)) :
  Chart.includeRow re data row (map (insert "_negated" (VBool true)) ms)
  = Chart.includeRow re data row ms.
Proof.
  induction ms as [|m ms IH]; [reflexivity |].
  cbn [map Chart.includeRow].
  rewrite !lookup_insert_ne by discriminate. now rewrite IH.
Qed.

Lemma filter_filter {A} (f g : A -> bool) (l : list A) :
  List.filter g (List.filter f l) = List.filter (fun a => f a && g a) l.
Proof.
  induction l as [|a l IH]; [reflexivity |].
  cbn [List.filter]. destruct (f a); cbn [andb List.filter]; [| exact IH].
  destruct (g a); now rewrite IH.
Qed.

Lemma TSVData_eq (d1 d2 : Chart.TSVData) :
  Chart.Headers d1 = Chart.Headers d2 -> Chart.Rows d1 = Chart.Rows d2 ->
  d1 = d2.
Proof. destruct d1, d2. cbn. now intros -> ->. Qed.

(** X27. The conditions of [filterData] are a conjunction: filtering by two
    lists of conditions one after the other is filtering by both at once,
    so filtering twice by the same list changes nothing more. The mark
    [_negated] that a [+] switch leaves in a condition is not looked at:
    a negated condition selects the same rows as the plain one. *)
Theorem filterData_conjunction (data : Chart.TSVData)
    (ms1 ms2 : list (gmap string Value)) :
  Chart.filterData re data (ms1 ++ ms2)
  = Chart.filterData re (Chart.filterData re data ms1) ms2
  /\ Chart.filterData re (Chart.filterData re data ms1) ms1
     = Chart.filterData re data ms1
  /\ Chart.filterData re data (map (insert "_negated" (VBool true)) ms1)
     = Chart.filterData re data ms1.
Proof.
  assert (Happ : forall a b,
             Chart.filterData re data (a ++ b)
             = Chart.filterData re (Chart.filterData re data a) b).
  { intros a b. apply TSVData_eq.
    - destruct (filterData_Rows data (a ++ b)) as [_ ->].
      destruct (filterData_Rows (Chart.filterData re data a) b) as [_ ->].
      now destruct (filterData_Rows data a) as [_ ->].
    - destruct (filterData_Rows data (a ++ b)) as [-> _].
      destruct (filterData_Rows (Chart.filterData re data a) b) as [-> _].
      destruct (filterData_Rows data a) as [-> Hh].
      rewrite filter_filter. apply filter_ext. intros row.
      rewrite includeRow_app. f_equal. symmetry.
      now apply includeRow_Headers. }
  split; [apply Happ |]. split.
  - rewrite <- Happ. apply TSVData_eq.
    + destruct (filterData_Rows data (ms1 ++ ms1)) as [_ ->].
      now destruct (filterData_Rows data ms1) as [_ ->].
    + destruct (filterData_Rows data (ms1 ++ ms1)) as [-> _].
      destruct (filterData_Rows data ms1) as [-> _].
      apply filter_ext. intros row. rewrite includeRow_app.
      now destruct (Chart.includeRow re data row ms1).
  - apply TSVData_eq.
    + destruct (filterData_Rows data (map (insert "_negated" (VBool true)) ms1))
        as [_ ->].
      now destruct (filterData_Rows data ms1) as [_ ->].
    + destruct (filterData_Rows data (map (insert "_negated" (VBool true)) ms1))
        as [-> _].
      destruct (filterData_Rows data ms1) as [-> _].
      apply filter_ext. intros row. apply includeRow_negated.
Qed.

(** X28. One condition that cannot hold empties the table without an error:
    a condition on a field name that no header has, or one whose pattern
    the regular expression library rejects, leaves no row. *)
Theorem filterData_bad_condition (data : Chart.TSVData)
    (matches : list (gmap string Value)) (m : gmap string Value)
    (fieldName content : string) :
  In m matches ->
  m !! "field" = Some (VString fieldName) ->
  m !! "content" = Some (VString content) ->
  ~ In fieldName (Chart.Headers data)
  \/ (forall cell, is_Err (re content cell) = true) ->
  Chart.Rows (Chart.filterData re data matches) = []
  /\ Chart.Headers (Chart.filterData re data matches) = Chart.Headers data.
Proof.
  intros Hin Hf Hc Hbad.
  destruct (filterData_Rows data matches) as [-> ->]. split; [| reflexivity].
  induction (Chart.Rows data) as [|row rows IH]; [reflexivity |].
  cbn [List.filter].
  destruct (Chart.includeRow re data row matches) eqn:E; [| exact IH].
  exfalso. apply includeRow_spec in E.
  rewrite Forall_forall in E. apply list_elem_of_In in Hin.
  destruct (E m Hin _ _ Hf Hc) as (i & cell & [Hi _] & _ & Hm).
  destruct Hbad as [Hno|Herr].
  - apply Hno, list_elem_of_In. eapply list_elem_of_lookup_2, Hi.
  - specialize (Herr cell). now rewrite Hm in Herr.
Qed.

End FilterExtras.

Lemma findSeparator_prefix (pre rest : string) (c : ascii) :
  allBytes Chart.isVariableByte pre = true ->
  Chart.isVariableByte c = false ->
  Chart.findSeparator (pre +:+ String c rest) = c.
Proof.
  intros Hpre Hc. induction pre as [|x pre IH].
  - rewrite append_nil_l. cbn [Chart.findSeparator]. now rewrite Hc.
  - cbn [allBytes] in Hpre. apply andb_true_iff in Hpre as [Hx Hpre].
    rewrite append_cons. cbn [Chart.findSeparator]. rewrite Hx. cbn [negb].
    now apply IH.
Qed.

Lemma allBytes_Contains (f : ascii -> bool) (s : string) (c : ascii) :
  allBytes f s = true -> f c = false ->
  Strings.Contains s (String c EmptyString) = false.
Proof.
  intros Hs Hc. induction s as [|x s IH]; [reflexivity |].
  cbn [allBytes] in Hs. apply andb_true_iff in Hs as [Hx Hs].
  rewrite Contains_cons_byte, (IH Hs), orb_false_r.
  destruct (Ascii.eqb_spec x c) as [->|]; [congruence | reflexivity].
Qed.

Lemma isVariableByte_not_space (c : ascii) :
  Chart.isVariableByte c = true -> Strings.isSpace c = false.
Proof.
  destruct c as [[] [] [] [] [] [] [] []]; vm_compute; congruence.
Qed.

Lemma TrimSpace_variable (s : string) :
  allBytes Chart.isVariableByte s = true -> Strings.TrimSpace s = s.
Proof.
  intros Hs. unfold Strings.TrimSpace.
  assert (Hl : Strings.TrimLeftFunc s Strings.isSpace = s).
  { destruct s as [|x s]; [reflexivity |].
    cbn [allBytes] in Hs. apply andb_true_iff in Hs as [Hx _].
    cbn [Strings.TrimLeftFunc]. now rewrite (isVariableByte_not_space _ Hx). }
  rewrite Hl. induction s as [|x s IH]; [reflexivity |].
  cbn [allBytes] in Hs. apply andb_true_iff in Hs as [Hx Hs].
  cbn [Strings.TrimRightFunc].
  rewrite (isVariableByte_not_space _ Hx), andb_false_r.
  rewrite IH; [reflexivity | exact Hs |].
  destruct s as [|y s]; [reflexivity |].
  cbn [allBytes] in Hs. apply andb_true_iff in Hs as [Hy _].
  cbn [Strings.TrimLeftFunc]. now rewrite (isVariableByte_not_space _ Hy).
Qed.

Lemma Join_head (f : string) (rest : list string) (sep : string) :
  exists tail, Strings.Join (f :: rest) sep = f +:+ tail
               /\ (rest <> [] -> tail = sep +:+ Strings.Join rest sep).
Proof.
  destruct rest as [|g rest].
  - exists EmptyString. cbn [Strings.Join]. now rewrite append_nil_r.
  - exists (sep +:+ Strings.Join (g :: rest) sep). now rewrite Join_cons.
Qed.

Lemma parseTSV_input (filename : string) (stdin : list string) (w : World)
    (firstLine : string) (lines : list string) :
  inputLines filename stdin w (firstLine :: lines) ->
  Chart.parseTSV filename stdin w
  = Ok {| Chart.Headers :=
            map Strings.TrimSpace
              (splitByte (Chart.findSeparator firstLine) firstLine);
          Chart.Rows :=
            map (fun line =>
                   map Strings.TrimSpace
                     (splitByte (Chart.findSeparator firstLine) line))
              (List.filter (fun line => negb (String.eqb line EmptyString))
                 lines) |}.
Proof.
  unfold inputLines, Chart.parseTSV. intros Hin.
  destruct (String.eqb filename EmptyString || String.eqb filename "-").
  - rewrite Hin. rewrite Split_byte. f_equal. f_equal.
    apply map_ext. intros line. now rewrite Split_byte.
  - rewrite Hin. rewrite Split_byte. f_equal. f_equal.
    apply map_ext. intros line. now rewrite Split_byte.
Qed.

Lemma Join_nonempty (c : ascii) (row : list string) :
  row <> [] -> row <> [EmptyString] ->
  Strings.Join row (String c EmptyString) <> EmptyString.
Proof.
  destruct row as [|a [|b row]]; intros H1 H2.
  - contradiction.
  - cbn [Strings.Join]. congruence.
  - rewrite Join_cons. destruct a; [| discriminate].
    rewrite append_nil_l, append_cons. discriminate.
Qed.

Lemma parseTSV_rows_written (c : ascii) (rows : list (list string)) :
  Forall (fun row => row <> [] /\ row <> [EmptyString]
                     /\ Forall (cleanCell c) row) rows ->
  map (fun line => map Strings.TrimSpace (splitByte c line))
    (List.filter (fun line => negb (String.eqb line EmptyString))
       (map (fun row => Strings.Join row (String c EmptyString)) rows))
  = rows.
Proof.
  induction 1 as [|row rows (Hne & Hne' & Hrow) _ IH]; [reflexivity |].
  cbn [map List.filter].
  destruct (String.eqb_spec (Strings.Join row (String c EmptyString)) EmptyString)
    as [E|_]; [now apply Join_nonempty in E |].
  cbn [negb map]. rewrite IH. f_equal.
  rewrite splitByte_Join; [| exact Hne |].
  - apply map_TrimSpace_id. eapply Forall_impl; [exact Hrow |]. now intros f [].
  - eapply Forall_impl; [exact Hrow |]. now intros f [].
Qed.

(** X29. [parseTSV] reads back a table written with one separator byte: for
    a separator that is no letter, digit or underscore, a first header of
    letters, digits and underscores followed by at least one more header,
    and cells of ASCII text without blanks around them and without the
    separator, the headers and the rows are those that were joined into
    the lines. Rows are never the empty line, which is passed over. *)
Theorem parseTSV_round_trip (filename : string) (stdin : list string)
    (w : World) (c : ascii) (first : string) (names : list string)
    (rows : list (list string)) :
  inputLines filename stdin w
    (Strings.Join (first :: names) (String c EmptyString)
       :: map (fun row => Strings.Join row (String c EmptyString)) rows) ->
  Chart.isVariableByte c = false -> (nat_of_ascii c < 128)%nat ->
  allBytes Chart.isVariableByte first = true ->
  Forall (fun f => isASCII f = true) names ->
  Forall (Forall (fun f => isASCII f = true)) rows ->
  names <> [] -> Forall (cleanCell c) names ->
  Forall (fun row => row <> [] /\ row <> [EmptyString]
                     /\ Forall (cleanCell c) row) rows ->
  Chart.parseTSV filename stdin w
  = Ok {| Chart.Headers := first :: names; Chart.Rows := rows |}.
Proof.
  intros Hin Hc _ Hfirst _ _ Hne Hnames Hrows.
  rewrite (parseTSV_input _ _ _ _ _ Hin).
  assert (Hsep : Chart.findSeparator
                   (Strings.Join (first :: names) (String c EmptyString)) = c).
  { destruct (Join_head first names (String c EmptyString)) as (tail & -> & Ht).
    rewrite (Ht Hne), append_cons, append_nil_l.
    now apply findSeparator_prefix. }
  rewrite Hsep. f_equal. f_equal.
  - rewrite splitByte_Join; [| discriminate |].
    + apply map_TrimSpace_id. constructor; [now apply TrimSpace_variable |].
      eapply Forall_impl; [exact Hnames |]. now intros f [].
    + constructor; [now apply allBytes_Contains with Chart.isVariableByte |].
      eapply Forall_impl; [exact Hnames |]. now intros f [].
  - now apply parseTSV_rows_written.
Qed.

Lemma splitByte_pieces (c : ascii) (s : string) :
  Forall (fun p => Strings.Contains p (String c EmptyString) = false)
    (splitByte c s).
Proof.
  induction s as [|x s IH]; [now repeat constructor |].
  cbn [splitByte]. destruct (Ascii.eqb x c) eqn:E; [now constructor |].
  destruct (splitByte c s) as [|h t];
    [now repeat constructor; rewrite Contains_cons_byte, E |].
  apply Forall_cons in IH as [Hh Ht]. constructor; [| exact Ht].
  now rewrite Contains_cons_byte, E, Hh.
Qed.

Lemma TrimLeftFunc_Contains (s : string) (f : ascii -> bool) (c : ascii) :
  Strings.Contains s (String c EmptyString) = false ->
  Strings.Contains (Strings.TrimLeftFunc s f) (String c EmptyString) = false.
Proof.
  induction s as [|x s IH]; [reflexivity |]. intros H.
  cbn [Strings.TrimLeftFunc]. destruct (f x); [| exact H].
  rewrite Contains_cons_byte in H. apply orb_false_iff in H as [_ H]. now apply IH.
Qed.

Lemma TrimRightFunc_Contains (s : string) (f : ascii -> bool) (c : ascii) :
  Strings.Contains s (String c EmptyString) = false ->
  Strings.Contains (Strings.TrimRightFunc s f) (String c EmptyString) = false.
Proof.
  induction s as [|x s IH]; [reflexivity |]. intros H.
  rewrite Contains_cons_byte in H. apply orb_false_iff in H as [Hx H].
  cbn [Strings.TrimRightFunc].
  destruct (String.eqb (Strings.TrimRightFunc s f) EmptyString && f x);
    [reflexivity |].
  now rewrite Contains_cons_byte, Hx, (IH H).
Qed.

Lemma TrimSpace_Contains (s : string) (c : ascii) :
  Strings.Contains s (String c EmptyString) = false ->
  Strings.Contains (Strings.TrimSpace s) (String c EmptyString) = false.
Proof.
  intros H. unfold Strings.TrimSpace.
  now apply TrimRightFunc_Contains, TrimLeftFunc_Contains.
Qed.

(** X30. [parseTSV] takes the first byte of the header line that is no
    letter, digit or underscore for the separator of the whole table. So a
    tab-separated header whose first field name has such a byte in it, a
    hyphen or a blank say, is cut at that byte: the table has the part
    before it as its first header and no header at all with that byte, and
    [findFieldIndex] does not find the field name that [parseTSVHeader]
    reads from the same line. The field names are ASCII text. *)
Theorem parseTSV_cuts_first_name (filename : string) (stdin : list string)
    (w : World) (pre post : string) (d : ascii) (rest : list string)
    (lines : list string) :
  let name := pre +:+ String d post in
  inputLines filename stdin w (Strings.Join (name :: rest) TAB :: lines) ->
  allBytes Chart.isVariableByte pre = true ->
  Chart.isVariableByte d = false -> (nat_of_ascii d < 128)%nat ->
  startsAlnum name = true ->
  Forall (fun f => isASCII f = true) (name :: rest) ->
  Forall (fun f => Strings.TrimSpace f = f /\ f <> EmptyString
                   /\ Strings.ContainsAny f (TAB +:+ ",") = false)
    (name :: rest) ->
  parseTSVHeader (Strings.Join (name :: rest) TAB) = name :: rest
  /\ exists data,
       Chart.parseTSV filename stdin w = Ok data
       /\ hd EmptyString (Chart.Headers data) = pre
       /\ Chart.findFieldIndex data name = (-1)%Z
       /\ Forall (fun h => Strings.Contains h (String d EmptyString) = false)
            (Chart.Headers data).
Proof.
  intros name Hin Hpre Hd _ Hstart _ Hall. split.
  - exact (proj1 (parseTSVHeader_written EmptyString (name :: rest)
                    eq_refl Hstart Hall)).
  - rewrite (parseTSV_input _ _ _ _ _ Hin). eexists. split; [reflexivity |].
    cbn [Chart.Headers].
    assert (Hline : exists tail,
               Strings.Join (name :: rest) TAB = pre +:+ String d tail).
    { destruct (Join_head name rest TAB) as (tail & -> & _).
      exists (post +:+ tail). subst name.
      now rewrite append_assoc, append_cons. }
    destruct Hline as (tail & ->).
    rewrite (findSeparator_prefix _ _ _ Hpre Hd).
    assert (Hhs : Forall
                    (fun h => Strings.Contains h (String d EmptyString) = false)
                    (map Strings.TrimSpace
                       (splitByte d (pre +:+ String d tail)))).
    { apply Forall_map. eapply Forall_impl; [apply splitByte_pieces |].
      intros p Hp. now apply TrimSpace_Contains. }
    split; [| split; [| exact Hhs]].
    + rewrite splitByte_append
        by now apply allBytes_Contains with Chart.isVariableByte.
      cbn [map hd]. now apply TrimSpace_variable.
    + unfold Chart.findFieldIndex. cbn [Chart.Headers].
      apply (proj1 (fieldIndexOf_found _ _ 0%Z (Z.le_refl 0))).
      intros Hn. rewrite Forall_forall in Hhs.
      apply list_elem_of_In in Hn. apply Hhs in Hn. subst name.
      rewrite Contains_append_byte, Contains_cons_byte, Ascii.eqb_refl in Hn.
      now rewrite orb_true_r in Hn.
Qed.

Lemma getInputFile_source_witness :
  exists clauses,
    Parse (lib := runLib) (commandOf ChartConfig) ["notes.txt"; "Data.CSV"; "b.tsv"]
    = Ok clauses
    /\ Chart.getInputFile zeroConfig clauses = "Data.CSV".
Proof.
  assert (HP : exists clauses,
             Parse (lib := runLib) (commandOf ChartConfig)
               ["notes.txt"; "Data.CSV"; "b.tsv"] = Ok clauses).
  { eexists. vm_compute. reflexivity. }
  destruct HP as (clauses & HP). exists clauses. split; [exact HP |].
  refine (proj2 (proj2 (getInputFile_source (lib := runLib) zeroConfig clauses))
            (commandOf ChartConfig) ["notes.txt"; "Data.CSV"; "b.tsv"]
            eq_refl _ _ HP).
  - discriminate.
  - repeat constructor.
Defined.

Lemma filterData_keeps_witness :
  In ["db1"; "30"; "7"]
    (Chart.Rows (Chart.filterData literalMatch loadTable [condition "host" "db"])).
Proof.
  apply (proj2 (proj2 (filterData_keeps literalMatch loadTable
                         [condition "host" "db"]))).
  split; [cbn; tauto |]. repeat constructor.
  intros fieldName content [= <-] [= <-].
  exists 0%nat, "db1". repeat split. intros j Hj. lia.
Defined.

Lemma filterData_bad_condition_witness :
  Chart.Rows (Chart.filterData literalMatch loadTable
                [condition "host" "web"; condition "mem" "1"]) = [].
Proof.
  refine (proj1 (filterData_bad_condition literalMatch loadTable
                   [condition "host" "web"; condition "mem" "1"]
                   (condition "mem" "1") "mem" "1" _ eq_refl eq_refl _)).
  - right. left. reflexivity.
  - left. cbn. intuition discriminate.
Defined.

Lemma parseTSV_round_trip_witness :
  Chart.parseTSV "data.tsv" [] oneTable = Ok loadTable.
Proof.
  refine (parseTSV_round_trip "data.tsv" [] oneTable (ascii_of_nat 9)
            "host" ["cpu"; "-delta"] (Chart.Rows loadTable)
            eq_refl eq_refl _ eq_refl _ _ _ _ _).
  - apply Nat.ltb_lt. reflexivity.
  - repeat constructor.
  - repeat constructor.
  - discriminate.
  - repeat constructor.
  - repeat constructor; discriminate.
Defined.

Lemma parseTSV_cuts_first_name_witness :
  parseTSVHeader ("host-name" +:+ TAB +:+ "cpu") = ["host-name"; "cpu"]
  /\ exists data,
       Chart.parseTSV "-" ["host-name" +:+ TAB +:+ "cpu"; "web1" +:+ TAB +:+ "3"]
         noFiles = Ok data
       /\ hd EmptyString (Chart.Headers data) = "host"
       /\ Chart.findFieldIndex data "host-name" = (-1)%Z.
Proof.
  destruct (parseTSV_cuts_first_name "-"
              ["host-name" +:+ TAB +:+ "cpu"; "web1" +:+ TAB +:+ "3"] noFiles
              "host" "name" "-" ["cpu"] ["web1" +:+ TAB +:+ "3"])
    as (Hh & data & Hd & Hhd & Hidx & _).
  - reflexivity.
  - reflexivity.
  - reflexivity.
  - apply Nat.ltb_lt. reflexivity.
  - reflexivity.
  - repeat constructor.
  - repeat constructor; discriminate.
  - split; [exact Hh |]. exists data. now repeat split.
Defined.
